(** * Motion-control kernel of the 6-axis robot arm: model and properties

    Shallow embedding of the JavaScript controllers

    - [RobotController]  (src/backend/controllers/RobotController.js, lines 1-425)
    - [Kinematics]       (same file, lines 426-849)
    - [SafetyMonitor]    (src/backend/controllers/SafetyMonitor.js)
    - [MotionPlanner]    (src/unnamed/part_002)
    - [HandwritingEngine] (src/unnamed/part_001)

    Numbers.  A JavaScript number is modelled as a real number: literals
    such as [2.97] are the exact decimals, [Math.PI] is [PI], [Math.sqrt],
    [Math.cos], [Math.sin] are the real functions.  Infinities and NaN
    values stored in arrays are outside the model.  What is kept of
    NaN is the one way the code can meet it on well-formed data: reading an
    array past its end gives [undefined], which arithmetic turns into NaN
    and every comparison answers with [false].  Such a read is [None].

    Rounding.  The values the code computes are taken without their
    rounding, with two exceptions where the rounded result itself is
    compared or counted: the soft limits of the monitor
    ([limit.max - limit.margin]) and the sample count and sample times
    of the planner ([Math.ceil(duration / sampleTime)],
    [i * sampleTime]).  There every operation is followed by [JS.double],
    the rounding to the nearest binary64 number, ties to even.  Overflow
    to an infinity and a sample count beyond what an array can hold are
    outside the model.

    Objects.  The monitor holds a reference to the controller and writes
    its fields, so both live in one [System] record that every monitor
    method threads through.  [EventEmitter.emit] appends to a trace of
    events; the winston loggers only write files and are left out.
    [Date.now()] and [Math.random()] are inputs of the methods that call
    them. *)

From Stdlib Require Import Ascii String.
From Stdlib Require Import Reals Lra Psatz List Bool Arith NArith ZArith Lia.
From Stdlib Require Import RNsatz.
Import ListNotations.
Open Scope R_scope.

(* ================================================================== *)
(** * JavaScript numbers and arrays *)
(* ================================================================== *)

Module JS.

(** [x < y] and [x <= y] as the booleans JavaScript computes. *)
Definition Rltb (x y : R) : bool := if Rlt_dec x y then true else false.
Definition Rleb (x y : R) : bool := if Rle_dec x y then true else false.

(** The result of an expression that may involve [undefined]:
    [None] is NaN. *)
Definition num := option R.

Definition lift1 (f : R -> R) (a : num) : num :=
  match a with Some x => Some (f x) | None => None end.

Definition lift2 (f : R -> R -> R) (a b : num) : num :=
  match a, b with Some x, Some y => Some (f x y) | _, _ => None end.

(** Relational operators: every comparison with NaN is [false]. *)
Definition cmp (f : R -> R -> bool) (a b : num) : bool :=
  match a, b with Some x, Some y => f x y | _, _ => false end.

Definition lt (a b : num) : bool := cmp Rltb a b.
Definition gt (a b : num) : bool := cmp (fun x y => Rltb y x) a b.
Definition le (a b : num) : bool := cmp Rleb a b.
Definition ge (a b : num) : bool := cmp (fun x y => Rleb y x) a b.

(** [Math.abs], [Math.min], [Math.sqrt], [Math.pow(x, n)] for a literal
    natural [n], and the arithmetic operators, on possibly-NaN operands.
    The code modelled here divides by constants that are not zero. *)
Definition abs : num -> num := lift1 Rabs.
Definition min : num -> num -> num := lift2 Rmin.
Definition sub : num -> num -> num := lift2 Rminus.
Definition add : num -> num -> num := lift2 Rplus.
Definition mul : num -> num -> num := lift2 Rmult.
Definition div : num -> num -> num := lift2 Rdiv.
Definition pow (a : num) (n : nat) : num := lift1 (fun x => x ^ n) a.

(** [Math.atan2(y, x)], the angle of the point [(x, y)] in [(-PI, PI]]. *)
Definition atan2 (y x : R) : R :=
  if Rltb 0 x then atan (y / x)
  else if Rltb x 0 then
    (if Rleb 0 y then atan (y / x) + PI else atan (y / x) - PI)
  else if Rltb 0 y then PI / 2
  else if Rltb y 0 then - (PI / 2)
  else 0.

(** [Math.sqrt] of a negative number is NaN. *)
Definition sqrt (a : num) : num :=
  match a with
  | Some x => if Rltb x 0 then None else Some (R_sqrt.sqrt x)
  | None => None
  end.

(** *** Rounding to a double

    [exponent x] is the binary exponent of [x], not below that of the
    subnormal numbers; [ulp x] the spacing of the doubles around [x];
    [double x] the double nearest to [x], the one with the even mantissa
    when two are as near.  Values of magnitude [2^1024] and above, which
    round to an infinity, are outside the model. *)
Definition exponent (x : R) : Z :=
  Z.max (Int_part (ln (Rabs x) / ln 2)) (-1022).

Definition ulp (x : R) : R := powerRZ 2 (exponent x - 52).

Definition nearestEven (r : R) : Z :=
  let f := Int_part r in
  if Rltb (r - IZR f) (1 / 2) then f
  else if Rltb (1 / 2) (r - IZR f) then (f + 1)%Z
  else if Z.even f then f else (f + 1)%Z.

Definition double (x : R) : R := IZR (nearestEven (x / ulp x)) * ulp x.

(** [a[i]]: the element, or [undefined] past the end. *)
Definition get (a : list R) (i : nat) : num := nth_error a i.

(** [a[i] = v].  At [i = a.length] the array grows by one element.
    Farther out JavaScript leaves holes before the new element, which a
    list of numbers cannot hold: the write is then [None]. *)
Fixpoint set (a : list R) (i : nat) (v : R) : option (list R) :=
  match a, i with
  | [], O => Some [v]
  | [], S _ => None
  | _ :: a', O => Some (v :: a')
  | x :: a', S i' =>
      match set a' i' v with
      | Some r => Some (x :: r)
      | None => None
      end
  end.

End JS.

(** [Math.floor], [Math.round], [Math.ceil], [Math.max] and [Math.sign].
    The first three are given as integers; [Math.round] rounds halves
    up. *)
Module JSMath.

Definition floor (x : R) : Z := Int_part x.
Definition round (x : R) : Z := Int_part (x + 1 / 2).
Definition ceil (x : R) : Z := (- Int_part (- x))%Z.
Definition max : JS.num -> JS.num -> JS.num := JS.lift2 Rmax.

Definition sign (x : R) : R :=
  if JS.Rltb 0 x then 1 else if JS.Rltb x 0 then -1 else 0.

(** [x / y] where [y] may be zero: JavaScript then gives an infinity or
    NaN, neither of which is a real number, and the quotient is [None]. *)
Definition quotient (x y : R) : JS.num :=
  if Req_dec_T y 0 then None else Some (x / y).

End JSMath.

(* ================================================================== *)
(** * The matrices of mathjs *)
(* ================================================================== *)

(** The controllers use the mathjs library for dense matrices.  A matrix is
    its list of rows.  Every matrix the code builds has a literal shape
    (3x3, 4x4, 3x1, 6x6, 6x1), so reads are in range; a missing entry
    reads as [0].  [math.inv] is not modelled here: the functions that call
    it take it as a parameter that may throw ([None]). *)
Module Mathjs.

Definition Matrix := list (list R).

(** [M.get([i, j])]. *)
Definition get (M : Matrix) (i j : nat) : R := nth j (nth i M []) 0.

(** [math.identity(n)]. *)
Definition identity (n : nat) : Matrix :=
  map (fun i => map (fun j => if Nat.eqb i j then 1 else 0) (seq 0 n))
      (seq 0 n).

Definition dot (u v : list R) : R :=
  fold_right Rplus 0 (map (fun p => fst p * snd p) (combine u v)).

Definition column (M : Matrix) (j : nat) : list R :=
  map (fun row => nth j row 0) M.

Definition columns (M : Matrix) : list (list R) :=
  map (column M) (seq 0 (length (nth 0 M []))).

(** [math.multiply(A, B)] for two matrices. *)
Definition multiply (A B : Matrix) : Matrix :=
  map (fun row => map (dot row) (columns B)) A.

(** [math.multiply(A, k)] for a matrix and a number. *)
Definition scale (A : Matrix) (k : R) : Matrix :=
  map (map (fun v => v * k)) A.

(** [math.subtract(A, B)]. *)
Definition subtract (A B : Matrix) : Matrix :=
  map (fun p => map (fun q => fst q - snd q) (combine (fst p) (snd p)))
      (combine A B).

(** [M.set([i, j], v)]. *)
Definition set (M : Matrix) (i j : nat) (v : R) : Matrix :=
  map (fun p =>
         if Nat.eqb (fst p) i
         then map (fun q => if Nat.eqb (fst q) j then v else snd q)
                  (combine (seq 0 (length (snd p))) (snd p))
         else snd p)
      (combine (seq 0 (length M)) M).

(** [M.subset(math.index([0, 1, 2], [0, 1, 2]))]: the upper left 3x3
    block. *)
Definition block3 (M : Matrix) : Matrix :=
  map (fun i => map (fun j => get M i j) (seq 0 3)) (seq 0 3).

(** [M.subset(math.index([0, 1, 2], [0, 1, 2]), B)]: the upper left 3x3
    block replaced by [B]. *)
Definition setBlock3 (M B : Matrix) : Matrix :=
  map (fun p =>
         map (fun q =>
                if Nat.ltb (fst p) 3 && Nat.ltb (fst q) 3
                then get B (fst p) (fst q) else snd q)
             (combine (seq 0 (length (snd p))) (snd p)))
      (combine (seq 0 (length M)) M).

End Mathjs.

(* ================================================================== *)
(** * Kinematics *)
(* ================================================================== *)

Module Kinematics.

Import Mathjs.

(** One row of the modified DH table. *)
Record DH := { a : R; alpha : R; d : R; theta : R }.

Record Vec3 := { x : R; y : R; z : R }.
Record Euler := { rx : R; ry : R; rz : R }.
Record Pose := { position : Vec3; orientation : Euler }.

Section WithParameters.

(** [this.dhParams], set by the constructor. *)
Variable dhParams : list DH.

(** [math.inv]; [None] when it throws. *)
Variable inv : Matrix -> option Matrix.

(** [buildDHMatrix(a, alpha, d, theta)]. *)
Definition buildDHMatrix (a alpha d theta : R) : Matrix :=
  let ct := cos theta in
  let st := sin theta in
  let ca := cos alpha in
  let sa := sin alpha in
  [ [ct; - st; 0; a];
    [st * ca; ct * ca; - sa; - d * sa];
    [st * sa; ct * sa; ca; d * ca];
    [0; 0; 0; 1] ].

(** [poseToMatrix(pose)]. *)
Definition poseToMatrix (pose : Pose) : Matrix :=
  let '{| x := x; y := y; z := z |} := position pose in
  let '{| rx := rx; ry := ry; rz := rz |} := orientation pose in
  let Rx := [ [1; 0; 0];
              [0; cos rx; - sin rx];
              [0; sin rx; cos rx] ] in
  let Ry := [ [cos ry; 0; sin ry];
              [0; 1; 0];
              [- sin ry; 0; cos ry] ] in
  let Rz := [ [cos rz; - sin rz; 0];
              [sin rz; cos rz; 0];
              [0; 0; 1] ] in
  let R := multiply (multiply Rz Ry) Rx in
  let T := identity 4 in
  let T := setBlock3 T R in
  let T := set T 0 3 x in
  let T := set T 1 3 y in
  let T := set T 2 3 z in
  T.

(** [calculateWristCenter(targetMatrix)]; [None] when
    [this.dhParams[5]] is [undefined] and reading [.d] throws. *)
Definition calculateWristCenter (targetMatrix : Matrix) : option Vec3 :=
  let zVector := [ [get targetMatrix 0 2];
                   [get targetMatrix 1 2];
                   [get targetMatrix 2 2] ] in
  match nth_error dhParams 5 with
  | None => None
  | Some dh6 =>
      let d6 := d dh6 in
      let wristCenter :=
        subtract [ [get targetMatrix 0 3];
                   [get targetMatrix 1 3];
                   [get targetMatrix 2 3] ]
                 (scale zVector d6) in
      Some {| x := get wristCenter 0 0;
              y := get wristCenter 1 0;
              z := get wristCenter 2 0 |}
  end.

(** The argument [D] of the elbow angle in [solveFirstThreeJoints],
    from the planar radius [r], the height [z_rel] over the shoulder
    and the two link lengths. *)
Definition elbowArgument (r z_rel a2 d4 : R) : R :=
  (r * r + z_rel * z_rel - a2 * a2 - d4 * d4) / (2 * a2 * d4).

(** The body of the loop over [theta1_candidates]. *)
Definition solveForBase (wristCenter : Vec3) (dh1 dh2 dh3 : DH)
    (theta1 : R) : list (list R) :=
  let '{| x := x; y := y; z := z |} := wristCenter in
  let r := sqrt (x * x + y * y) in
  let z_rel := z - d dh1 in
  let a2 := a dh2 in
  let d4 := d dh3 in
  let D := elbowArgument r z_rel a2 d4 in
  if JS.Rltb 1 (Rabs D) then []   (* continue *)
  else
    let theta3_offset := JS.atan2 (sqrt (1 - D * D)) D in
    let theta3_candidates := [theta3_offset; - theta3_offset] in
    map (fun theta3 =>
           let k1 := a2 + d4 * cos theta3 in
           let k2 := d4 * sin theta3 in
           let theta2_base := JS.atan2 z_rel r in
           let theta2_offset := JS.atan2 k2 k1 in
           let theta2 := theta2_base - theta2_offset in
           [theta1; theta2; theta3; 0; 0; 0])
        theta3_candidates.

(** [solveFirstThreeJoints(wristCenter)]; [None] when a row of
    [this.dhParams] it reads is missing. *)
Definition solveFirstThreeJoints (wristCenter : Vec3)
  : option (list (list R)) :=
  let theta1_base := JS.atan2 (y wristCenter) (x wristCenter) in
  let theta1_candidates := [theta1_base; theta1_base + PI] in
  match nth_error dhParams 0, nth_error dhParams 1, nth_error dhParams 2
  with
  | Some dh1, Some dh2, Some dh3 =>
      Some (flat_map (solveForBase wristCenter dh1 dh2 dh3)
                     theta1_candidates)
  | _, _, _ => None
  end.

(** [extractEulerAnglesFromRotation(R)]. *)
Definition extractEulerAnglesFromRotation (R : Matrix) : Euler :=
  let r11 := get R 0 0 in
  let r12 := get R 0 1 in
  let r13 := get R 0 2 in
  let r21 := get R 1 0 in
  let r31 := get R 2 0 in
  let r32 := get R 2 1 in
  let r33 := get R 2 2 in
  if JS.Rltb (Rabs r31) 0.99999 then
    let ry := - asin r31 in
    let cry := cos ry in
    {| rx := JS.atan2 (r32 / cry) (r33 / cry);
       ry := ry;
       rz := JS.atan2 (r21 / cry) (r11 / cry) |}
  else if JS.Rltb r31 0 then
    {| rx := 0; ry := PI / 2; rz := JS.atan2 r12 r13 |}
  else
    {| rx := 0; ry := - (PI / 2); rz := JS.atan2 (- r12) (- r13) |}.

(** The product [T03] of the first three link transforms, built by
    the loop [for (i = 0; i < 3; i++)]. *)
Fixpoint chain (T : Matrix) (rows : list DH) (angles : list R)
  : Matrix :=
  match rows, angles with
  | dh :: rows', q :: angles' =>
      chain (multiply T (buildDHMatrix (a dh) (alpha dh) (d dh)
                                       (theta dh + q)))
            rows' angles'
  | _, _ => T
  end.

(** [solveLastThreeJoints(baseSolution, targetMatrix)]; [None] when a
    row of the table is missing or [math.inv] throws.  A base solution
    has six entries, being one of [solveFirstThreeJoints]. *)
Definition solveLastThreeJoints (baseSolution : list R)
    (targetMatrix : Matrix) : option (list (list R)) :=
  match baseSolution, firstn 3 dhParams with
  | theta1 :: theta2 :: theta3 :: _, [dh1; dh2; dh3] =>
      let T03 := chain (identity 4) [dh1; dh2; dh3]
                       [theta1; theta2; theta3] in
      match inv T03 with
      | None => None
      | Some T03inv =>
          let T36 := multiply T03inv targetMatrix in
          let R36 := block3 T36 in
          let e := extractEulerAnglesFromRotation R36 in
          let theta4 := rx e in
          let theta5 := ry e in
          let theta6 := rz e in
          Some [ [theta1; theta2; theta3; theta4; theta5; theta6] ]
      end
  | _, _ => None
  end.

(** The test of [filterValidSolutions] on one solution: no joint beyond
    [3.5] in magnitude. *)
Definition withinSoftwareBound (solution : list R) : bool :=
  forallb (fun i => negb (JS.gt (JS.abs (JS.get solution i)) (Some 3.5)))
          (seq 0 6).

(** [filterValidSolutions(solutions)]. *)
Definition filterValidSolutions (solutions : list (list R))
  : list (list R) :=
  filter withinSoftwareBound solutions.

(** The loop of [inverseKinematics] over [baseSolutions], pushing the
    wrist solutions of each; [None] as soon as one throws. *)
Fixpoint collect (baseSolutions : list (list R)) (targetMatrix : Matrix)
    (solutions : list (list R)) : option (list (list R)) :=
  match baseSolutions with
  | [] => Some solutions
  | baseSolution :: rest =>
      match solveLastThreeJoints baseSolution targetMatrix with
      | None => None
      | Some wristSolutions =>
          collect rest targetMatrix (solutions ++ wristSolutions)
      end
  end.

(** The [try] block of [inverseKinematics]. *)
Definition inverseKinematicsTry (targetPose : Pose)
  : option (list (list R)) :=
  let targetMatrix := poseToMatrix targetPose in
  match calculateWristCenter targetMatrix with
  | None => None
  | Some wristCenter =>
      match solveFirstThreeJoints wristCenter with
      | None => None
      | Some baseSolutions =>
          match collect baseSolutions targetMatrix [] with
          | None => None
          | Some solutions => Some (filterValidSolutions solutions)
          end
      end
  end.

(** [inverseKinematics(targetPose)]: the [catch] returns [[]]. *)
Definition inverseKinematics (targetPose : Pose) : list (list R) :=
  match inverseKinematicsTry targetPose with
  | Some validSolutions => validSolutions
  | None => []
  end.

(** The loop of [forwardKinematics]: the product of the six link
    transforms.  [None] when a row of [this.dhParams] is missing and
    reading it throws, and when a joint is missing, with which every
    entry of the product is NaN. *)
Fixpoint links (T : Matrix) (joints : list R) (indices : list nat)
  : option Matrix :=
  match indices with
  | [] => Some T
  | i :: rest =>
      match nth_error dhParams i, JS.get joints i with
      | Some dh, Some q =>
          let Ti := buildDHMatrix (a dh) (alpha dh) (d dh) (theta dh + q) in
          links (multiply T Ti) joints rest
      | _, _ => None
      end
  end.

(** [extractEulerAngles(transformMatrix)]. *)
Definition extractEulerAngles (transformMatrix : Matrix) : Euler :=
  let R := block3 transformMatrix in
  let r11 := get R 0 0 in
  let r12 := get R 0 1 in
  let r13 := get R 0 2 in
  let r21 := get R 1 0 in
  let r31 := get R 2 0 in
  let r32 := get R 2 1 in
  let r33 := get R 2 2 in
  if JS.Rltb (Rabs r31) 0.99999 then
    let ry := - asin r31 in
    let cry := cos ry in
    {| rx := JS.atan2 (r32 / cry) (r33 / cry);
       ry := ry;
       rz := JS.atan2 (r21 / cry) (r11 / cry) |}
  else if JS.Rltb r31 0 then
    {| rx := 0; ry := PI / 2; rz := JS.atan2 r12 r13 |}
  else
    {| rx := 0; ry := - (PI / 2); rz := JS.atan2 (- r12) (- r13) |}.

(** [forwardKinematics(joints)]; [None] where [links] is. *)
Definition forwardKinematics (joints : list R) : option Pose :=
  match links (identity 4) joints (seq 0 6) with
  | None => None
  | Some T =>
      Some {| position := {| x := get T 0 3;
                             y := get T 1 3;
                             z := get T 2 3 |};
              orientation := extractEulerAngles T |}
  end.

End WithParameters.

End Kinematics.

(* ================================================================== *)
(** * RobotController *)
(* ================================================================== *)

Module RobotController.

Record JointLimit := { min : R; max : R }.

(** Joint limits in radians. *)
Definition JOINT_LIMITS : list JointLimit :=
  [ {| min := -2.97; max := 2.97 |};    (* J1 *)
    {| min := -2.27; max := 2.27 |};    (* J2 *)
    {| min := -2.97; max := 2.97 |};    (* J3 *)
    {| min := -3.05; max := 3.05 |};    (* J4 *)
    {| min := -2.27; max := 2.27 |};    (* J5 *)
    {| min := -6.28; max := 6.28 |} ].  (* J6 *)

(** DH parameters of the arm (modified DH convention), lengths in
    metres. *)
Definition DH_PARAMS : list Kinematics.DH :=
  [ Kinematics.Build_DH 0 0 0.267 0;                 (* J1 *)
    Kinematics.Build_DH 0.290 (- PI / 2) 0 0;        (* J2 *)
    Kinematics.Build_DH 0 (PI / 2) 0.342 0;          (* J3 *)
    Kinematics.Build_DH 0 (- PI / 2) 0 0;            (* J4 *)
    Kinematics.Build_DH 0 (PI / 2) 0.342 0;          (* J5 *)
    Kinematics.Build_DH 0 (- PI / 2) 0 0 ].          (* J6 *)

Record Pose := { x : R; y : R; z : R; rx : R; ry : R; rz : R }.

(** One [writeSDO(slave, index, subIndex, value, size)] on the bus. *)
Record SDO := {
  slave : nat; index : N; subIndex : N; value : N; size : N }.

(** The fields of a controller object.  [ethercatMaster] is [None] for
    [null], otherwise the master with the writes it was sent, latest
    last.  [simulationMode] is [false] while the field is unset. *)
Record Controller := {
  ethercatMaster : option (list SDO);
  isConnected : bool;
  isMoving : bool;
  simulationMode : bool;
  currentJoints : list R;
  targetJoints : list R;
  endEffectorPose : Pose }.

Definition set_targetJoints (t : list R) (c : Controller) : Controller :=
  {| ethercatMaster := ethercatMaster c; isConnected := isConnected c;
     isMoving := isMoving c; simulationMode := simulationMode c;
     currentJoints := currentJoints c; targetJoints := t;
     endEffectorPose := endEffectorPose c |}.

Definition set_isMoving (b : bool) (c : Controller) : Controller :=
  {| ethercatMaster := ethercatMaster c; isConnected := isConnected c;
     isMoving := b; simulationMode := simulationMode c;
     currentJoints := currentJoints c; targetJoints := targetJoints c;
     endEffectorPose := endEffectorPose c |}.

Definition set_ethercatMaster (m : option (list SDO)) (c : Controller)
  : Controller :=
  {| ethercatMaster := m; isConnected := isConnected c;
     isMoving := isMoving c; simulationMode := simulationMode c;
     currentJoints := currentJoints c; targetJoints := targetJoints c;
     endEffectorPose := endEffectorPose c |}.

(** The state the constructor builds. *)
Definition new : Controller :=
  {| ethercatMaster := None; isConnected := false; isMoving := false;
     simulationMode := false;
     currentJoints := [0; 0; 0; 0; 0; 0];
     targetJoints := [0; 0; 0; 0; 0; 0];
     endEffectorPose :=
       {| x := 0; y := 0; z := 0; rx := 0; ry := 0; rz := 0 |} |}.

(** What holds of the two joint arrays in every state the methods below
    can reach from [new]: six current joints, and at least six targets. *)
Definition wellFormed (c : Controller) : Prop :=
  length (currentJoints c) = 6%nat /\ (6 <= length (targetJoints c))%nat.

(** What a call leaves its caller with.  The move methods are [async]:
    an exception thrown before the first [await] rejects the returned
    promise, and nothing of the body after the [throw] runs. *)
Inductive Error :=
| ExceedsLimits (jointNumber : nat) (angle : JS.num)
    (* Error(`Joint ${n} target angle ${angle} exceeds limits`) *)
| TypeError.
    (* reading [.min] of [undefined] *)

Inductive Outcome :=
| Threw (e : Error)
| Awaiting      (* reached [await this.waitForMovementComplete()] *)
| SparseWrite.  (* an indexed write that would leave holes in the array *)

(** [checkJointLimits(jointIndex, angle)]; [None] when
    [JOINT_LIMITS[jointIndex]] is [undefined] and [limits.min] throws. *)
Definition checkJointLimits (jointIndex : nat) (angle : JS.num)
  : option bool :=
  match nth_error JOINT_LIMITS jointIndex with
  | None => None
  | Some limits =>
      Some (JS.ge angle (Some (min limits)) && JS.le angle (Some (max limits)))
  end.

(** [moveJoint(jointIndex, targetAngle, speed)] up to its [await]. *)
Definition moveJoint (jointIndex : nat) (targetAngle : R) (c : Controller)
  : Outcome * Controller :=
  match checkJointLimits jointIndex (Some targetAngle) with
  | None => (Threw TypeError, c)
  | Some false =>
      (Threw (ExceedsLimits (jointIndex + 1) (Some targetAngle)), c)
  | Some true =>
      match JS.set (targetJoints c) jointIndex targetAngle with
      | None => (SparseWrite, c)
      | Some t => (Awaiting, set_isMoving true (set_targetJoints t c))
      end
  end.

(** The limit loop of [moveJoints]: the first [i] of [indices] whose target
    fails the check ends it with the exception. *)
Fixpoint checkAll (targetJoints : list R) (indices : list nat)
  : option Error :=
  match indices with
  | [] => None
  | i :: rest =>
      match checkJointLimits i (JS.get targetJoints i) with
      | None => Some TypeError
      | Some false => Some (ExceedsLimits (i + 1) (JS.get targetJoints i))
      | Some true => checkAll targetJoints rest
      end
  end.

(** [moveJoints(targetJoints, speed)] up to its [await]. *)
Definition moveJoints (target : list R) (c : Controller)
  : Outcome * Controller :=
  match checkAll target (seq 0 6) with
  | Some e => (Threw e, c)
  | None => (Awaiting, set_isMoving true (set_targetJoints target c))
  end.

(** The rest of both move methods once the wait is over. *)
Definition moveDone (c : Controller) : Controller := set_isMoving false c.

(** The quick-stop control word sent to joint [i]:
    [writeSDO(i, 0x6040, 0x00, 0x010F, 16)]. *)
Definition quickStop (i : nat) : SDO :=
  {| slave := i; index := 0x6040%N; subIndex := 0x00%N; value := 0x010F%N;
     size := 16%N |}.

(** [emergencyStop()]. *)
Definition emergencyStop (c : Controller) : Controller :=
  let c := set_targetJoints (currentJoints c) c in
  let c := set_isMoving false c in
  match ethercatMaster c with
  | Some writes =>
      if negb (simulationMode c)
      then set_ethercatMaster (Some (writes ++ map quickStop (seq 0 6))) c
      else c
  | None => c
  end.

(** [getCurrentJoints()] and [getEndEffectorPose()] return copies. *)
Definition getCurrentJoints (c : Controller) : list R := currentJoints c.
Definition getEndEffectorPose (c : Controller) : Pose := endEffectorPose c.

(** *** Encoder counts *)

(** The array literal [[160, 160, 120, 50, 50, 50]] both conversions
    index with the joint, and the counts of the 17-bit encoder. *)
Definition gearRatios : list R := [160; 160; 120; 50; 50; 50].
Definition encoderResolution : R := 131072.

(** [jointToEncoder(jointAngle, jointIndex)]; [None] for the NaN an
    index without gear ratio yields. *)
Definition jointToEncoder (jointAngle : R) (jointIndex : nat) : option Z :=
  match nth_error gearRatios jointIndex with
  | None => None
  | Some gearRatio =>
      Some (JSMath.round
              ((jointAngle / (2 * PI)) * encoderResolution * gearRatio))
  end.

(** [encoderToJoint(encoderValue, jointIndex)] for an integer count. *)
Definition encoderToJoint (encoderValue : Z) (jointIndex : nat) : JS.num :=
  match nth_error gearRatios jointIndex with
  | None => None
  | Some gearRatio =>
      Some ((IZR encoderValue / (encoderResolution * gearRatio)) * (2 * PI))
  end.

(** *** The simulated control cycle *)

Definition set_currentJoints (j : list R) (c : Controller) : Controller :=
  {| ethercatMaster := ethercatMaster c; isConnected := isConnected c;
     isMoving := isMoving c; simulationMode := simulationMode c;
     currentJoints := j; targetJoints := targetJoints c;
     endEffectorPose := endEffectorPose c |}.

(** The body of the loop of the simulation branch for joint [i] at
    [current]: a tenth of the way to the target, unless it is within
    0.001 rad or the target is missing. *)
Definition simulateJoint (target : list R) (i : nat) (current : R) : R :=
  match JS.get target i with
  | Some t =>
      let diff := t - current in
      if JS.Rltb 0.001 (Rabs diff) then current + diff * 0.1 else current
  | None => current
  end.

(** The loop [for (i = 0; i < 6; i++)] of the simulation branch of the
    control timer.  An entry the array does not have is not written: its
    [diff] is NaN. *)
Definition simulateJoints (c : Controller) : Controller :=
  set_currentJoints
    (map (fun p =>
            if Nat.ltb (fst p) 6
            then simulateJoint (targetJoints c) (fst p) (snd p)
            else snd p)
         (combine (seq 0 (length (currentJoints c))) (currentJoints c)))
    c.

(** The loop of [waitForMovementComplete] that computes [allStopped]. *)
Definition allStopped (c : Controller) : bool :=
  forallb
    (fun i =>
       let diff := JS.abs (JS.sub (JS.get (targetJoints c) i)
                                  (JS.get (currentJoints c) i)) in
       negb (JS.gt diff (Some 0.001)))
    (seq 0 6).

(** *** Cartesian moves *)

(** The inner loop of [selectOptimalSolution]: the sum of the squared
    differences of the first six entries. *)
Definition squaredDistance (solution current : list R) : JS.num :=
  fold_left
    (fun distance i =>
       JS.add distance
              (JS.pow (JS.sub (JS.get solution i) (JS.get current i)) 2))
    (seq 0 6) (Some 0).

(** [selectOptimalSolution(solutions)].  The pair is [bestSolution], with
    [None] for [null], and [minDistance], with [None] for [Infinity]; a
    NaN distance is not below anything. *)
Definition selectOptimalSolution (solutions : list (list R))
    (c : Controller) : option (list R) :=
  fst (fold_left
         (fun best solution =>
            match squaredDistance solution (currentJoints c), snd best with
            | Some distance, None => (Some solution, Some distance)
            | Some distance, Some minDistance =>
                if JS.Rltb distance minDistance
                then (Some solution, Some distance)
                else best
            | None, _ => best
            end)
         solutions (None, None)).

(** The error [moveToCartesian] throws itself:
    [Error('No inverse kinematics solution found')]. *)
Inductive CartesianError := NoSolution.

Section WithInverse.

(** [math.inv]; [None] when it throws. *)
Variable inv : Mathjs.Matrix -> option Mathjs.Matrix.

(** [moveToCartesian(x, y, z, rx, ry, rz, speed)] up to the [await] of
    [moveJoints]: its own error, or what [moveJoints] comes to.  With
    [null] for the optimal solution [moveJoints] throws on reading
    [null[0]]. *)
Definition moveToCartesian (x y z rx ry rz : R) (c : Controller)
  : (CartesianError + Outcome) * Controller :=
  let targetPose :=
    {| Kinematics.position :=
         {| Kinematics.x := x; Kinematics.y := y; Kinematics.z := z |};
       Kinematics.orientation :=
         {| Kinematics.rx := rx; Kinematics.ry := ry;
            Kinematics.rz := rz |} |} in
  let solutions := Kinematics.inverseKinematics DH_PARAMS inv targetPose in
  match solutions with
  | [] => (inl NoSolution, c)
  | _ :: _ =>
      match selectOptimalSolution solutions c with
      | None => (inr (Threw TypeError), c)
      | Some optimalSolution =>
          (inr (fst (moveJoints optimalSolution c)),
           snd (moveJoints optimalSolution c))
      end
  end.

End WithInverse.

End RobotController.

(* ================================================================== *)
(** * SafetyMonitor *)
(* ================================================================== *)

Module SafetyMonitor.

Record JointLimit := { min : R; max : R; margin : R }.

(** [this.jointLimits], in radians; set by the constructor and never
    assigned again. *)
Definition jointLimits : list JointLimit :=
  [ {| min := -2.97; max := 2.97; margin := 0.05 |};    (* J1 *)
    {| min := -2.27; max := 2.27; margin := 0.05 |};    (* J2 *)
    {| min := -2.97; max := 2.97; margin := 0.05 |};    (* J3 *)
    {| min := -3.05; max := 3.05; margin := 0.05 |};    (* J4 *)
    {| min := -2.27; max := 2.27; margin := 0.05 |};    (* J5 *)
    {| min := -6.28; max := 6.28; margin := 0.05 |} ].  (* J6 *)

Record Range := { lo : R; hi : R }.

(** [this.workspaceLimits], in millimetres. *)
Definition workspaceLimits : Range * Range * Range :=
  ({| lo := -400; hi := 400 |},
   {| lo := -400; hi := 400 |},
   {| lo := 0; hi := 600 |}).

(** The strings ['min'] and ['max'] of a violation record. *)
Inductive Side := Min | Max.

Record JointViolation := {
  joint : nat; value : JS.num; limit : Side; safeValue : R }.

Record AxisViolation := {
  axis : string; axisValue : R; axisLimit : Side }.

(** What the monitor emits, with the payload of each event. *)
Inductive Event :=
| JointLimitWarning (violations : list JointViolation)
| WorkspaceLimitWarning (violations : list AxisViolation)
| Collision (timestamp : Z) (severity : string)
| ProtectiveStop (reason : string) (timestamp : Z)
| EmergencyStop (reason : string) (timestamp : Z)
| Reset.

Record SafetyStatus := {
  isActive : bool;
  emergencyStopped : bool;
  limitViolations : list JointViolation;
  collisionDetected : bool;
  lastCheckTime : Z }.

(** The monitor, the controller it refers to, and the events emitted so
    far, latest last. *)
Record System := {
  controller : RobotController.Controller;
  safetyStatus : SafetyStatus;
  events : list Event }.

Definition set_controller (c : RobotController.Controller) (s : System)
  : System :=
  {| controller := c; safetyStatus := safetyStatus s; events := events s |}.

Definition set_safetyStatus (st : SafetyStatus) (s : System) : System :=
  {| controller := controller s; safetyStatus := st; events := events s |}.

Definition emit (e : Event) (s : System) : System :=
  {| controller := controller s; safetyStatus := safetyStatus s;
     events := events s ++ [e] |}.

Definition set_emergencyStopped (b : bool) (st : SafetyStatus)
  : SafetyStatus :=
  {| isActive := isActive st; emergencyStopped := b;
     limitViolations := limitViolations st;
     collisionDetected := collisionDetected st;
     lastCheckTime := lastCheckTime st |}.

Definition set_limitViolations (v : list JointViolation)
    (st : SafetyStatus) : SafetyStatus :=
  {| isActive := isActive st; emergencyStopped := emergencyStopped st;
     limitViolations := v;
     collisionDetected := collisionDetected st;
     lastCheckTime := lastCheckTime st |}.

Definition set_collisionDetected (b : bool) (st : SafetyStatus)
  : SafetyStatus :=
  {| isActive := isActive st; emergencyStopped := emergencyStopped st;
     limitViolations := limitViolations st;
     collisionDetected := b;
     lastCheckTime := lastCheckTime st |}.

Definition set_lastCheckTime (t : Z) (st : SafetyStatus) : SafetyStatus :=
  {| isActive := isActive st; emergencyStopped := emergencyStopped st;
     limitViolations := limitViolations st;
     collisionDetected := collisionDetected st;
     lastCheckTime := t |}.

Definition set_isActive (b : bool) (st : SafetyStatus) : SafetyStatus :=
  {| isActive := b; emergencyStopped := emergencyStopped st;
     limitViolations := limitViolations st;
     collisionDetected := collisionDetected st;
     lastCheckTime := lastCheckTime st |}.

(** The state after both constructors, monitoring at time [now]. *)
Definition new (now : Z) : System :=
  {| controller := RobotController.new;
     safetyStatus :=
       {| isActive := true; emergencyStopped := false;
          limitViolations := []; collisionDetected := false;
          lastCheckTime := now |};
     events := [] |}.

(** In the methods below [now] is what [Date.now()] returns during the
    call. *)

(** [triggerProtectiveStop(reason)]. *)
Definition triggerProtectiveStop (reason : string) (now : Z) (s : System)
  : System :=
  let c := controller s in
  let s := set_controller
             (RobotController.set_targetJoints
                (RobotController.currentJoints c) c) s in
  emit (ProtectiveStop reason now) s.

(** [triggerEmergencyStop(reason)]. *)
Definition triggerEmergencyStop (reason : string) (now : Z) (s : System)
  : System :=
  let s := set_safetyStatus (set_emergencyStopped true (safetyStatus s)) s in
  let s := set_controller (RobotController.emergencyStop (controller s)) s in
  emit (EmergencyStop reason now) s.

(** [limit.min + limit.margin] and [limit.max - limit.margin] as the
    loop of [checkJointLimits] computes them: the three numbers of the
    table are doubles, and so are their sum and difference.  For joint 1
    the upper one is 2.9200000000000004, one step above 2.92. *)
Definition safeMin (limit : JointLimit) : R :=
  JS.double (JS.double (min limit) + JS.double (margin limit)).

Definition safeMax (limit : JointLimit) : R :=
  JS.double (JS.double (max limit) - JS.double (margin limit)).

(** The body of the loop of [checkJointLimits] for joint [i]: the
    violation it pushes, if any. *)
Definition jointViolation (joints : list R) (i : nat) (limit : JointLimit)
  : list JointViolation :=
  let joint := JS.get joints i in
  let safeMin := safeMin limit in
  let safeMax := safeMax limit in
  if JS.lt joint (Some safeMin) || JS.gt joint (Some safeMax) then
    [ {| joint := i + 1;
         value := joint;
         limit := if JS.lt joint (Some safeMin) then Min else Max;
         safeValue := if JS.lt joint (Some safeMin)
                      then safeMin else safeMax |} ]
  else [].

(** The list [violations] at the end of that loop. *)
Definition jointViolations (joints : list R) : list JointViolation :=
  flat_map (fun p => jointViolation joints (fst p) (snd p))
           (combine (seq 0 6) jointLimits).

(** [checkJointLimits(joints)]. *)
Definition checkJointLimits (joints : list R) (now : Z) (s : System)
  : bool * System :=
  let violations := jointViolations joints in
  match violations with
  | [] => (true, s)
  | _ :: _ =>
      let s := set_safetyStatus
                 (set_limitViolations violations (safetyStatus s)) s in
      let s := triggerProtectiveStop "Joint limit violation" now s in
      let s := emit (JointLimitWarning violations) s in
      (false, s)
  end.

(** One of the three tests of [checkWorkspaceLimits]. *)
Definition axisViolation (name : string) (v : R) (range : Range)
  : list AxisViolation :=
  if JS.Rltb v (lo range) || JS.Rltb (hi range) v then
    [ {| axis := name; axisValue := v;
         axisLimit := if JS.Rltb v (lo range) then Min else Max |} ]
  else [].

(** [checkWorkspaceLimits(pose)]. *)
Definition checkWorkspaceLimits (pose : RobotController.Pose) (now : Z)
    (s : System) : bool * System :=
  let '(wx, wy, wz) := workspaceLimits in
  let violations :=
    axisViolation "x" (RobotController.x pose) wx ++
    axisViolation "y" (RobotController.y pose) wy ++
    axisViolation "z" (RobotController.z pose) wz in
  match violations with
  | [] => (true, s)
  | _ :: _ =>
      let s := triggerProtectiveStop "Workspace limit violation" now s in
      let s := emit (WorkspaceLimitWarning violations) s in
      (false, s)
  end.

(** [checkCollision()]; [random] is what [Math.random()] returns, a
    number in [[0, 1)]. *)
Definition checkCollision (random : R) (now : Z) (s : System)
  : bool * System :=
  let collisionProbability := random * 0.001 in
  if JS.Rltb 0.0005 collisionProbability then
    let s := set_safetyStatus
               (set_collisionDetected true (safetyStatus s)) s in
    let s := triggerEmergencyStop "Collision detected" now s in
    let s := emit (Collision now "high") s in
    (true, s)
  else (false, s).

(** [performSafetyCheck()].  None of the calls in its [try] block throws
    in this model, so its [catch] is not reached. *)
Definition performSafetyCheck (random : R) (now : Z) (s : System)
  : System :=
  if negb (isActive (safetyStatus s)) then s
  else
    let currentJoints := RobotController.getCurrentJoints (controller s) in
    let endEffectorPose :=
      RobotController.getEndEffectorPose (controller s) in
    let s := snd (checkJointLimits currentJoints now s) in
    let s := snd (checkWorkspaceLimits endEffectorPose now s) in
    let s := snd (checkCollision random now s) in
    set_safetyStatus (set_lastCheckTime now (safetyStatus s)) s.

(** [reset()]. *)
Definition reset (s : System) : System :=
  let st := safetyStatus s in
  let st := set_emergencyStopped false st in
  let st := set_limitViolations [] st in
  let st := set_collisionDetected false st in
  emit Reset (set_safetyStatus st s).

(** [setActive(active)]. *)
Definition setActive (active : bool) (s : System) : System :=
  set_safetyStatus (set_isActive active (safetyStatus s)) s.

(** [isNearSingularity(joints)]. *)
Definition isNearSingularity (joints : list R) : bool :=
  if JS.lt (JS.abs (JS.sub (JS.abs (JS.get joints 4)) (Some (PI / 2))))
           (Some 0.1)
  then true
  else
    let r := JS.sqrt (JS.add (JS.pow (JS.get joints 0) 2)
                             (JS.pow (JS.get joints 1) 2)) in
    if JS.lt r (Some 0.1) then true else false.

(** The limit loop of [isTargetSafe]: [true] when it runs to its end
    without returning. *)
Definition withinHardLimits (targetJoints : list R) : bool :=
  forallb (fun p =>
             let i := fst p in
             let limit := snd p in
             negb (JS.lt (JS.get targetJoints i) (Some (min limit))
                   || JS.gt (JS.get targetJoints i) (Some (max limit))))
          (combine (seq 0 6) jointLimits).

(** [isTargetSafe(targetJoints)]. *)
Definition isTargetSafe (targetJoints : list R) : bool :=
  if withinHardLimits targetJoints
  then negb (isNearSingularity targetJoints)
  else false.

(** The distance [minDistance] of the target of joint [i] to the nearer
    of its two limits. *)
Definition minDistance (targetJoints : list R) (i : nat)
    (limit : JointLimit) : JS.num :=
  let distanceToMin :=
    JS.abs (JS.sub (JS.get targetJoints i) (Some (min limit))) in
  let distanceToMax :=
    JS.abs (JS.sub (JS.get targetJoints i) (Some (max limit))) in
  JS.min distanceToMin distanceToMax.

(** [calculateSafeSpeed(targetJoints, currentJoints, desiredSpeed)]. *)
Definition calculateSafeSpeed (targetJoints currentJoints : list R)
    (desiredSpeed : R) : JS.num :=
  let maxSpeedRatio :=
    fold_left
      (fun maxSpeedRatio p =>
         let minDistance := minDistance targetJoints (fst p) (snd p) in
         if JS.lt minDistance (Some 0.5)
         then JS.min maxSpeedRatio (JS.div minDistance (Some 0.5))
         else maxSpeedRatio)
      (combine (seq 0 6) jointLimits)
      (Some 1) in
  JS.mul (Some desiredSpeed) maxSpeedRatio.

(** [this.velocityLimits], in rad/s. *)
Definition velocityLimits : list R := [2.0; 2.0; 2.0; 4.0; 4.0; 6.0].

Record VelocityViolation := {
  velocityJoint : nat; velocity : JS.num; velocityLimit : R }.

(** The list [violations] at the end of the loop of
    [checkVelocityLimits]. *)
Definition velocityViolations (velocities : list R)
  : list VelocityViolation :=
  flat_map
    (fun p =>
       if JS.gt (JS.abs (JS.get velocities (fst p))) (Some (snd p))
       then [ {| velocityJoint := fst p + 1;
                 velocity := JS.get velocities (fst p);
                 velocityLimit := snd p |} ]
       else [])
    (combine (seq 0 6) velocityLimits).

(** [checkVelocityLimits(velocities)]. *)
Definition checkVelocityLimits (velocities : list R) (now : Z) (s : System)
  : bool * System :=
  match velocityViolations velocities with
  | [] => (true, s)
  | _ :: _ =>
      (false, triggerProtectiveStop "Velocity limit violation" now s)
  end.

End SafetyMonitor.

(* ================================================================== *)
(** * MotionPlanner *)
(* ================================================================== *)

Module MotionPlanner.

Import Mathjs.

(** [this.homePosition], the joint configuration homing moves to. *)
Definition homePosition : list R := [0; 0; PI / 2; 0; PI / 2; 0].

Section WithInverse.

(** [math.inv]; [None] when it throws. *)
Variable inv : Matrix -> option Matrix.

(** The matrix [M] of the boundary conditions at [0] and [tf]. *)
Definition boundaryMatrix (tf : R) : Matrix :=
  [ [1; 0; 0; 0; 0; 0];
    [0; 1; 0; 0; 0; 0];
    [0; 0; 2; 0; 0; 0];
    [1; tf; tf*tf; tf*tf*tf; tf*tf*tf*tf; tf*tf*tf*tf*tf];
    [0; 1; 2*tf; 3*tf*tf; 4*tf*tf*tf; 5*tf*tf*tf*tf];
    [0; 0; 2; 6*tf; 12*tf*tf; 20*tf*tf*tf] ].

(** The function [quinticPolynomial] returns, for the coefficient
    column [coeffs]. *)
Definition trajectory (q0 qf tf : R) (coeffs : Matrix) (t : R) : R :=
  if JS.Rleb t 0 then q0
  else if JS.Rleb tf t then qf
  else
    fold_left (fun qt i => qt + get coeffs i 0 * t ^ i) (seq 0 6) 0.

(** [quinticPolynomial(q0, qf, tf, v0, vf, a0, af)]; [None] when
    [math.inv] throws. *)
Definition quinticPolynomial (q0 qf tf v0 vf a0 af : R)
  : option (R -> R) :=
  let M := boundaryMatrix tf in
  let b := [ [q0]; [v0]; [a0]; [qf]; [vf]; [af] ] in
  match inv M with
  | None => None
  | Some Minv =>
      let coeffs := multiply Minv b in
      Some (trajectory q0 qf tf coeffs)
  end.

End WithInverse.

(** *** Timing *)

(** The loop of [calculateMovementTime]: the largest displacement of the
    six joints. *)
Definition maxDisplacement (startJoints endJoints : list R) : JS.num :=
  fold_left
    (fun maxDisplacement i =>
       let displacement :=
         JS.abs (JS.sub (JS.get endJoints i) (JS.get startJoints i)) in
       JSMath.max maxDisplacement displacement)
    (seq 0 6) (Some 0).

(** [calculateMovementTime(startJoints, endJoints, speedPercent)]; [None]
    when the result is NaN or infinite. *)
Definition calculateMovementTime (startJoints endJoints : list R)
    (speedPercent : R) : JS.num :=
  match maxDisplacement startJoints endJoints with
  | None => None
  | Some maxDisplacement =>
      let baseTime := maxDisplacement / 1.0 in
      let speedFactor := speedPercent / 100 in
      JSMath.max (JSMath.quotient baseTime speedFactor) (Some 2.0)
  end.

(** *** Joint trajectories *)

Record TrajectoryPoint := {
  time : R;
  position : list R;
  velocity : list R;
  acceleration : list R }.

Section Trajectories.

(** [math.inv]; [None] when it throws. *)
Variable inv : Matrix -> option Matrix.

(** The first loop of [generateJointTrajectory]: one quintic per joint,
    with zero boundary velocity and acceleration.  [None] when
    [quinticPolynomial] throws; a joint array with fewer than six entries
    is not modelled and gives [None] too. *)
Fixpoint polynomials (startJoints endJoints : list R) (duration : R)
    (indices : list nat) : option (list (R -> R)) :=
  match indices with
  | [] => Some []
  | i :: rest =>
      match JS.get startJoints i, JS.get endJoints i with
      | Some q0, Some qf =>
          match quinticPolynomial inv q0 qf duration 0 0 0 0 with
          | Some poly =>
              match polynomials startJoints endJoints duration rest with
              | Some polys => Some (poly :: polys)
              | None => None
              end
          | None => None
          end
      | _, _ => None
      end
  end.

(** The body of the second loop: the point at sample [i], with velocity
    and acceleration by central differences over 1 ms.  The polynomials
    compare their argument with [0] and with the duration, so the times
    they are given are the doubles the code computes. *)
Definition samplePoint (polys : list (R -> R)) (sampleTime : R) (i : nat)
  : TrajectoryPoint :=
  let t := JS.double (INR i * sampleTime) in
  let dt := JS.double 0.001 in
  {| time := t;
     position := map (fun poly => poly t) polys;
     velocity :=
       map (fun poly =>
              let q1 := poly (JS.double (t - dt)) in
              let q2 := poly (JS.double (t + dt)) in
              (q2 - q1) / (2 * dt))
           polys;
     acceleration :=
       map (fun poly =>
              let q1 := poly (JS.double (t - dt)) in
              let q2 := poly (JS.double (t + dt)) in
              (q2 - 2 * poly t + q1) / (dt * dt))
           polys |}.

(** The samples [0 .. numPoints] of the loop
    [for (i = 0; i <= numPoints; i++)]; none when [numPoints] is
    negative. *)
Definition samples (numPoints : Z) : list nat :=
  seq 0 (Z.to_nat (numPoints + 1)).

(** [generateJointTrajectory(startJoints, endJoints, duration,
    sampleTime)]; [None] when it throws, and for a zero [sampleTime],
    with which the loop does not end. *)
Definition generateJointTrajectory (startJoints endJoints : list R)
    (duration sampleTime : R) : option (list TrajectoryPoint) :=
  match JSMath.quotient duration sampleTime with
  | None => None
  | Some ratio =>
      let numPoints := JSMath.ceil (JS.double ratio) in
      match polynomials startJoints endJoints duration (seq 0 6) with
      | None => None
      | Some polys =>
          Some (map (samplePoint polys sampleTime) (samples numPoints))
      end
  end.


End Trajectories.

(** *** Limits of a trajectory *)

(** The inner loop of [checkTrajectoryLimits] on one point; [None] when
    [jointLimits[i]] is [undefined] and reading [.min] throws. *)
Fixpoint checkPointLimits (position : list R)
    (jointLimits : list RobotController.JointLimit) (indices : list nat)
  : option bool :=
  match indices with
  | [] => Some true
  | i :: rest =>
      match nth_error jointLimits i with
      | None => None
      | Some limit =>
          if JS.lt (JS.get position i) (Some (RobotController.min limit))
             || JS.gt (JS.get position i) (Some (RobotController.max limit))
          then Some false
          else checkPointLimits position jointLimits rest
      end
  end.

(** [checkTrajectoryLimits(trajectory, jointLimits)]. *)
Fixpoint checkTrajectoryLimits (trajectory : list TrajectoryPoint)
    (jointLimits : list RobotController.JointLimit) : option bool :=
  match trajectory with
  | [] => Some true
  | point :: rest =>
      match checkPointLimits (position point) jointLimits (seq 0 6) with
      | Some true => checkTrajectoryLimits rest jointLimits
      | Some false => Some false
      | None => None
      end
  end.

(** *** Cartesian trajectories *)

Record Quaternion := { qw : R; qx : R; qy : R; qz : R }.

(** [eulerToQuaternion(euler)]. *)
Definition eulerToQuaternion (euler : Kinematics.Euler) : Quaternion :=
  let '{| Kinematics.rx := rx; Kinematics.ry := ry; Kinematics.rz := rz |}
    := euler in
  let cx := cos (rx / 2) in
  let cy := cos (ry / 2) in
  let cz := cos (rz / 2) in
  let sx := sin (rx / 2) in
  let sy := sin (ry / 2) in
  let sz := sin (rz / 2) in
  {| qw := cx * cy * cz + sx * sy * sz;
     qx := sx * cy * cz - cx * sy * sz;
     qy := cx * sy * cz + sx * cy * sz;
     qz := cx * cy * sz - sx * sy * cz |}.

(** [quaternionToEuler(quat)]. *)
Definition quaternionToEuler (quat : Quaternion) : Kinematics.Euler :=
  let '{| qw := w; qx := x; qy := y; qz := z |} := quat in
  let sinr_cosp := 2 * (w * x + y * z) in
  let cosr_cosp := 1 - 2 * (x * x + y * y) in
  let rx := JS.atan2 sinr_cosp cosr_cosp in
  let sinp := 2 * (w * y - z * x) in
  let ry := if JS.Rleb 1 (Rabs sinp)
            then JSMath.sign sinp * PI / 2
            else asin sinp in
  let siny_cosp := 2 * (w * z + x * y) in
  let cosy_cosp := 1 - 2 * (y * y + z * z) in
  let rz := JS.atan2 siny_cosp cosy_cosp in
  {| Kinematics.rx := rx; Kinematics.ry := ry; Kinematics.rz := rz |}.

(** [quaternionSlerp(q1, q2, t)]. *)
Definition quaternionSlerp (q1 q2 : Quaternion) (t : R) : Quaternion :=
  let dot := qw q1 * qw q2 + qx q1 * qx q2 + qy q1 * qy q2
             + qz q1 * qz q2 in
  let q2 := if JS.Rltb dot 0
            then {| qw := - qw q2; qx := - qx q2; qy := - qy q2;
                    qz := - qz q2 |}
            else q2 in
  let dot := if JS.Rltb dot 0 then - dot else dot in
  let DOT_THRESHOLD := 0.9995 in
  if JS.Rltb DOT_THRESHOLD dot then
    {| qw := qw q1 + t * (qw q2 - qw q1);
       qx := qx q1 + t * (qx q2 - qx q1);
       qy := qy q1 + t * (qy q2 - qy q1);
       qz := qz q1 + t * (qz q2 - qz q1) |}
  else
    let theta_0 := acos dot in
    let sin_theta_0 := sin theta_0 in
    let theta := theta_0 * t in
    let sin_theta := sin theta in
    let cos_theta := cos theta in
    let s0 := cos_theta - dot * sin_theta / sin_theta_0 in
    let s1 := sin_theta / sin_theta_0 in
    {| qw := s0 * qw q1 + s1 * qw q2;
       qx := s0 * qx q1 + s1 * qx q2;
       qy := s0 * qy q1 + s1 * qy q2;
       qz := s0 * qz q1 + s1 * qz q2 |}.

(** [slerpEuler(start, end, t)]. *)
Definition slerpEuler (start finish : Kinematics.Euler) (t : R)
  : Kinematics.Euler :=
  let qStart := eulerToQuaternion start in
  let qEnd := eulerToQuaternion finish in
  let qResult := quaternionSlerp qStart qEnd t in
  quaternionToEuler qResult.

Record CartesianPoint := {
  cartesianTime : R;
  cartesianPosition : Kinematics.Vec3;
  cartesianOrientation : Kinematics.Euler }.

(** The body of the loop of [generateCartesianTrajectory] at sample
    [i]. *)
Definition cartesianPoint (startPose endPose : Kinematics.Pose)
    (duration sampleTime : R) (i : nat) : CartesianPoint :=
  let startPos := Kinematics.position startPose in
  let endPos := Kinematics.position endPose in
  let startRot := Kinematics.orientation startPose in
  let endRot := Kinematics.orientation endPose in
  let t := JS.double (INR i * sampleTime) in
  let s := t / duration in
  {| cartesianTime := t;
     cartesianPosition :=
       {| Kinematics.x :=
            Kinematics.x startPos
            + s * (Kinematics.x endPos - Kinematics.x startPos);
          Kinematics.y :=
            Kinematics.y startPos
            + s * (Kinematics.y endPos - Kinematics.y startPos);
          Kinematics.z :=
            Kinematics.z startPos
            + s * (Kinematics.z endPos - Kinematics.z startPos) |};
     cartesianOrientation := slerpEuler startRot endRot s |}.

(** [generateCartesianTrajectory(startPose, endPose, duration,
    sampleTime)]; [None] for a zero [sampleTime], with which the loop
    does not end, and for a zero [duration], with which the samples are
    NaN. *)
Definition generateCartesianTrajectory (startPose endPose : Kinematics.Pose)
    (duration sampleTime : R) : option (list CartesianPoint) :=
  match JSMath.quotient duration sampleTime with
  | None => None
  | Some ratio =>
      let numPoints := JSMath.ceil (JS.double ratio) in
      if Req_dec_T duration 0 then None
      else Some (map (cartesianPoint startPose endPose duration sampleTime)
                     (samples numPoints))
  end.

(** *** S-curve profiles

    [generateSCurveTrajectory] is modelled by its two parts: the segment
    durations and the body of the sampling loop at a given time.  The
    total time the loop samples up to is a sum the code rounds at every
    step, so the list of samples itself is not modelled. *)

(** The seven segment durations of [generateSCurveTrajectory]. *)
Record Segments := {
  t1 : R; t2 : R; t3 : R; t4 : R; t5 : R; t6 : R; t7 : R }.

Definition totalTime (seg : Segments) : R :=
  t1 seg + t2 seg + t3 seg + t4 seg + t5 seg + t6 seg + t7 seg.

(** The durations for a distance.  [None] when a divisor is zero or the
    radicand is negative: JavaScript goes on with an infinity or NaN,
    which the model does not follow. *)
Definition segments (distance maxVel maxAcc maxJerk : R)
  : option Segments :=
  match JSMath.quotient maxAcc maxJerk, JSMath.quotient maxVel maxAcc with
  | Some ta, Some tv =>
      let distanceToMaxVel := maxAcc * ta ^ 2 + maxVel * tv in
      if JS.Rleb distanceToMaxVel distance then
        match JSMath.quotient (distance - distanceToMaxVel) maxVel with
        | Some t4 =>
            Some {| t1 := ta; t2 := tv; t3 := ta; t4 := t4;
                    t5 := ta; t6 := tv; t7 := ta |}
        | None => None
        end
      else
        match JS.sqrt (Some (maxAcc * distance)) with
        | Some vm =>
            Some {| t1 := ta; t2 := vm / maxAcc - ta; t3 := ta; t4 := 0;
                    t5 := ta; t6 := vm / maxAcc - ta; t7 := ta |}
        | None => None
        end
  | _, _ => None
  end.

Record ProfilePoint := {
  profileTime : R;
  profilePosition : R;
  profileVelocity : R;
  profileAcceleration : R }.

(** The body of the sampling loop of [generateSCurveTrajectory] at the
    time [t]. *)
Definition profilePoint (startPos endPos direction maxVel maxAcc maxJerk : R)
    (seg : Segments) (t : R) : ProfilePoint :=
  let '{| t1 := t1; t2 := t2; t3 := t3; t4 := t4; t5 := t5; t6 := t6;
          t7 := t7 |} := seg in
  let totalTime := t1 + t2 + t3 + t4 + t5 + t6 + t7 in
  if JS.Rleb t t1 then
    {| profileTime := t;
       profilePosition := startPos + direction * (maxJerk * t ^ 3 / 6);
       profileVelocity := direction * (maxJerk * t ^ 2 / 2);
       profileAcceleration := direction * (maxJerk * t) |}
  else if JS.Rleb t (t1 + t2) then
    let t_rel := t - t1 in
    {| profileTime := t;
       profilePosition :=
         startPos
         + direction * (maxJerk * t1 ^ 3 / 6 + maxAcc * t1 * t_rel
                        + maxAcc * t_rel ^ 2 / 2);
       profileVelocity := direction * (maxAcc * t1 + maxAcc * t_rel);
       profileAcceleration := direction * maxAcc |}
  else if JS.Rleb t (t1 + t2 + t3) then
    let t_rel := t - t1 - t2 in
    {| profileTime := t;
       profilePosition :=
         startPos
         + direction * (maxJerk * t1 ^ 3 / 6 + maxAcc * t1 * t2
                        + maxAcc * t2 ^ 2 / 2
                        + maxAcc * t1 * t_rel + maxAcc * t2 * t_rel
                        - maxJerk * t_rel ^ 3 / 6);
       profileVelocity :=
         direction * (maxAcc * t1 + maxAcc * t2 + maxAcc * t_rel
                      - maxJerk * t_rel ^ 2 / 2);
       profileAcceleration := direction * (maxAcc - maxJerk * t_rel) |}
  else if JS.Rleb t (t1 + t2 + t3 + t4) then
    let t_rel := t - t1 - t2 - t3 in
    let pos_end_acc :=
      startPos
      + direction * (maxJerk * t1 ^ 3 / 6 + maxAcc * t1 * t2
                     + maxAcc * t2 ^ 2 / 2
                     + maxAcc * t1 * t3 + maxAcc * t2 * t3
                     - maxJerk * t3 ^ 3 / 6) in
    {| profileTime := t;
       profilePosition := pos_end_acc + direction * maxVel * t_rel;
       profileVelocity := direction * maxVel;
       profileAcceleration := 0 |}
  else
    let t_dec := totalTime - t in
    if JS.Rleb t_dec t7 then
      {| profileTime := t;
         profilePosition := endPos - direction * (maxJerk * t_dec ^ 3 / 6);
         profileVelocity := direction * (maxJerk * t_dec ^ 2 / 2);
         profileAcceleration := - direction * (maxJerk * t_dec) |}
    else if JS.Rleb t_dec (t7 + t6) then
      let t_rel := t_dec - t7 in
      {| profileTime := t;
         profilePosition :=
           endPos
           - direction * (maxJerk * t7 ^ 3 / 6 + maxAcc * t7 * t_rel
                          + maxAcc * t_rel ^ 2 / 2);
         profileVelocity := direction * (maxAcc * t7 + maxAcc * t_rel);
         profileAcceleration := - direction * maxAcc |}
    else
      let t_rel := t_dec - t7 - t6 in
      {| profileTime := t;
         profilePosition :=
           endPos
           - direction * (maxJerk * t7 ^ 3 / 6 + maxAcc * t7 * t6
                          + maxAcc * t6 ^ 2 / 2
                          + maxAcc * t7 * t_rel + maxAcc * t6 * t_rel
                          - maxJerk * t_rel ^ 3 / 6);
         profileVelocity :=
           direction * (maxAcc * t7 + maxAcc * t6 + maxAcc * t_rel
                        - maxJerk * t_rel ^ 2 / 2);
         profileAcceleration := - direction * (maxAcc - maxJerk * t_rel) |}.

End MotionPlanner.

(* ================================================================== *)
(** * HandwritingEngine *)
(* ================================================================== *)

(** The writing engine turns a text into pen positions.  The text is one
    of ASCII characters.  The font table [this.fontData] is a parameter:
    a character without an entry reads as [undefined]. *)
Module HandwritingEngine.

(** One trajectory point [{x, y, z, penUp, speed}]. *)
Record Point := { x : R; y : R; z : R; penUp : bool; speed : R }.

(** The writing parameters; [generateTrajectory] receives
    [defaultParams] overlaid with the caller's. *)
Record Config := {
  fontSize : R;
  penUpHeight : R;
  writeDepth : R;
  charSpacing : R;
  lineSpacing : R;
  writeSpeed : R;
  moveSpeed : R }.

Definition defaultParams : Config :=
  {| fontSize := 20; penUpHeight := 10; writeDepth := 0; charSpacing := 25;
     lineSpacing := 30; writeSpeed := 20; moveSpeed := 50 |}.

(** An entry of the font table: the points of a stroke are pairs. *)
Record CharData := { width : R; strokes : list (list (R * R)) }.

(** [String.prototype.toUpperCase] on one ASCII character. *)
Definition toUpperCase (c : Ascii.ascii) : Ascii.ascii :=
  let n := Ascii.nat_of_ascii c in
  if Nat.leb 97 n && Nat.leb n 122 then Ascii.ascii_of_nat (n - 32) else c.

(** The line feed ['\n']. *)
Definition newline : Ascii.ascii := Ascii.ascii_of_nat 10.

Section WithFont.

(** [this.fontData]. *)
Variable fontData : Ascii.ascii -> option CharData.

(** [generateCharTrajectory(char, offsetX, offsetY, config)]. *)
Definition generateCharTrajectory (char : Ascii.ascii) (offsetX offsetY : R)
    (config : Config) : list Point :=
  match fontData char with
  | None => []
  | Some charData =>
      let scale := fontSize config / 20 in
      flat_map
        (fun stroke =>
           map (fun point =>
                  {| x := offsetX + fst point * scale;
                     y := offsetY + (20 - snd point) * scale;
                     z := writeDepth config;
                     penUp := false;
                     speed := writeSpeed config |})
               stroke)
        (strokes charData)
  end.

(** The pen-up point above [point]. *)
Definition lifted (point : Point) (config : Config) : Point :=
  {| x := x point; y := y point; z := penUpHeight config; penUp := true;
     speed := moveSpeed config |}.

(** The loop of [generateTrajectory] over the characters, from the state
    [trajectory], [currentX], [currentY], [isPenUp].  [None] when
    [trajectory[trajectory.length - 1]] is [undefined] and reading its
    [x] throws. *)
Fixpoint write (chars : list Ascii.ascii) (config : Config)
    (trajectory : list Point) (currentX currentY : R) (isPenUp : bool)
  : option (list Point) :=
  match chars with
  | [] => Some trajectory
  | char :: rest =>
      if Ascii.eqb char newline then
        write rest config trajectory 0 (currentY - lineSpacing config)
              isPenUp
      else
        match fontData char with
        | None =>
            write rest config trajectory (currentX + charSpacing config)
                  currentY isPenUp
        | Some charData =>
            let charTrajectory :=
              generateCharTrajectory char currentX currentY config in
            let moved :=
              if negb isPenUp && Nat.ltb 0 (length charTrajectory) then
                match nth_error trajectory (length trajectory - 1),
                      nth_error charTrajectory 0 with
                | Some lastPoint, Some firstPoint =>
                    Some (trajectory
                          ++ [lifted lastPoint config;
                              lifted firstPoint config])
                | _, _ => None
                end
              else Some trajectory in
            match moved with
            | None => None
            | Some trajectory =>
                write rest config (trajectory ++ charTrajectory)
                      (currentX + width charData * (fontSize config / 20)
                       + charSpacing config)
                      currentY false
            end
        end
  end.

(** [generateTrajectory(text, params)], [config] being the parameters
    after the defaults are filled in; [None] when it throws. *)
Definition generateTrajectory (text : string) (config : Config)
  : option (list Point) :=
  match write (map toUpperCase (list_ascii_of_string text)) config [] 0 0
              true with
  | None => None
  | Some trajectory =>
      match nth_error trajectory (length trajectory - 1) with
      | Some lastPoint => Some (trajectory ++ [lifted lastPoint config])
      | None => Some trajectory
      end
  end.

End WithFont.

(** The [transform] argument of [applyAffineTransform]; a field that is
    [undefined] is [None] and takes its default. *)
Record Transform := {
  scale : option (R * R);
  rotation : option R;
  translation : option (R * R) }.

(** [applyAffineTransform(trajectory, transform)]. *)
Definition applyAffineTransform (trajectory : list Point)
    (transform : Transform) : list Point :=
  let scale := match scale transform with
               | Some s => s | None => (1, 1) end in
  let rotation := match rotation transform with
                  | Some r => r | None => 0 end in
  let translation := match translation transform with
                     | Some t => t | None => (0, 0) end in
  let cosR := cos rotation in
  let sinR := sin rotation in
  map (fun point =>
         let x0 := x point * fst scale in
         let y0 := y point * snd scale in
         let rotatedX := x0 * cosR - y0 * sinR in
         let rotatedY := x0 * sinR + y0 * cosR in
         {| x := rotatedX + fst translation;
            y := rotatedY + snd translation;
            z := z point; penUp := penUp point; speed := speed point |})
      trajectory.

(** [optimizeTrajectory(trajectory)]: a pen-up point is dropped when the
    next point is pen-up too and within 0.1 of it in both coordinates. *)
Fixpoint optimizeTrajectory (trajectory : list Point) : list Point :=
  match trajectory with
  | [] => []
  | current :: rest =>
      match rest with
      | [] => [current]
      | next :: _ =>
          if penUp current && penUp next
             && JS.Rltb (Rabs (x current - x next)) 0.1
             && JS.Rltb (Rabs (y current - y next)) 0.1
          then optimizeTrajectory rest
          else current :: optimizeTrajectory rest
      end
  end.

(** The loop of [estimateExecutionTime] from [prevPoint] and
    [totalTime].  A point with speed zero makes the time infinite or
    NaN: [None]. *)
Fixpoint estimateFrom (prevPoint : option Point) (trajectory : list Point)
    (totalTime : JS.num) : JS.num :=
  match trajectory with
  | [] => totalTime
  | point :: rest =>
      let totalTime :=
        match prevPoint with
        | Some prevPoint =>
            let distance :=
              sqrt ((x point - x prevPoint) ^ 2
                    + (y point - y prevPoint) ^ 2
                    + (z point - z prevPoint) ^ 2) in
            JS.add totalTime (JSMath.quotient distance (speed point))
        | None => totalTime
        end in
      estimateFrom (Some point) rest totalTime
  end.

(** [estimateExecutionTime(trajectory)]. *)
Definition estimateExecutionTime (trajectory : list Point) : JS.num :=
  estimateFrom None trajectory (Some 0).

End HandwritingEngine.

(* ================================================================== *)
(** * Reference definitions *)
(* ================================================================== *)

(** What the specification compares the code with.  Nothing here is read
    off the code. *)
Module Reference.

(** An angle given in degrees, in radians. *)
Definition degrees (x : R) : R := x * PI / 180.

(** The sum of the link lengths and link offsets of a DH table. *)
Definition linkLengthSum (dhParams : list Kinematics.DH) : R :=
  fold_right Rplus 0
    (map (fun dh => Kinematics.a dh + Kinematics.d dh) dhParams).

(** The distance of a position from the origin of the base frame. *)
Definition distanceFromBase (p : Kinematics.Vec3) : R :=
  sqrt (Kinematics.x p * Kinematics.x p + Kinematics.y p * Kinematics.y p
        + Kinematics.z p * Kinematics.z p).

(** The distance [d_i] from a target joint value to the nearer of the
    two hard limits of its joint. *)
Definition nearestLimitDistance (q : R) (limit : SafetyMonitor.JointLimit)
  : R :=
  Rmin (Rabs (q - SafetyMonitor.min limit))
       (Rabs (q - SafetyMonitor.max limit)).

(** [min(1, d_i / 0.5)]. *)
Definition speedRatio (q : R) (limit : SafetyMonitor.JointLimit) : R :=
  Rmin 1 (nearestLimitDistance q limit / 0.5).

(** The minimum of a list of numbers that is not empty. *)
Definition minimum (l : list R) : R :=
  match l with
  | [] => 1
  | v :: rest => fold_left Rmin rest v
  end.

(** The desired speed times the minimum over the joints of
    [min(1, d_i / 0.5)]. *)
Definition safeSpeed (targetJoints : list R) (desiredSpeed : R) : R :=
  desiredSpeed
  * minimum (map (fun p => speedRatio (fst p) (snd p))
                 (combine targetJoints SafetyMonitor.jointLimits)).

(** The inverse of [MotionPlanner.boundaryMatrix tf] for [tf <> 0]: the
    closed form of the quintic coefficients. *)
Definition boundaryInverse (tf : R) : Mathjs.Matrix :=
  [ [1; 0; 0; 0; 0; 0];
    [0; 1; 0; 0; 0; 0];
    [0; 0; 1 / 2; 0; 0; 0];
    [- 10 / tf ^ 3; - 6 / tf ^ 2; - 3 / (2 * tf);
      10 / tf ^ 3; - 4 / tf ^ 2; 1 / (2 * tf)];
    [15 / tf ^ 4; 8 / tf ^ 3; 3 / (2 * tf ^ 2);
      - 15 / tf ^ 4; 7 / tf ^ 3; - 1 / tf ^ 2];
    [- 6 / tf ^ 5; - 3 / tf ^ 4; - 1 / (2 * tf ^ 3);
      6 / tf ^ 5; - 3 / tf ^ 4; 1 / (2 * tf ^ 3)] ].

End Reference.

(* ================================================================== *)
(** * Loop invariants *)
(* ================================================================== *)

Module Invariants.

(** What the loop of [selectOptimalSolution] has established after the
    solutions in [seen]. *)
Definition nearestSoFar (current : list R) (seen : list (list R))
    (best : option (list R) * option R) : Prop :=
  (seen = [] /\ best = (None, None))
  \/ exists solution dist,
       best = (Some solution, Some dist)
       /\ In solution seen
       /\ RobotController.squaredDistance solution current = Some dist
       /\ forall other d,
            In other seen -> RobotController.squaredDistance other current = Some d ->
            dist <= d.

(** What no check of the monitor undoes or starts, between a state [s]
    and a later state [s']: the current joints, the pose and the
    connection stay, the monitor stays switched on or off, a raised flag
    stays raised, no motion starts, the target is kept or frozen to the
    current joints, and events are only added. *)
Definition steady (s s' : SafetyMonitor.System) : Prop :=
  let c := SafetyMonitor.controller s in
  let c' := SafetyMonitor.controller s' in
  let st := SafetyMonitor.safetyStatus s in
  let st' := SafetyMonitor.safetyStatus s' in
  RobotController.currentJoints c' = RobotController.currentJoints c
  /\ RobotController.endEffectorPose c' = RobotController.endEffectorPose c
  /\ RobotController.isConnected c' = RobotController.isConnected c
  /\ RobotController.simulationMode c' = RobotController.simulationMode c
  /\ SafetyMonitor.isActive st' = SafetyMonitor.isActive st
  /\ (SafetyMonitor.emergencyStopped st = true ->
      SafetyMonitor.emergencyStopped st' = true)
  /\ (SafetyMonitor.collisionDetected st = true ->
      SafetyMonitor.collisionDetected st' = true)
  /\ (RobotController.isMoving c' = true -> RobotController.isMoving c = true)
  /\ (RobotController.targetJoints c' = RobotController.targetJoints c
      \/ RobotController.targetJoints c' = RobotController.currentJoints c)
  /\ exists added,
       SafetyMonitor.events s' = SafetyMonitor.events s ++ added.


(** [S] is [S0] turned by [delta] about the base axis: its first two
    rows are those of [S0] rotated, its last two are those of [S0]. *)
Definition turned (delta : R) (S S0 : Mathjs.Matrix) : Prop :=
  exists m11 m12 m13 m14 m21 m22 m23 m24 m31 m32 m33 m34 m41 m42 m43 m44,
    S0 = [ [m11; m12; m13; m14];
           [m21; m22; m23; m24];
           [m31; m32; m33; m34];
           [m41; m42; m43; m44] ]
    /\ S = [ [cos delta * m11 - sin delta * m21;
              cos delta * m12 - sin delta * m22;
              cos delta * m13 - sin delta * m23;
              cos delta * m14 - sin delta * m24];
             [sin delta * m11 + cos delta * m21;
              sin delta * m12 + cos delta * m22;
              sin delta * m13 + cos delta * m23;
              sin delta * m14 + cos delta * m24];
             [m31; m32; m33; m34];
             [m41; m42; m43; m44] ].

(** A point as [generateTrajectory] makes them: pen down at the writing
    depth and speed, or pen up at the travel height and speed. *)
Definition styled (config : HandwritingEngine.Config)
    (p : HandwritingEngine.Point) : Prop :=
  (HandwritingEngine.penUp p = false
   /\ HandwritingEngine.z p = HandwritingEngine.writeDepth config
   /\ HandwritingEngine.speed p = HandwritingEngine.writeSpeed config)
  \/ (HandwritingEngine.penUp p = true
      /\ HandwritingEngine.z p = HandwritingEngine.penUpHeight config
      /\ HandwritingEngine.speed p = HandwritingEngine.moveSpeed config).

End Invariants.

(* ================================================================== *)
(** * Properties *)
(* ================================================================== *)

(** ** Comparisons and constants *)

Module JSFacts.

Import JS.

Lemma Rltb_true (x y : R) : Rltb x y = true <-> x < y.
Proof. unfold Rltb; destruct (Rlt_dec x y); split; (congruence || tauto). Qed.

Lemma Rltb_false (x y : R) : Rltb x y = false <-> y <= x.
Proof.
  unfold Rltb; destruct (Rlt_dec x y); split; intros; try congruence; lra.
Qed.

Lemma Rleb_true (x y : R) : Rleb x y = true <-> x <= y.
Proof. unfold Rleb; destruct (Rle_dec x y); split; (congruence || tauto). Qed.

Lemma Rleb_false (x y : R) : Rleb x y = false <-> y < x.
Proof.
  unfold Rleb; destruct (Rle_dec x y); split; intros; try congruence; lra.
Qed.

(** Bounds on [PI] good to three decimals, from Machin's series. *)
Lemma PI_bounds : 3.1415 < PI < 3.1421.
Proof.
  generalize (PI_2_3_7_ineq 1).
  unfold sum_f_R0, tg_alt, PI_2_3_7_tg, Ratan_seq; simpl; lra.
Qed.

End JSFacts.

(** Turns the boolean comparisons of the hypotheses into inequalities. *)
Ltac js_hyps :=
  repeat match goal with
    | H : JS.Rltb _ _ = true |- _ => apply JSFacts.Rltb_true in H
    | H : JS.Rltb _ _ = false |- _ => apply JSFacts.Rltb_false in H
    | H : JS.Rleb _ _ = true |- _ => apply JSFacts.Rleb_true in H
    | H : JS.Rleb _ _ = false |- _ => apply JSFacts.Rleb_false in H
    end.

(** Decides, by linear arithmetic, the comparisons left in the goal. *)
Ltac js_eval :=
  repeat match goal with
    | |- context [JS.Rltb ?x ?y] =>
        first
          [ rewrite (proj2 (JSFacts.Rltb_true x y)) by lra
          | rewrite (proj2 (JSFacts.Rltb_false x y)) by lra ]
    | |- context [JS.Rleb ?x ?y] =>
        first
          [ rewrite (proj2 (JSFacts.Rleb_true x y)) by lra
          | rewrite (proj2 (JSFacts.Rleb_false x y)) by lra ]
    end.

(** Decides, by linear arithmetic, the absolute values and minima of the
    goal whose arguments are known. *)
Ltac r_eval :=
  repeat match goal with
    | |- context [Rabs ?e] =>
        first [ rewrite (Rabs_pos_eq e) by lra
              | rewrite (Rabs_left e) by lra ]
    | |- context [Rmin ?u ?v] =>
        first [ rewrite (Rmin_left u v) by lra
              | rewrite (Rmin_right u v) by lra ]
    end.

(** ** Doubles *)

Lemma ln_2_pos : 0 < ln 2.
Proof. pose proof ln_lt_2. lra. Qed.

Lemma ln_powerRZ (e : Z) : ln (powerRZ 2 e) = IZR e * ln 2.
Proof.
  rewrite powerRZ_Rpower by lra. unfold Rpower. apply ln_exp.
Qed.

Lemma exponent_value (x : R) (e : Z) :
  (-1022 <= e)%Z ->
  powerRZ 2 e <= Rabs x < powerRZ 2 (e + 1) ->
  JS.exponent x = e.
Proof.
  intros He [Hlo Hhi]. unfold JS.exponent.
  pose proof ln_2_pos as H2.
  pose proof (powerRZ_lt 2 e ltac:(lra)) as Hpos.
  assert (Hx : 0 < Rabs x) by lra.
  assert (Hl : IZR e * ln 2 <= ln (Rabs x)).
  { rewrite <- ln_powerRZ. destruct Hlo as [Hlt|Heq].
    - left. now apply ln_increasing.
    - right. now rewrite Heq. }
  assert (Hh : ln (Rabs x) < IZR (e + 1) * ln 2).
  { rewrite <- ln_powerRZ. now apply ln_increasing. }
  rewrite plus_IZR in Hh.
  assert (Hq : IZR e <= ln (Rabs x) / ln 2 < IZR e + 1).
  { split.
    - apply Rmult_le_reg_r with (ln 2); [exact H2|].
      unfold Rdiv. rewrite Rmult_assoc, Rinv_l by lra. lra.
    - apply Rmult_lt_reg_r with (ln 2); [exact H2|].
      unfold Rdiv. rewrite Rmult_assoc, Rinv_l by lra. lra. }
  rewrite <- (Int_part_spec _ e) by lra. lia.
Qed.

Lemma nearestEven_value (r : R) (m : Z) :
  Rabs (r - IZR m) < 1 / 2 -> JS.nearestEven r = m.
Proof.
  intros H. apply Rabs_def2 in H. destruct H as [Hhi Hlo].
  unfold JS.nearestEven. cbv zeta.
  destruct (base_Int_part r) as [Hf1 Hf2].
  set (f := Int_part r) in *.
  destruct (JS.Rltb (r - IZR f) (1 / 2)) eqn:H1.
  - apply JSFacts.Rltb_true in H1.
    assert (IZR f - 1 < IZR m < IZR f + 1) by lra.
    assert (IZR (f - 1) < IZR m < IZR (f + 1))
      by (rewrite minus_IZR, plus_IZR; lra).
    destruct H0 as [Ha Hb]. apply lt_IZR in Ha, Hb. lia.
  - apply JSFacts.Rltb_false in H1.
    assert (Hgt : 1 / 2 < r - IZR f).
    { destruct H1 as [H1|H1]; [exact H1|]. exfalso.
      assert (IZR f - 1 < IZR m < IZR f + 1) by lra.
      assert (IZR (f - 1) < IZR m < IZR (f + 1))
        by (rewrite minus_IZR, plus_IZR; lra).
      destruct H0 as [Ha Hb]. apply lt_IZR in Ha, Hb.
      assert (m = f) by lia. subst m. lra. }
    rewrite (proj2 (JSFacts.Rltb_true _ _) Hgt).
    assert (IZR f < IZR m < IZR f + 2) by lra.
    assert (IZR f < IZR m < IZR (f + 2)) by (rewrite plus_IZR; lra).
    destruct H0 as [Ha Hb]. apply lt_IZR in Ha, Hb. lia.
Qed.

Lemma nearestEven_error (r : R) :
  Rabs (IZR (JS.nearestEven r) - r) <= 1 / 2.
Proof.
  unfold JS.nearestEven. cbv zeta.
  destruct (base_Int_part r) as [Hf1 Hf2].
  set (f := Int_part r) in *.
  destruct (JS.Rltb (r - IZR f) (1 / 2)) eqn:H1.
  - apply JSFacts.Rltb_true in H1. apply Rabs_le. lra.
  - apply JSFacts.Rltb_false in H1.
    destruct (JS.Rltb (1 / 2) (r - IZR f)) eqn:H2.
    + apply JSFacts.Rltb_true in H2. rewrite plus_IZR. apply Rabs_le. lra.
    + apply JSFacts.Rltb_false in H2.
      destruct (Z.even f); [|rewrite plus_IZR]; apply Rabs_le; lra.
Qed.

Lemma nearestEven_nonneg (r : R) : 0 <= r -> (0 <= JS.nearestEven r)%Z.
Proof.
  intros Hr. unfold JS.nearestEven. cbv zeta.
  destruct (base_Int_part r) as [Hf1 Hf2].
  assert (Hf : (0 <= Int_part r)%Z).
  { assert (IZR (-1) < IZR (Int_part r)) by lra.
    apply lt_IZR in H. lia. }
  destruct (JS.Rltb _ _); [exact Hf|].
  destruct (JS.Rltb _ _); [lia|].
  destruct (Z.even _); lia.
Qed.

Lemma ulp_pos (x : R) : 0 < JS.ulp x.
Proof. unfold JS.ulp. apply powerRZ_lt. lra. Qed.

Lemma double_0 : JS.double 0 = 0.
Proof.
  unfold JS.double. replace (0 / JS.ulp 0) with 0 by (unfold Rdiv; ring).
  rewrite (nearestEven_value 0 0); [ring|].
  replace (0 - 0) with 0 by ring. rewrite Rabs_R0. lra.
Qed.

Lemma double_nonneg (x : R) : 0 <= x -> 0 <= JS.double x.
Proof.
  intros Hx. unfold JS.double. pose proof (ulp_pos x) as Hu.
  apply Rmult_le_pos; [|lra].
  apply IZR_le. apply nearestEven_nonneg.
  unfold Rdiv. apply Rmult_le_pos; [exact Hx|].
  left. now apply Rinv_0_lt_compat.
Qed.

Lemma double_value (x : R) (e m : Z) :
  (-1022 <= e)%Z ->
  powerRZ 2 e <= Rabs x < powerRZ 2 (e + 1) ->
  Rabs (x / powerRZ 2 (e - 52) - IZR m) < 1 / 2 ->
  JS.double x = IZR m * powerRZ 2 (e - 52).
Proof.
  intros He Hx Hm. unfold JS.double, JS.ulp.
  rewrite (exponent_value x e He Hx).
  now rewrite (nearestEven_value _ m Hm).
Qed.

Lemma double_ulp (x : R) : Rabs (JS.double x - x) <= JS.ulp x / 2.
Proof.
  unfold JS.double. pose proof (ulp_pos x) as Hu.
  pose proof (nearestEven_error (x / JS.ulp x)) as He.
  replace (IZR (JS.nearestEven (x / JS.ulp x)) * JS.ulp x - x)
    with ((IZR (JS.nearestEven (x / JS.ulp x)) - x / JS.ulp x) * JS.ulp x)
    by (field; lra).
  rewrite Rabs_mult, (Rabs_pos_eq (JS.ulp x)) by lra.
  apply Rle_trans with (1 / 2 * JS.ulp x); [|lra].
  apply Rmult_le_compat_r; lra.
Qed.

Lemma double_error (x : R) :
  powerRZ 2 (-1022) <= Rabs x ->
  Rabs (JS.double x - x) <= Rabs x * powerRZ 2 (-53).
Proof.
  intros Hx. apply Rle_trans with (JS.ulp x / 2); [apply double_ulp|].
  unfold JS.ulp, JS.exponent.
  pose proof ln_2_pos as H2.
  assert (Hpos : 0 < Rabs x).
  { pose proof (powerRZ_lt 2 (-1022) ltac:(lra)). lra. }
  set (l := Int_part (ln (Rabs x) / ln 2)).
  assert (Hl : (-1022 <= l)%Z).
  { assert (Hq : IZR (-1022) <= ln (Rabs x) / ln 2).
    { apply Rmult_le_reg_r with (ln 2); [exact H2|].
      unfold Rdiv. rewrite Rmult_assoc, Rinv_l by lra.
      rewrite Rmult_1_r, <- ln_powerRZ.
      destruct Hx as [Hlt|Heq].
      - left. apply ln_increasing; [apply powerRZ_lt; lra | exact Hlt].
      - right. now rewrite Heq. }
    destruct (base_Int_part (ln (Rabs x) / ln 2)) as [_ Hb]. fold l in Hb.
    assert (IZR (-1022 - 1) < IZR l) by (rewrite minus_IZR; lra).
    apply lt_IZR in H. lia. }
  rewrite Z.max_l by lia.
  assert (Hle : powerRZ 2 l <= Rabs x).
  { destruct (base_Int_part (ln (Rabs x) / ln 2)) as [Ha _]. fold l in Ha.
    assert (Hln : ln (powerRZ 2 l) <= ln (Rabs x)).
    { rewrite ln_powerRZ.
      apply Rmult_le_compat_r with (r := ln 2) in Ha; [|lra].
      unfold Rdiv in Ha. rewrite Rmult_assoc, Rinv_l in Ha by lra. lra. }
    destruct Hln as [Hlt|Heq].
    - left. apply ln_lt_inv; [apply powerRZ_lt; lra | exact Hpos | exact Hlt].
    - right. apply ln_inv; [apply powerRZ_lt; lra | exact Hpos | exact Heq]. }
  replace (l - 52)%Z with (l + -53 + 1)%Z by lia.
  rewrite !powerRZ_add by lra.
  pose proof (powerRZ_lt 2 (-53) ltac:(lra)) as H53.
  replace (powerRZ 2 1) with 2 by (simpl; ring).
  replace (powerRZ 2 l * powerRZ 2 (-53) * 2 / 2)
    with (powerRZ 2 l * powerRZ 2 (-53)) by field.
  apply Rmult_le_compat_r; lra.
Qed.


Lemma powerRZ_nonneg_IZR (k : Z) : (0 <= k)%Z -> powerRZ 2 k = IZR (2 ^ k).
Proof.
  intros Hk. destruct k as [|p|p]; [reflexivity| |lia].
  unfold powerRZ. rewrite pow_IZR. f_equal.
  now rewrite positive_nat_Z.
Qed.

Lemma powerRZ_neg_IZR (k : Z) :
  (0 <= k)%Z -> powerRZ 2 (- k) = / IZR (2 ^ k).
Proof.
  intros Hk. rewrite <- powerRZ_nonneg_IZR by exact Hk.
  destruct k as [|p|p]; [simpl; lra | reflexivity | lia].
Qed.

Lemma pow2_pos (k : Z) : (0 <= k)%Z -> 0 < IZR (2 ^ k).
Proof.
  intros Hk. rewrite <- powerRZ_nonneg_IZR by exact Hk.
  apply powerRZ_lt. lra.
Qed.

(** The JS.double nearest to [x], from its 53-bit mantissa [m] at the
    scale [2^-k]. *)
Lemma double_binary (x : R) (k m : Z) :
  (0 <= k <= 1074)%Z ->
  IZR (2 ^ 52) <= Rabs x * IZR (2 ^ k) < IZR (2 ^ 53) ->
  Rabs (x * IZR (2 ^ k) - IZR m) < 1 / 2 ->
  JS.double x = IZR m / IZR (2 ^ k).
Proof.
  intros Hk [Hlo Hhi] Hm.
  pose proof (pow2_pos k ltac:(lia)) as Hpos.
  assert (Hscale : powerRZ 2 (52 - k - 52) = / IZR (2 ^ k)).
  { replace (52 - k - 52)%Z with (- k)%Z by lia.
    apply powerRZ_neg_IZR. lia. }
  rewrite (double_value x (52 - k) m).
  - rewrite Hscale. reflexivity.
  - lia.
  - replace (52 - k)%Z with (52 + - k)%Z by lia.
    replace (52 + - k + 1)%Z with (53 + - k)%Z by lia.
    rewrite !powerRZ_add by lra.
    rewrite (powerRZ_neg_IZR k) by lia.
    rewrite (powerRZ_nonneg_IZR 52), (powerRZ_nonneg_IZR 53) by lia.
    split.
    + apply Rmult_le_reg_r with (IZR (2 ^ k)); [exact Hpos|].
      rewrite Rmult_assoc, Rinv_l by lra. lra.
    + apply Rmult_lt_reg_r with (IZR (2 ^ k)); [exact Hpos|].
      rewrite Rmult_assoc, Rinv_l by lra. lra.
  - rewrite Hscale. unfold Rdiv. rewrite Rinv_inv. exact Hm.
Qed.

Ltac double_eval k m :=
  apply (double_binary _ k m);
  [ lia
  | let p52 := eval vm_compute in (2 ^ 52)%Z in
    let p53 := eval vm_compute in (2 ^ 53)%Z in
    let pk := eval vm_compute in (2 ^ k)%Z in
    change (2 ^ 52)%Z with p52; change (2 ^ 53)%Z with p53;
    change (2 ^ k)%Z with pk;
    first [rewrite Rabs_pos_eq by lra | rewrite Rabs_left by lra]; lra
  | let pk := eval vm_compute in (2 ^ k)%Z in
    change (2 ^ k)%Z with pk; apply Rabs_def1; lra ].

(** Writes the powers of two of the goal as numbers. *)
Ltac pow2_literals :=
  repeat match goal with
    | |- context [(2 ^ ?k)%Z] =>
        let v := eval vm_compute in (2 ^ k)%Z in
        progress change (2 ^ k)%Z with v
    end.

Lemma powerRZ_neg_le_1 (k : Z) : (0 <= k)%Z -> powerRZ 2 (- k) <= 1.
Proof.
  intros Hk. rewrite powerRZ_neg_IZR by exact Hk.
  pose proof (pow2_pos k Hk) as Hpos.
  assert (H1 : 1 <= IZR (2 ^ k)).
  { apply IZR_le. pose proof (Z.pow_pos_nonneg 2 k). lia. }
  rewrite <- Rinv_1. apply Rinv_le_contravar; lra.
Qed.

(** In the range of the joint angles and times of the arm a double is
    within 1.2e-15 of the number it stands for. *)
Lemma double_close (x : R) :
  0.001 <= Rabs x <= 10 -> Rabs (JS.double x - x) <= 1.2e-15.
Proof.
  intros [Hlo Hhi].
  apply Rle_trans with (Rabs x * powerRZ 2 (-53)).
  - apply double_error.
    apply Rle_trans with (powerRZ 2 (-10)); [|simpl; lra].
    assert (H1 : powerRZ 2 (-1012) <= 1)
      by (apply (powerRZ_neg_le_1 1012); lia).
    pose proof (powerRZ_lt 2 (-10) ltac:(lra)) as H2.
    replace (-1022)%Z with (-10 + -1012)%Z by lia.
    rewrite powerRZ_add by lra.
    apply Rle_trans with (powerRZ 2 (-10) * 1); [|lra].
    apply Rmult_le_compat_l; [lra | exact H1].
  - replace (powerRZ 2 (-53)) with (/ IZR (2 ^ 53))
      by (symmetry; apply (powerRZ_neg_IZR 53); lia).
    let p := eval vm_compute in (2 ^ 53)%Z in change (2 ^ 53)%Z with p.
    lra.
Qed.

(** ** The controller *)

Section ControllerProperties.

Import RobotController.

Lemma emergencyStop_currentJoints (c : Controller) :
  currentJoints (emergencyStop c) = currentJoints c.
Proof.
  unfold emergencyStop; simpl.
  destruct (ethercatMaster c), (simulationMode c); reflexivity.
Qed.

Lemma emergencyStop_targetJoints (c : Controller) :
  targetJoints (emergencyStop c) = currentJoints c.
Proof.
  unfold emergencyStop; simpl.
  destruct (ethercatMaster c), (simulationMode c); reflexivity.
Qed.

Lemma emergencyStop_isMoving (c : Controller) :
  isMoving (emergencyStop c) = false.
Proof.
  unfold emergencyStop; simpl.
  destruct (ethercatMaster c), (simulationMode c); reflexivity.
Qed.

(** C1.  Whatever the state of the controller and of the safety monitor
    that refers to it, when [emergencyStop()] returns the target joints
    equal the current joints, as arrays and joint by joint, the current
    joints are the ones from before the call, and [isMoving] is
    [false]. *)
Theorem emergencyStop_target_is_current (s : SafetyMonitor.System) :
  let c := SafetyMonitor.controller s in
  let c' := emergencyStop c in
  targetJoints c' = currentJoints c'
  /\ (forall i, JS.get (targetJoints c') i = JS.get (currentJoints c') i)
  /\ currentJoints c' = currentJoints c
  /\ isMoving c' = false.
Proof.
  intros c c'; subst c'.
  rewrite emergencyStop_targetJoints, emergencyStop_currentJoints,
    emergencyStop_isMoving.
  repeat split; reflexivity.
Qed.

Lemma checkAll_rejects (target : list R) (i : nat) (indices : list nat) :
  In i indices ->
  (forall k, In k indices -> (k < 6)%nat) ->
  checkJointLimits i (JS.get target i) = Some false ->
  exists k,
    In k indices
    /\ checkJointLimits k (JS.get target k) = Some false
    /\ checkAll target indices
       = Some (ExceedsLimits (k + 1) (JS.get target k)).
Proof.
  intros Hin Hlt Hbad.
  induction indices as [|j rest IH]; [contradiction|].
  simpl.
  destruct (checkJointLimits j (JS.get target j)) as [[|]|] eqn:Hj.
  - destruct Hin as [->|Hin]; [congruence|].
    destruct IH as (k & Hk & Hck & Hall); auto.
    { intros; apply Hlt; now right. }
    exists k; repeat split; auto; now right.
  - exists j; repeat split; auto; now left.
  - exfalso.
    assert (Hj6 : (j < 6)%nat) by (apply Hlt; now left).
    unfold checkJointLimits in Hj.
    destruct (nth_error JOINT_LIMITS j) eqn:Hn; [discriminate|].
    apply nth_error_None in Hn; simpl in Hn; lia.
Qed.

Lemma checkJointLimits_outside (i : nat) (limits : JointLimit) (q : R) :
  nth_error JOINT_LIMITS i = Some limits ->
  q < min limits \/ max limits < q ->
  checkJointLimits i (Some q) = Some false.
Proof.
  intros Hn Hout; unfold checkJointLimits; rewrite Hn; f_equal.
  unfold JS.ge, JS.le, JS.cmp.
  destruct Hout as [H|H].
  - rewrite (proj2 (JSFacts.Rleb_false (min limits) q) H); reflexivity.
  - rewrite (proj2 (JSFacts.Rleb_false q (max limits)) H).
    apply andb_false_r.
Qed.

(** *** The shape of the joint arrays *)

Lemma set_in_range (l : list R) (i : nat) (v : R) :
  (i < length l)%nat ->
  exists r, JS.set l i v = Some r /\ length r = length l.
Proof.
  revert i; induction l as [|w l IH]; intros i Hi; simpl in Hi; [lia|].
  destruct i as [|i]; simpl.
  - eexists; split; reflexivity.
  - destruct (IH i) as (r & -> & Hr); [lia|].
    eexists; split; [reflexivity|]. simpl; now rewrite Hr.
Qed.

Lemma checkJointLimits_index (i : nat) (q : JS.num) (b : bool) :
  checkJointLimits i q = Some b -> (i < 6)%nat.
Proof.
  unfold checkJointLimits.
  destruct (nth_error JOINT_LIMITS i) eqn:Hn; [|discriminate].
  intros _. assert (H : nth_error JOINT_LIMITS i <> None) by congruence.
  apply nth_error_Some in H; exact H.
Qed.

Lemma checkJointLimits_defined (i : nat) (q : JS.num) :
  checkJointLimits i q = Some true -> q <> None.
Proof.
  unfold checkJointLimits.
  destruct (nth_error JOINT_LIMITS i); [|discriminate].
  destruct q; [discriminate|]. discriminate.
Qed.

Lemma checkAll_passes (target : list R) (indices : list nat) (i : nat) :
  checkAll target indices = None ->
  In i indices ->
  checkJointLimits i (JS.get target i) = Some true.
Proof.
  induction indices as [|j rest IH]; intros Hall Hin; [contradiction|].
  simpl in Hall.
  destruct (checkJointLimits j (JS.get target j)) as [[|]|] eqn:Hj;
    try discriminate.
  destruct Hin as [->|Hin]; [exact Hj | now apply IH].
Qed.

(** The constructor and the methods of the controller keep the joint
    arrays well formed, and on a well-formed controller the indexed write
    of [moveJoint] stays inside the array. *)
Lemma wellFormed_preserved (c : Controller) :
  wellFormed new
  /\ (wellFormed c ->
      wellFormed (emergencyStop c)
      /\ (forall target, wellFormed (snd (moveJoints target c)))
      /\ (forall i q,
             wellFormed (snd (moveJoint i q c))
             /\ fst (moveJoint i q c) <> SparseWrite)).
Proof.
  split; [split; simpl; lia|].
  intros [Hcur Htgt]. split; [|split].
  - unfold wellFormed.
    rewrite emergencyStop_targetJoints, emergencyStop_currentJoints. lia.
  - intros target. unfold moveJoints.
    destruct (checkAll target (seq 0 6)) eqn:Hall; [now split|].
    split; [exact Hcur|]. cbn [snd set_isMoving set_targetJoints targetJoints].
    assert (H5 : checkJointLimits 5 (JS.get target 5) = Some true).
    { apply (checkAll_passes target (seq 0 6)); [exact Hall|].
      apply in_seq; lia. }
    apply checkJointLimits_defined in H5.
    apply nth_error_Some in H5. lia.
  - intros i q. unfold moveJoint.
    destruct (checkJointLimits i (Some q)) as [[|]|] eqn:Hc;
      try (split; [now split | discriminate]).
    apply checkJointLimits_index in Hc.
    destruct (set_in_range (targetJoints c) i q) as (r & -> & Hr); [lia|].
    split; [|discriminate].
    split; [exact Hcur|].
    cbn [snd set_isMoving set_targetJoints targetJoints]. lia.
Qed.

(** C3.  A move command with a target outside the hard limits throws
    and leaves the controller as it was.  For [moveJoint]: the angle is
    below [min] or above [max] of its joint.  For [moveJoints]: one of
    the first six targets is below [min] or above [max] of its joint;
    the exception names a joint whose target fails the check.  The state
    after the call is the state before it, so [targetJoints],
    [currentJoints] and [isMoving] are unchanged. *)
Theorem move_outside_limits_rejected (c : Controller) :
  (forall jointIndex limits targetAngle,
      nth_error JOINT_LIMITS jointIndex = Some limits ->
      targetAngle < min limits \/ max limits < targetAngle ->
      moveJoint jointIndex targetAngle c
      = (Threw (ExceedsLimits (jointIndex + 1) (Some targetAngle)), c))
  /\ (forall target i limits q,
         nth_error JOINT_LIMITS i = Some limits ->
         JS.get target i = Some q ->
         q < min limits \/ max limits < q ->
         exists k,
           (k < 6)%nat
           /\ checkJointLimits k (JS.get target k) = Some false
           /\ moveJoints target c
              = (Threw (ExceedsLimits (k + 1) (JS.get target k)), c)).
Proof.
  split.
  - intros jointIndex limits targetAngle Hn Hout.
    unfold moveJoint.
    now rewrite (checkJointLimits_outside _ _ _ Hn Hout).
  - intros target i limits q Hn Hq Hout.
    assert (Hi : (i < 6)%nat).
    { assert (H : nth_error JOINT_LIMITS i <> None) by congruence.
      apply nth_error_Some in H; exact H. }
    destruct (checkAll_rejects target i (seq 0 6)) as (k & Hk & Hck & Hall).
    + apply in_seq; lia.
    + intros k Hk; apply in_seq in Hk; lia.
    + rewrite Hq; eapply checkJointLimits_outside; eauto.
    + exists k; repeat split; auto.
      * apply in_seq in Hk; lia.
      * unfold moveJoints; now rewrite Hall.
Qed.

(** C3 at joint 1 with target 3 rad (limit 2.97) from the initial state,
    alone and as the first of six targets. *)
Lemma move_outside_limits_rejected_witness :
  moveJoint 0 3 new = (Threw (ExceedsLimits 1 (Some 3)), new)
  /\ exists k,
       (k < 6)%nat
       /\ checkJointLimits k (JS.get [3; 0; 0; 0; 0; 0] k) = Some false
       /\ moveJoints [3; 0; 0; 0; 0; 0] new
          = (Threw (ExceedsLimits (k + 1) (JS.get [3; 0; 0; 0; 0; 0] k)),
             new).
Proof.
  split.
  - apply (proj1 (move_outside_limits_rejected new) 0%nat
             {| min := -2.97; max := 2.97 |} 3).
    + reflexivity.
    + right; simpl; lra.
  - apply (proj2 (move_outside_limits_rejected new) [3; 0; 0; 0; 0; 0]
             0%nat {| min := -2.97; max := 2.97 |} 3).
    + reflexivity.
    + reflexivity.
    + right; simpl; lra.
Defined.

End ControllerProperties.

(** ** The safety monitor *)

Section MonitorProperties.

Import SafetyMonitor.

Lemma in_combine_seq {A : Type} (l : list A) (start i : nat) (v : A) :
  nth_error l i = Some v ->
  In ((start + i)%nat, v) (combine (seq start (length l)) l).
Proof.
  revert start i; induction l as [|w l IH]; intros start i H.
  - destruct i; discriminate.
  - destruct i as [|i]; simpl in *.
    + left; injection H as ->; f_equal; lia.
    + right. replace (start + S i)%nat with (S start + i)%nat by lia.
      now apply IH.
Qed.

Lemma Rabs_bound (x a : R) : Rabs x <= a -> - a <= x <= a.
Proof. unfold Rabs. destruct (Rcase_abs x); lra. Qed.

(** The soft limits the code computes are the exact sum and difference up
    to the rounding of three doubles. *)
Lemma soft_band_range (limit : JointLimit) :
  -7 <= min limit <= -1 -> 1 <= max limit <= 7 ->
  0.01 <= margin limit <= 0.1 ->
  Rabs (safeMin limit - (min limit + margin limit)) <= 4e-15
  /\ Rabs (safeMax limit - (max limit - margin limit)) <= 4e-15.
Proof.
  intros Hmin Hmax Hmargin. unfold safeMin, safeMax.
  assert (Ha : Rabs (JS.double (min limit) - min limit) <= 1.2e-15)
    by (apply double_close; rewrite Rabs_left; lra).
  assert (Hb : Rabs (JS.double (max limit) - max limit) <= 1.2e-15)
    by (apply double_close; rewrite Rabs_pos_eq; lra).
  assert (Hc : Rabs (JS.double (margin limit) - margin limit) <= 1.2e-15)
    by (apply double_close; rewrite Rabs_pos_eq; lra).
  apply Rabs_bound in Ha, Hb, Hc.
  set (a := JS.double (min limit)) in *.
  set (b := JS.double (max limit)) in *.
  set (c := JS.double (margin limit)) in *.
  assert (Hlo : Rabs (JS.double (a + c) - (a + c)) <= 1.2e-15)
    by (apply double_close; rewrite Rabs_left; lra).
  assert (Hhi : Rabs (JS.double (b - c) - (b - c)) <= 1.2e-15)
    by (apply double_close; rewrite Rabs_pos_eq; lra).
  apply Rabs_bound in Hlo, Hhi.
  split; apply Rabs_le; lra.
Qed.

Lemma soft_band_close (i : nat) (limit : JointLimit) :
  nth_error jointLimits i = Some limit ->
  Rabs (safeMin limit - (min limit + margin limit)) <= 4e-15
  /\ Rabs (safeMax limit - (max limit - margin limit)) <= 4e-15.
Proof.
  intros Hlimit. unfold jointLimits in Hlimit.
  do 6 (destruct i as [|i];
        [injection Hlimit as <-; apply soft_band_range; cbn [min max margin];
         lra|]).
  destruct i; discriminate.
Qed.

(** The soft limits leave the joints within 2 rad of zero alone. *)
Lemma soft_band_inside (i : nat) (limit : JointLimit) (q : R) :
  nth_error jointLimits i = Some limit ->
  -2 <= q <= 2 ->
  safeMin limit <= q <= safeMax limit.
Proof.
  intros Hlimit Hq.
  destruct (soft_band_close i limit Hlimit) as [Hlo Hhi].
  apply Rabs_bound in Hlo, Hhi.
  unfold jointLimits in Hlimit.
  do 6 (destruct i as [|i];
        [injection Hlimit as <-; cbn [min max margin] in *; lra|]).
  destruct i; discriminate.
Qed.

Lemma jointViolation_inside (joints : list R) (i : nat)
    (limit : JointLimit) (q : R) :
  nth_error jointLimits i = Some limit ->
  JS.get joints i = Some q ->
  -2 <= q <= 2 ->
  jointViolation joints i limit = [].
Proof.
  intros Hl Hget Hq. unfold jointViolation. rewrite Hget.
  destruct (soft_band_inside i limit q Hl Hq) as [Hlo Hhi].
  cbn [JS.lt JS.gt JS.cmp].
  rewrite (proj2 (JSFacts.Rltb_false _ _) Hlo),
    (proj2 (JSFacts.Rltb_false _ _) Hhi). reflexivity.
Qed.

Lemma jointViolations_inside (q1 q2 q3 q4 q5 q6 : R) :
  Forall (fun q => -2 <= q <= 2) [q1; q2; q3; q4; q5; q6] ->
  jointViolations [q1; q2; q3; q4; q5; q6] = [].
Proof.
  intros H.
  repeat match goal with
    | H : Forall _ (_ :: _) |- _ =>
        apply Forall_cons_iff in H; destruct H as [? H]
    end.
  unfold jointViolations, jointLimits.
  cbn [combine seq flat_map fst snd].
  rewrite (jointViolation_inside _ 0 _ q1),
    (jointViolation_inside _ 1 _ q2), (jointViolation_inside _ 2 _ q3),
    (jointViolation_inside _ 3 _ q4), (jointViolation_inside _ 4 _ q5),
    (jointViolation_inside _ 5 _ q6); auto.
Qed.

(** The upper soft limit of joint 1, the double [2.97 - 0.05], is
    2.9200000000000004: one step above 2.92. *)
Lemma safeMax_joint_1 :
  safeMax {| min := -2.97; max := 2.97; margin := 0.05 |}
  = IZR 6575255455960925 / IZR (2 ^ 51)
  /\ 2.92 < IZR 6575255455960925 / IZR (2 ^ 51) < 2.92 + 4e-16.
Proof.
  assert (H297 : JS.double 2.97 = IZR 6687845446645187 / IZR (2 ^ 51))
    by double_eval 51%Z 6687845446645187%Z.
  assert (H005 : JS.double 0.05 = IZR 7205759403792794 / IZR (2 ^ 57))
    by double_eval 57%Z 7205759403792794%Z.
  split.
  - unfold safeMax. cbn [max margin]. rewrite H297, H005.
    let p51 := eval vm_compute in (2 ^ 51)%Z in
    let p57 := eval vm_compute in (2 ^ 57)%Z in
    change (2 ^ 51)%Z with p51; change (2 ^ 57)%Z with p57.
    double_eval 51%Z 6575255455960925%Z.
  - let p51 := eval vm_compute in (2 ^ 51)%Z in
    change (2 ^ 51)%Z with p51.
    lra.
Qed.

Lemma jointViolation_outside (joints : list R) (i : nat)
    (limit : JointLimit) (q : R) :
  JS.get joints i = Some q ->
  q < safeMin limit \/ safeMax limit < q ->
  jointViolation joints i limit
  = [ {| joint := i + 1;
         value := Some q;
         limit := if JS.Rltb q (safeMin limit)
                  then Min else Max;
         safeValue := if JS.Rltb q (safeMin limit)
                      then safeMin limit
                      else safeMax limit |} ].
Proof.
  intros Hq Hout; unfold jointViolation; rewrite Hq.
  unfold JS.lt, JS.gt, JS.cmp.
  destruct Hout as [H|H].
  - now rewrite (proj2 (JSFacts.Rltb_true _ _) H).
  - now rewrite (proj2 (JSFacts.Rltb_true _ _) H), orb_true_r.
Qed.

Lemma joint_1_beyond (q : R) :
  2.93 <= q ->
  q < safeMin {| min := -2.97; max := 2.97; margin := 0.05 |}
  \/ safeMax {| min := -2.97; max := 2.97; margin := 0.05 |} < q.
Proof.
  intros Hq. right. destruct safeMax_joint_1 as [-> [_ Hlt]]. lra.
Qed.

(** C2.  When a component of the joint vector lies outside the soft band
    of its joint, [checkJointLimits] returns [false], stores the
    violations it found in [limitViolations], the record of that joint
    among them, and makes a protective stop: the controller's target
    becomes its current joints, and the events emitted are the stop with
    its reason followed by the warning.  It is a hold and not a power
    cut: the current joints, the bus, [isMoving] and the emergency flag
    are as before.
    The bounds of the band are [limit.min + limit.margin] and
    [limit.max - limit.margin] as the code computes them, in doubles:
    they are within 4e-15 of the exact sum and difference. *)
Theorem checkJointLimits_soft_violation (joints : list R) (now : Z)
    (s : System) (i : nat) (limit : JointLimit) (q : R) :
  nth_error jointLimits i = Some limit ->
  JS.get joints i = Some q ->
  q < safeMin limit \/ safeMax limit < q ->
  let s' := snd (checkJointLimits joints now s) in
  let c := controller s in
  let c' := controller s' in
  fst (checkJointLimits joints now s) = false
  /\ limitViolations (safetyStatus s') = jointViolations joints
  /\ In {| joint := i + 1;
           value := Some q;
           limit := if JS.Rltb q (safeMin limit)
                    then Min else Max;
           safeValue := if JS.Rltb q (safeMin limit)
                        then safeMin limit
                        else safeMax limit |}
        (limitViolations (safetyStatus s'))
  /\ RobotController.targetJoints c' = RobotController.currentJoints c
  /\ RobotController.currentJoints c' = RobotController.currentJoints c
  /\ events s'
     = events s ++ [ ProtectiveStop "Joint limit violation" now;
                     JointLimitWarning (jointViolations joints) ]
  /\ RobotController.ethercatMaster c' = RobotController.ethercatMaster c
  /\ RobotController.isMoving c' = RobotController.isMoving c
  /\ emergencyStopped (safetyStatus s') = emergencyStopped (safetyStatus s)
  /\ Rabs (safeMin limit - (min limit + margin limit)) <= 4e-15
  /\ Rabs (safeMax limit - (max limit - margin limit)) <= 4e-15.
Proof.
  intros Hlimit Hq Hout.
  assert (Hin : In {| joint := i + 1;
                      value := Some q;
                      limit := if JS.Rltb q (safeMin limit)
                               then Min else Max;
                      safeValue := if JS.Rltb q (safeMin limit)
                                   then safeMin limit
                                   else safeMax limit |}
                   (jointViolations joints)).
  { unfold jointViolations. apply in_flat_map.
    exists (i, limit); split.
    - exact (in_combine_seq jointLimits 0 i limit Hlimit).
    - simpl. rewrite (jointViolation_outside _ _ _ _ Hq Hout). now left. }
  destruct (soft_band_close i limit Hlimit) as [Hlo Hhi].
  unfold checkJointLimits.
  destruct (jointViolations joints) as [|v vs] eqn:Hv; [contradiction|].
  simpl. rewrite <- app_assoc. simpl.
  repeat split; auto.
Qed.

(** C2 on a controller that is on its way to the target
    [[0.5, 0, 0, 0, 0, 0]] from the zero position, with joint 1 read at
    2.95 rad: inside the hard limit 2.97, outside the soft limit.  The
    check fails and the target is back at the current joints. *)
Lemma checkJointLimits_soft_violation_witness :
  let moving :=
    set_controller
      (RobotController.set_isMoving true
         (RobotController.set_targetJoints [0.5; 0; 0; 0; 0; 0]
            RobotController.new))
      (new 0) in
  RobotController.targetJoints (controller moving) = [0.5; 0; 0; 0; 0; 0]
  /\ fst (checkJointLimits [2.95; 0; 0; 0; 0; 0] 0 moving) = false
  /\ RobotController.targetJoints
       (controller (snd (checkJointLimits [2.95; 0; 0; 0; 0; 0] 0 moving)))
     = [0; 0; 0; 0; 0; 0].
Proof.
  intros moving.
  pose proof (checkJointLimits_soft_violation [2.95; 0; 0; 0; 0; 0] 0
                moving 0%nat
                {| min := -2.97; max := 2.97; margin := 0.05 |} 2.95
                eq_refl eq_refl) as H.
  assert (Hout : 2.95 < safeMin {| min := -2.97; max := 2.97;
                                   margin := 0.05 |}
                 \/ safeMax {| min := -2.97; max := 2.97; margin := 0.05 |}
                    < 2.95)
    by (apply joint_1_beyond; lra).
  specialize (H Hout).
  split; [reflexivity|].
  split; [exact (proj1 H) | exact (proj1 (proj2 (proj2 (proj2 H))))].
Defined.

(** At the soft limit itself, the double 2.9200000000000004, joint 1 is
    not in violation although it is above 2.92: the comparison is with
    the double the code computes. *)
Example checkJointLimits_at_soft_limit (now : Z) (s : System) :
  let q := IZR 6575255455960925 / IZR (2 ^ 51) in
  2.92 < q /\ checkJointLimits [q; 0; 0; 0; 0; 0] now s = (true, s).
Proof.
  intros q. split; [apply safeMax_joint_1|].
  assert (Hnone : jointViolations [q; 0; 0; 0; 0; 0] = []).
  { unfold jointViolations, jointLimits.
    cbn [combine seq flat_map fst snd].
    rewrite (jointViolation_inside _ 1 _ 0), (jointViolation_inside _ 2 _ 0),
      (jointViolation_inside _ 3 _ 0), (jointViolation_inside _ 4 _ 0),
      (jointViolation_inside _ 5 _ 0) by (reflexivity || lra).
    cbn [app].
    unfold jointViolation. cbn [JS.get nth_error JS.lt JS.gt JS.cmp].
    destruct safeMax_joint_1 as [Hmax [Hq _]]. rewrite Hmax. fold q.
    fold q in Hq.
    destruct (soft_band_inside 0 {| min := -2.97; max := 2.97;
                                    margin := 0.05 |} 0 eq_refl
                ltac:(lra)) as [Hlo _].
    rewrite (proj2 (JSFacts.Rltb_false q _)) by lra.
    rewrite (proj2 (JSFacts.Rltb_false q q)) by lra.
    reflexivity. }
  unfold checkJointLimits. now rewrite Hnone.
Qed.


Lemma wrist_band_singular (joints : list R) (j5 : R) :
  JS.get joints 4 = Some j5 ->
  Rabs (Rabs j5 - PI / 2) < 0.1 ->
  isNearSingularity joints = true.
Proof.
  intros H5 Hband; unfold isNearSingularity; rewrite H5; simpl.
  now rewrite (proj2 (JSFacts.Rltb_true _ _) Hband).
Qed.

(** C5.  A target of six joint values, each within the hard limits of
    its joint, whose fifth value has a magnitude less than 0.1 rad away
    from [PI / 2], passes the limit loop of [isTargetSafe], is flagged by
    [isNearSingularity], and [isTargetSafe] returns [false]. *)
Theorem isTargetSafe_rejects_wrist_band (j1 j2 j3 j4 j5 j6 : R) :
  Forall2 (fun q limit => min limit <= q <= max limit)
          [j1; j2; j3; j4; j5; j6] jointLimits ->
  Rabs (Rabs j5 - PI / 2) < 0.1 ->
  withinHardLimits [j1; j2; j3; j4; j5; j6] = true
  /\ isNearSingularity [j1; j2; j3; j4; j5; j6] = true
  /\ isTargetSafe [j1; j2; j3; j4; j5; j6] = false.
Proof.
  intros Hlimits Hband.
  assert (Hsing : isNearSingularity [j1; j2; j3; j4; j5; j6] = true)
    by (now apply (wrist_band_singular _ j5)).
  assert (Hwithin : withinHardLimits [j1; j2; j3; j4; j5; j6] = true).
  { unfold jointLimits in Hlimits.
    repeat match goal with
      | H : Forall2 _ (_ :: _) (_ :: _) |- _ =>
          apply Forall2_cons_iff in H; destruct H as [? H]
      end.
    cbn [min max] in *.
    unfold withinHardLimits, jointLimits.
    cbn [combine seq forallb fst snd JS.get nth_error JS.lt JS.gt JS.cmp
         min max].
    js_eval. reflexivity. }
  unfold isTargetSafe; rewrite Hwithin, Hsing; auto.
Qed.

(** C5 at the scenario of the specification: joint 5 at 1.5708 rad, the
    other joints at 1 rad.  The shoulder test of [isNearSingularity] is
    not what rejects it: the radius is [sqrt 2]. *)
Lemma isTargetSafe_rejects_wrist_band_witness :
  isTargetSafe [1; 1; 1; 1; 1.5708; 1] = false
  /\ JS.lt (JS.sqrt (JS.add (JS.pow (Some 1) 2) (JS.pow (Some 1) 2)))
           (Some 0.1) = false.
Proof.
  split.
  - apply (isTargetSafe_rejects_wrist_band 1 1 1 1 1.5708 1).
    + unfold jointLimits.
      repeat (apply Forall2_cons; [cbn [min max]; lra|]).
      apply Forall2_nil.
    + pose proof JSFacts.PI_bounds.
      rewrite (Rabs_pos_eq 1.5708) by lra.
      apply Rabs_def1; lra.
  - cbn [JS.lt JS.sqrt JS.add JS.pow JS.lift1 JS.lift2 JS.cmp].
    replace (1 ^ 2 + 1 ^ 2) with 2 by ring.
    rewrite (proj2 (JSFacts.Rltb_false 2 0)) by lra.
    apply JSFacts.Rltb_false.
    apply Rle_trans with (sqrt 1).
    + rewrite sqrt_1; lra.
    + apply sqrt_le_1_alt; lra.
Defined.

(** C10.  The home position of the planner, [[0, 0, PI/2, 0, PI/2, 0]],
    is within the hard limits, has its fifth joint at [PI / 2] and so
    inside the wrist band that [isNearSingularity] flags, and
    [isTargetSafe] returns [false] on it.  The controller's own limit
    check accepts it as a target. *)
Theorem homePosition_not_safe :
  MotionPlanner.homePosition = [0; 0; PI / 2; 0; PI / 2; 0]
  /\ withinHardLimits MotionPlanner.homePosition = true
  /\ JS.lt (JS.abs (JS.sub (JS.abs (JS.get MotionPlanner.homePosition 4))
                           (Some (PI / 2))))
           (Some 0.1) = true
  /\ isNearSingularity MotionPlanner.homePosition = true
  /\ isTargetSafe MotionPlanner.homePosition = false
  /\ (forall c,
         fst (RobotController.moveJoints MotionPlanner.homePosition c)
         = RobotController.Awaiting).
Proof.
  pose proof JSFacts.PI_bounds as HPI.
  assert (Hband : Rabs (Rabs (PI / 2) - PI / 2) < 0.1).
  { rewrite (Rabs_pos_eq (PI / 2)) by lra.
    replace (PI / 2 - PI / 2) with 0 by ring.
    rewrite Rabs_R0; lra. }
  assert (Hsing : isNearSingularity MotionPlanner.homePosition = true)
    by (now apply (wrist_band_singular _ (PI / 2))).
  assert (Hwithin : withinHardLimits MotionPlanner.homePosition = true).
  { unfold withinHardLimits, jointLimits, MotionPlanner.homePosition.
    cbn [combine seq forallb fst snd JS.get nth_error JS.lt JS.gt JS.cmp
         min max].
    js_eval. reflexivity. }
  repeat split; auto.
  - unfold MotionPlanner.homePosition; simpl.
    now rewrite (proj2 (JSFacts.Rltb_true _ _) Hband).
  - unfold isTargetSafe; now rewrite Hwithin, Hsing.
  - intros c.
    unfold RobotController.moveJoints, MotionPlanner.homePosition.
    cbn [seq RobotController.checkAll RobotController.checkJointLimits
         RobotController.JOINT_LIMITS JS.get nth_error JS.ge JS.le JS.cmp
         RobotController.min RobotController.max].
    js_eval. reflexivity.
Qed.


(** *** The speed policy *)

Lemma ratio_step (acc dist : R) :
  acc <= 1 ->
  (if JS.Rltb dist 0.5 then Rmin acc (dist / 0.5) else acc)
  = Rmin acc (Rmin 1 (dist / 0.5)).
Proof.
  intros Hacc.
  destruct (JS.Rltb dist 0.5) eqn:Hd; js_hyps.
  - rewrite (Rmin_right 1 (dist / 0.5)) by lra. reflexivity.
  - rewrite (Rmin_left 1 (dist / 0.5)) by lra.
    rewrite Rmin_left by lra. reflexivity.
Qed.

Lemma ratio_loop_body (targetJoints : list R) (i : nat)
    (limit : JointLimit) (acc : R) :
  acc <= 1 ->
  (i < length targetJoints)%nat ->
  (let minDistance := minDistance targetJoints i limit in
   if JS.lt minDistance (Some 0.5)
   then JS.min (Some acc) (JS.div minDistance (Some 0.5))
   else Some acc)
  = Some (Rmin acc (Reference.speedRatio (nth i targetJoints 0) limit)).
Proof.
  intros Hacc Hi. cbv zeta. unfold minDistance, JS.get.
  rewrite (nth_error_nth' targetJoints 0 Hi).
  cbn [JS.sub JS.abs JS.min JS.div JS.lt JS.cmp JS.lift1 JS.lift2].
  unfold Reference.speedRatio, Reference.nearestLimitDistance.
  rewrite <- (ratio_step acc _ Hacc).
  now destruct (JS.Rltb _ 0.5).
Qed.

Lemma ratio_fold (targetJoints : list R) (pairs : list (nat * JointLimit))
    (acc : R) :
  acc <= 1 ->
  (forall p, In p pairs -> (fst p < length targetJoints)%nat) ->
  fold_left
    (fun maxSpeedRatio p =>
       let minDistance := minDistance targetJoints (fst p) (snd p) in
       if JS.lt minDistance (Some 0.5)
       then JS.min maxSpeedRatio (JS.div minDistance (Some 0.5))
       else maxSpeedRatio)
    pairs (Some acc)
  = Some (fold_left Rmin
            (map (fun p =>
                    Reference.speedRatio (nth (fst p) targetJoints 0) (snd p))
                 pairs)
            acc).
Proof.
  set (body := fun (maxSpeedRatio : JS.num) (p : nat * JointLimit) => _).
  revert acc; induction pairs as [|[i limit] pairs IH]; intros acc Hacc Hlen.
  - reflexivity.
  - cbn [fold_left map fst snd].
    assert (Hi : (i < length targetJoints)%nat)
      by (apply (Hlen (i, limit)); now left).
    replace (body (Some acc) (i, limit))
      with (Some (Rmin acc (Reference.speedRatio
                              (nth i targetJoints 0) limit)))
      by (symmetry; apply (ratio_loop_body targetJoints i limit acc Hacc Hi)).
    apply IH.
    + apply Rle_trans with acc; [apply Rmin_l | exact Hacc].
    + intros p Hp; apply Hlen; now right.
Qed.

Lemma speedRatio_bounds (q : R) (limit : JointLimit) :
  0 <= Reference.speedRatio q limit <= 1.
Proof.
  unfold Reference.speedRatio, Reference.nearestLimitDistance; split.
  - apply Rmin_glb; [lra|].
    assert (0 <= Rmin (Rabs (q - min limit)) (Rabs (q - max limit)))
      by (apply Rmin_glb; apply Rabs_pos).
    lra.
  - apply Rmin_l.
Qed.

Lemma speedRatio_at_limit (q : R) (limit : JointLimit) :
  q = min limit \/ q = max limit ->
  Reference.speedRatio q limit = 0.
Proof.
  intros H; unfold Reference.speedRatio, Reference.nearestLimitDistance.
  assert (Hd : Rmin (Rabs (q - min limit)) (Rabs (q - max limit)) = 0).
  { destruct H as [->| ->].
    - replace (min limit - min limit) with 0 by ring.
      rewrite Rabs_R0. apply Rmin_left, Rabs_pos.
    - replace (max limit - max limit) with 0 by ring.
      rewrite Rabs_R0. apply Rmin_right, Rabs_pos. }
  rewrite Hd. replace (0 / 0.5) with 0 by lra. apply Rmin_right. lra.
Qed.

Lemma fold_Rmin_zero (l : list R) (acc : R) :
  0 <= acc ->
  Forall (fun v => 0 <= v) l ->
  acc = 0 \/ In 0 l ->
  fold_left Rmin l acc = 0.
Proof.
  revert acc; induction l as [|v l IH]; intros acc Hacc Hpos Hzero.
  - destruct Hzero as [H|[]]; exact H.
  - apply Forall_cons_iff in Hpos; destruct Hpos as [Hv Hpos].
    cbn [fold_left]. apply IH; auto.
    + now apply Rmin_glb.
    + destruct Hzero as [Hz|[Hz|Hin]].
      * left; rewrite Hz; apply Rmin_left; exact Hv.
      * left; rewrite Hz; apply Rmin_right; exact Hacc.
      * now right.
Qed.

Lemma in_combine_nth {A B : Type} (l1 : list A) (l2 : list B) (i : nat)
    (u : A) (v : B) :
  nth_error l1 i = Some u -> nth_error l2 i = Some v ->
  In (u, v) (combine l1 l2).
Proof.
  revert l2 i; induction l1 as [|w l1 IH]; intros l2 i H1 H2.
  - destruct i; discriminate.
  - destruct l2 as [|w2 l2]; [destruct i; discriminate|].
    destruct i as [|i]; simpl in *.
    + left; congruence.
    + right; eapply IH; eauto.
Qed.

(** C8.  For six target joints [calculateSafeSpeed] returns the desired
    speed times the minimum over the joints of [min(1, d_i / 0.5)],
    [d_i] being the distance of the target of joint [i] to the nearer of
    its hard limits; the current joints play no part.  When a target
    sits at one of the limits of its joint the result is zero. *)
Theorem calculateSafeSpeed_formula (j1 j2 j3 j4 j5 j6 : R)
    (currentJoints : list R) (desiredSpeed : R) :
  let targetJoints := [j1; j2; j3; j4; j5; j6] in
  calculateSafeSpeed targetJoints currentJoints desiredSpeed
  = Some (Reference.safeSpeed targetJoints desiredSpeed)
  /\ (forall i limit q,
         nth_error jointLimits i = Some limit ->
         JS.get targetJoints i = Some q ->
         q = min limit \/ q = max limit ->
         calculateSafeSpeed targetJoints currentJoints desiredSpeed
         = Some 0).
Proof.
  intros targetJoints.
  assert (Hformula :
            calculateSafeSpeed targetJoints currentJoints desiredSpeed
            = Some (Reference.safeSpeed targetJoints desiredSpeed)).
  { unfold calculateSafeSpeed.
    rewrite ratio_fold; [|lra|].
    - unfold Reference.safeSpeed, JS.mul, JS.lift2, Reference.minimum.
      subst targetJoints. unfold jointLimits.
      cbn [combine seq map fst snd nth fold_left].
      rewrite (Rmin_right 1 (Reference.speedRatio j1 _))
        by apply speedRatio_bounds.
      reflexivity.
    - intros [i limit] Hin. apply in_combine_l, in_seq in Hin.
      subst targetJoints. cbn [fst length]. lia. }
  split; [exact Hformula|].
  intros i limit q Hlimit Hq Hat.
  rewrite Hformula; f_equal.
  unfold Reference.safeSpeed.
  replace (Reference.minimum _) with 0; [ring|].
  symmetry.
  assert (Hin : In (q, limit) (combine targetJoints jointLimits))
    by (eapply in_combine_nth; eauto).
  assert (Hall : Forall (fun v => 0 <= v)
                   (map (fun p => Reference.speedRatio (fst p) (snd p))
                        (combine targetJoints jointLimits))).
  { apply Forall_forall; intros v Hv. apply in_map_iff in Hv.
    destruct Hv as (p & <- & _). apply speedRatio_bounds. }
  assert (Hzero : In 0 (map (fun p => Reference.speedRatio (fst p) (snd p))
                            (combine targetJoints jointLimits))).
  { apply in_map_iff. exists (q, limit); split; auto.
    now apply speedRatio_at_limit. }
  unfold Reference.minimum.
  destruct (map _ (combine targetJoints jointLimits)) as [|v l];
    [contradiction|].
  apply Forall_cons_iff in Hall; destruct Hall as [Hv Hl].
  apply fold_Rmin_zero; [exact Hv | exact Hl |].
  destruct Hzero as [Hz|Hin0]; [now left | now right].
Qed.

(** C8 with joint 2 at its upper limit 2.27 rad: the speed is zero. *)
Lemma calculateSafeSpeed_formula_witness :
  calculateSafeSpeed [0; 2.27; 0; 0; 0; 0] [0; 0; 0; 0; 0; 0] 50 = Some 0.
Proof.
  apply (proj2 (calculateSafeSpeed_formula 0 2.27 0 0 0 0
                  [0; 0; 0; 0; 0; 0] 50)
           1%nat {| min := -2.27; max := 2.27; margin := 0.05 |} 2.27).
  - reflexivity.
  - reflexivity.
  - right; reflexivity.
Defined.


(** *** The collision check *)

Lemma checkCollision_hit (random : R) (now : Z) (s : System) :
  0.5 < random ->
  checkCollision random now s
  = (true,
     emit (Collision now "high")
       (triggerEmergencyStop "Collision detected" now
          (set_safetyStatus
             (set_collisionDetected true (safetyStatus s)) s))).
Proof.
  intros H; unfold checkCollision.
  now rewrite (proj2 (JSFacts.Rltb_true 0.0005 (random * 0.001))) by lra.
Qed.

Lemma checkCollision_miss (random : R) (now : Z) (s : System) :
  random <= 0.5 ->
  checkCollision random now s = (false, s).
Proof.
  intros H; unfold checkCollision.
  now rewrite (proj2 (JSFacts.Rltb_false 0.0005 (random * 0.001))) by lra.
Qed.

Lemma checkJointLimits_pass (joints : list R) (now : Z) (s : System) :
  fst (checkJointLimits joints now s) = true ->
  snd (checkJointLimits joints now s) = s.
Proof.
  unfold checkJointLimits.
  destruct (jointViolations joints); [reflexivity | discriminate].
Qed.

Lemma checkWorkspaceLimits_pass (pose : RobotController.Pose) (now : Z)
    (s : System) :
  fst (checkWorkspaceLimits pose now s) = true ->
  snd (checkWorkspaceLimits pose now s) = s.
Proof.
  unfold checkWorkspaceLimits, workspaceLimits.
  destruct (_ ++ _); [reflexivity | discriminate].
Qed.

(** The state on which [performSafetyCheck] calls [checkCollision]. *)
Lemma performSafetyCheck_active (random : R) (now : Z) (s : System) :
  isActive (safetyStatus s) = true ->
  exists s2,
    s2 = snd (checkWorkspaceLimits
                (RobotController.endEffectorPose (controller s)) now
                (snd (checkJointLimits
                        (RobotController.currentJoints (controller s))
                        now s)))
    /\ performSafetyCheck random now s
       = set_safetyStatus
           (set_lastCheckTime now
              (safetyStatus (snd (checkCollision random now s2))))
           (snd (checkCollision random now s2)).
Proof.
  intros Hactive; eexists; split; [reflexivity|].
  unfold performSafetyCheck; now rewrite Hactive.
Qed.

(** C6.  The result of [checkCollision] is a function of the number
    [Math.random()] returns and of nothing else: it is [true] exactly
    when that number exceeds one half, whatever the state and the time.
    So from every active state two runs of [performSafetyCheck] can end
    in different states.  And from every active state whose joints pass
    the soft-limit check and whose pose passes the workspace check there
    is a draw in [[0, 1)] on which [checkCollision] returns [true] and
    the check ends in an emergency stop: both flags set, the target
    frozen to the current joints, [isMoving] cleared, and the stop and
    collision events the only ones emitted. *)
Theorem checkCollision_random :
  (forall random now s,
      fst (checkCollision random now s) = JS.Rltb 0.5 random)
  /\ (forall random now1 now2 s1 s2,
         fst (checkCollision random now1 s1)
         = fst (checkCollision random now2 s2))
  /\ (forall now s,
         isActive (safetyStatus s) = true ->
         exists r1 r2,
           0 <= r1 < 1 /\ 0 <= r2 < 1
           /\ performSafetyCheck r1 now s <> performSafetyCheck r2 now s)
  /\ (forall now s,
         isActive (safetyStatus s) = true ->
         fst (checkJointLimits
                (RobotController.currentJoints (controller s)) now s)
         = true ->
         fst (checkWorkspaceLimits
                (RobotController.endEffectorPose (controller s)) now s)
         = true ->
         exists random,
           0 <= random < 1
           /\ fst (checkCollision random now s) = true
           /\ let s' := performSafetyCheck random now s in
              emergencyStopped (safetyStatus s') = true
              /\ collisionDetected (safetyStatus s') = true
              /\ RobotController.targetJoints (controller s')
                 = RobotController.currentJoints (controller s)
              /\ RobotController.isMoving (controller s') = false
              /\ events s'
                 = events s ++ [ EmergencyStop "Collision detected" now;
                                 Collision now "high" ]).
Proof.
  assert (Hfst : forall random now s,
             fst (checkCollision random now s) = JS.Rltb 0.5 random).
  { intros random now s.
    destruct (Rlt_dec 0.5 random) as [H|H].
    - rewrite checkCollision_hit by exact H.
      symmetry; now apply JSFacts.Rltb_true.
    - rewrite checkCollision_miss by lra.
      symmetry; apply JSFacts.Rltb_false; lra. }
  split; [exact Hfst|].
  split; [intros; now rewrite !Hfst|].
  split.
  - intros now s Hactive.
    exists 0.75, 0.25. repeat split; try lra.
    destruct (performSafetyCheck_active 0.75 now s Hactive)
      as (s2 & Hs2 & ->).
    destruct (performSafetyCheck_active 0.25 now s Hactive)
      as (s2' & Hs2' & ->).
    rewrite <- Hs2 in Hs2'; subst s2'.
    rewrite checkCollision_hit by lra.
    rewrite checkCollision_miss by lra.
    intros Heq. apply (f_equal events) in Heq.
    apply (f_equal (@length Event)) in Heq.
    cbn [snd set_safetyStatus events emit triggerEmergencyStop
         set_controller] in Heq.
    rewrite !length_app in Heq. simpl in Heq. lia.
  - intros now s Hactive Hjoints Hspace.
    exists 0.75. split; [lra|].
    split; [rewrite checkCollision_hit by lra; reflexivity|].
    destruct (performSafetyCheck_active 0.75 now s Hactive)
      as (s2 & Hs2 & ->).
    rewrite (checkJointLimits_pass _ _ _ Hjoints) in Hs2.
    rewrite (checkWorkspaceLimits_pass _ _ _ Hspace) in Hs2.
    subst s2. rewrite checkCollision_hit by lra.
    cbn [snd set_safetyStatus set_lastCheckTime emit triggerEmergencyStop
         set_controller set_emergencyStopped set_collisionDetected
         safetyStatus controller events emergencyStopped
         collisionDetected].
    rewrite emergencyStop_targetJoints, emergencyStop_isMoving.
    rewrite <- app_assoc.
    repeat split; reflexivity.
Qed.

Lemma new_passes_checks (now : Z) :
  fst (checkJointLimits
         (RobotController.currentJoints (controller (new now))) now
         (new now)) = true
  /\ fst (checkWorkspaceLimits
            (RobotController.endEffectorPose (controller (new now))) now
            (new now)) = true.
Proof.
  split.
  - unfold checkJointLimits.
    cbn [new controller RobotController.new RobotController.currentJoints].
    rewrite jointViolations_inside; [reflexivity|].
    repeat constructor; lra.
  - unfold checkWorkspaceLimits, workspaceLimits, axisViolation.
    cbn [new controller RobotController.new
         RobotController.endEffectorPose RobotController.x
         RobotController.y RobotController.z lo hi].
    js_eval. reflexivity.
Qed.

(** C6 at the state the constructors build: a draw that stops the arm,
    and two draws after which the states differ. *)
Lemma checkCollision_random_witness :
  (exists r1 r2,
      0 <= r1 < 1 /\ 0 <= r2 < 1
      /\ performSafetyCheck r1 0 (new 0) <> performSafetyCheck r2 0 (new 0))
  /\ exists random,
       0 <= random < 1
       /\ fst (checkCollision random 0 (new 0)) = true
       /\ emergencyStopped
            (safetyStatus (performSafetyCheck random 0 (new 0))) = true.
Proof.
  pose proof checkCollision_random as (_ & _ & Hdiffer & Hstop).
  split.
  - apply (Hdiffer 0%Z (new 0)). reflexivity.
  - destruct (Hstop 0%Z (new 0) eq_refl (proj1 (new_passes_checks 0))
                (proj2 (new_passes_checks 0)))
      as (random & Hrange & Hhit & Hstopped & _).
    exists random; auto.
Defined.

End MonitorProperties.

(** ** The planner *)

Section PlannerProperties.

Import Mathjs MotionPlanner.

Variable inv : Matrix -> option Matrix.

Lemma trajectory_before (q0 qf tf : R) (coeffs : Matrix) (t : R) :
  t <= 0 -> trajectory q0 qf tf coeffs t = q0.
Proof.
  intros H; unfold trajectory.
  now rewrite (proj2 (JSFacts.Rleb_true t 0) H).
Qed.

Lemma trajectory_after (q0 qf tf : R) (coeffs : Matrix) (t : R) :
  0 < tf -> tf <= t -> trajectory q0 qf tf coeffs t = qf.
Proof.
  intros Htf H; unfold trajectory.
  rewrite (proj2 (JSFacts.Rleb_false t 0)) by lra.
  now rewrite (proj2 (JSFacts.Rleb_true tf t) H).
Qed.

(** The boundary matrix has an inverse as soon as [tf] is not zero, so a
    matrix inversion that succeeds on invertible matrices succeeds on
    it. *)
Lemma boundaryMatrix_invertible (tf : R) :
  tf <> 0 ->
  multiply (boundaryMatrix tf) (Reference.boundaryInverse tf) = identity 6
  /\ multiply (Reference.boundaryInverse tf) (boundaryMatrix tf)
     = identity 6.
Proof.
  intros Htf.
  unfold multiply, columns, column, dot, boundaryMatrix,
    Reference.boundaryInverse, identity.
  cbn [map seq length nth combine fold_right fst snd Nat.eqb].
  split; repeat (f_equal; try (field; exact Htf)).
Qed.

(** C7.  For a duration [tf > 0], once the inversion of the boundary
    matrix has returned, [quinticPolynomial] returns a function that is
    [q0] at every [t <= 0] and [qf] at every [t >= tf], whatever the
    boundary velocities and accelerations and whatever the coefficients
    are. *)
Theorem quinticPolynomial_clamps (q0 qf tf v0 vf a0 af : R)
    (Minv : Matrix) :
  0 < tf ->
  inv (boundaryMatrix tf) = Some Minv ->
  exists f,
    quinticPolynomial inv q0 qf tf v0 vf a0 af = Some f
    /\ (forall t, t <= 0 -> f t = q0)
    /\ (forall t, tf <= t -> f t = qf).
Proof.
  intros Htf Hinv. unfold quinticPolynomial. rewrite Hinv.
  eexists; split; [reflexivity|]. split; intros t Ht.
  - now apply trajectory_before.
  - now apply trajectory_after.
Qed.

End PlannerProperties.

(** C7 for a move from 1 to 3 lasting 2 s, with the inverse of the
    boundary matrix for the result of [math.inv]. *)
Lemma quinticPolynomial_clamps_witness :
  exists f,
    MotionPlanner.quinticPolynomial
      (fun _ => Some (Reference.boundaryInverse 2)) 1 3 2 0 0 0 0 = Some f
    /\ (forall t, t <= 0 -> f t = 1)
    /\ (forall t, 2 <= t -> f t = 3).
Proof.
  apply (quinticPolynomial_clamps
           (fun _ => Some (Reference.boundaryInverse 2)) 1 3 2 0 0 0 0
           (Reference.boundaryInverse 2)).
  - lra.
  - reflexivity.
Defined.

(** ** The kinematics *)

Section KinematicsProperties.

Import Mathjs Kinematics.

Variable inv : Matrix -> option Matrix.

(** The last link offset of the arm is zero, so the wrist centre is the
    target position. *)
Lemma wristCenter_is_position (pose : Pose) :
  calculateWristCenter RobotController.DH_PARAMS (poseToMatrix pose)
  = Some (position pose).
Proof.
  destruct pose as [[px py pz] [ex ey ez]].
  unfold calculateWristCenter, poseToMatrix, RobotController.DH_PARAMS.
  cbn [position orientation nth_error d].
  unfold subtract, scale, set, setBlock3, identity, multiply, columns,
    column, dot, get.
  cbn [map seq length nth combine fold_right fst snd Nat.eqb Nat.ltb
       Nat.leb andb].
  f_equal; f_equal; ring.
Qed.


Lemma solveForBase_no_solution (wristCenter : Vec3) (dh1 dh2 dh3 : DH)
    (theta1 : R) :
  1 < Rabs (elbowArgument
              (sqrt (x wristCenter * x wristCenter
                     + y wristCenter * y wristCenter))
              (z wristCenter - d dh1) (a dh2) (d dh3)) ->
  solveForBase wristCenter dh1 dh2 dh3 theta1 = [].
Proof.
  intros H; destruct wristCenter as [wx wy wz]; unfold solveForBase.
  cbn [x y z] in *.
  now rewrite (proj2 (JSFacts.Rltb_true _ _) H).
Qed.

Lemma inverseKinematics_no_base (pose : Pose) :
  solveFirstThreeJoints RobotController.DH_PARAMS (position pose)
  = Some [] ->
  inverseKinematics RobotController.DH_PARAMS inv pose = [].
Proof.
  intros H; unfold inverseKinematics, inverseKinematicsTry.
  now rewrite wristCenter_is_position, H.
Qed.

Lemma linkLengthSum_DH :
  Reference.linkLengthSum RobotController.DH_PARAMS = 1.241.
Proof.
  unfold Reference.linkLengthSum, RobotController.DH_PARAMS.
  cbn [map fold_right a d]. lra.
Qed.

(** Farther from the base than the shoulder height plus the two links the
    solver uses, the elbow argument exceeds 1. *)
Lemma elbowArgument_far (px py pz : R) :
  0.267 + 0.290 + 0.342 < sqrt (px * px + py * py + pz * pz) ->
  1 < elbowArgument (sqrt (px * px + py * py)) (pz - 0.267) 0.290 0.342.
Proof.
  intros Hfar.
  assert (Hxy : 0 <= px * px + py * py) by nra.
  assert (Hxyz : 0 <= px * px + py * py + pz * pz) by nra.
  set (u := sqrt (px * px + py * py + pz * pz)) in *.
  assert (Hu : u * u = px * px + py * py + pz * pz)
    by (apply sqrt_sqrt; exact Hxyz).
  assert (Hz : pz <= u).
  { destruct (Rle_dec pz u) as [Hle|Hgt]; [exact Hle|].
    exfalso. nra. }
  unfold elbowArgument. rewrite (sqrt_sqrt _ Hxy).
  apply Rmult_lt_reg_r with (2 * 0.290 * 0.342); [lra|].
  match goal with
  | |- _ < ?n / ?c * ?c => replace (n / c * c) with n by (field; lra)
  end.
  nra.
Qed.

(** Farther than 1 m from the base the elbow argument exceeds 1.6, well
    clear of the threshold 1 of [solveFirstThreeJoints]. *)
Lemma elbowArgument_beyond (px py pz : R) :
  1 < sqrt (px * px + py * py + pz * pz) ->
  1.6 < elbowArgument (sqrt (px * px + py * py)) (pz - 0.267) 0.290 0.342.
Proof.
  intros Hfar.
  assert (Hxy : 0 <= px * px + py * py) by nra.
  assert (Hxyz : 0 <= px * px + py * py + pz * pz) by nra.
  set (u := sqrt (px * px + py * py + pz * pz)) in *.
  assert (Hu : u * u = px * px + py * py + pz * pz)
    by (apply sqrt_sqrt; exact Hxyz).
  assert (Hz : pz <= u).
  { destruct (Rle_dec pz u) as [Hle|Hgt]; [exact Hle|].
    exfalso. nra. }
  unfold elbowArgument. rewrite (sqrt_sqrt _ Hxy).
  apply Rmult_lt_reg_r with (2 * 0.290 * 0.342); [lra|].
  match goal with
  | |- _ < ?n / ?c * ?c => replace (n / c * c) with n by (field; lra)
  end.
  nra.
Qed.

(** C4.  [D] is the elbow argument [solveFirstThreeJoints] computes for
    the target position; it is the same on both base-rotation branches.
    When its magnitude exceeds 1 neither branch yields a base solution
    and [inverseKinematics] returns the empty list.  This is the case,
    with [D > 1], for every target position farther from the base than
    0.899 m (the shoulder height and the two links of the solver), and so
    for every target position farther from the base than the sum of the
    link lengths, 1.241 m. *)
Theorem inverseKinematics_out_of_reach (pose : Pose) :
  let p := position pose in
  let D := elbowArgument (sqrt (x p * x p + y p * y p)) (z p - 0.267)
                         0.290 0.342 in
  (1 < Rabs D ->
   solveFirstThreeJoints RobotController.DH_PARAMS p = Some []
   /\ inverseKinematics RobotController.DH_PARAMS inv pose = [])
  /\ (0.267 + 0.290 + 0.342 < Reference.distanceFromBase p ->
      1 < D
      /\ inverseKinematics RobotController.DH_PARAMS inv pose = [])
  /\ (Reference.linkLengthSum RobotController.DH_PARAMS
      < Reference.distanceFromBase p ->
      1 < D
      /\ inverseKinematics RobotController.DH_PARAMS inv pose = []).
Proof.
  intros p D.
  assert (Hout : 1 < Rabs D ->
                 solveFirstThreeJoints RobotController.DH_PARAMS p
                 = Some []).
  { intros HD. unfold solveFirstThreeJoints, RobotController.DH_PARAMS.
    cbn [nth_error flat_map].
    rewrite !solveForBase_no_solution; [reflexivity| |]; exact HD. }
  assert (Hfar : 0.267 + 0.290 + 0.342 < Reference.distanceFromBase p ->
                 1 < D
                 /\ inverseKinematics RobotController.DH_PARAMS inv pose
                    = []).
  { unfold Reference.distanceFromBase. intros Hfar.
    assert (HD : 1 < D).
    { subst D p. destruct (position pose) as [px py pz].
      cbn [x y z] in *. now apply elbowArgument_far. }
    split; [exact HD|].
    apply inverseKinematics_no_base, Hout.
    rewrite Rabs_pos_eq; lra. }
  split; [|split].
  - intros HD; split; [now apply Hout|].
    apply inverseKinematics_no_base; now apply Hout.
  - exact Hfar.
  - rewrite linkLengthSum_DH. intros H. apply Hfar. lra.
Qed.

(** *** The filter *)

Lemma withinSoftwareBound_true (solution : list R) (i : nat) (q : R) :
  withinSoftwareBound solution = true ->
  (i < 6)%nat ->
  JS.get solution i = Some q ->
  Rabs q <= 3.5.
Proof.
  intros Hall Hi Hq. unfold withinSoftwareBound in Hall.
  rewrite forallb_forall in Hall.
  specialize (Hall i). rewrite Hq in Hall.
  cbn [JS.abs JS.gt JS.cmp JS.lift1] in Hall.
  assert (Hin : In i (seq 0 6)) by (apply in_seq; lia).
  apply Hall, negb_true_iff in Hin. now js_hyps.
Qed.

Lemma solveLastThreeJoints_length (dhParams : list DH)
    (baseSolution : list R) (targetMatrix : Matrix)
    (wristSolutions : list (list R)) :
  solveLastThreeJoints dhParams inv baseSolution targetMatrix
  = Some wristSolutions ->
  Forall (fun solution => length solution = 6%nat) wristSolutions.
Proof.
  unfold solveLastThreeJoints.
  destruct baseSolution as [|t1 [|t2 [|t3 rest]]]; try discriminate.
  destruct (firstn 3 dhParams) as [|dh1 [|dh2 [|dh3 [|dh4 more]]]];
    try discriminate.
  destruct (inv _); [|discriminate].
  intros H; injection H as <-. repeat constructor.
Qed.

Lemma collect_length (dhParams : list DH) (baseSolutions : list (list R))
    (targetMatrix : Matrix) (solutions out : list (list R)) :
  Forall (fun solution => length solution = 6%nat) solutions ->
  collect dhParams inv baseSolutions targetMatrix solutions = Some out ->
  Forall (fun solution => length solution = 6%nat) out.
Proof.
  revert solutions; induction baseSolutions as [|b rest IH];
    intros solutions Hsol Hout; cbn [collect] in Hout.
  - now injection Hout as <-.
  - destruct (solveLastThreeJoints dhParams inv b targetMatrix)
      as [w|] eqn:Hw; [|discriminate].
    apply (IH (solutions ++ w)); [|exact Hout].
    apply Forall_app; split; [exact Hsol|].
    now apply (solveLastThreeJoints_length dhParams b targetMatrix).
Qed.

(** C9, as the code has it.  The filter drops every candidate with a
    joint beyond 3.5 rad in magnitude, so every solution
    [inverseKinematics] returns for the arm's DH table has six joint
    values within 3.5 rad.
    The bound lies between 200 and 201 degrees.  It is wider than the
    limits of joints 1 to 5 and narrower than the limits of joint 6. *)
Theorem filterValidSolutions_bound :
  (forall solutions solution i q,
      In solution solutions ->
      (i < 6)%nat ->
      JS.get solution i = Some q ->
      3.5 < Rabs q ->
      ~ In solution (filterValidSolutions solutions))
  /\ (forall pose,
         Forall (fun solution =>
                   length solution = 6%nat
                   /\ Forall (fun q => Rabs q <= 3.5) solution)
                (inverseKinematics RobotController.DH_PARAMS inv pose))
  /\ Reference.degrees 200 < 3.5 < Reference.degrees 201
  /\ (forall i limits,
         (i < 5)%nat ->
         nth_error RobotController.JOINT_LIMITS i = Some limits ->
         -3.5 < RobotController.min limits
         /\ RobotController.max limits < 3.5)
  /\ (exists limits,
         nth_error RobotController.JOINT_LIMITS 5 = Some limits
         /\ RobotController.min limits < -3.5
         /\ 3.5 < RobotController.max limits).
Proof.
  split; [|split; [|split; [|split]]].
  - intros solutions solution i q _ Hi Hq Hbig Hin.
    apply filter_In in Hin; destruct Hin as [_ Hok].
    pose proof (withinSoftwareBound_true _ _ _ Hok Hi Hq). lra.
  - intros pose. unfold inverseKinematics, inverseKinematicsTry.
    destruct (calculateWristCenter _ _) as [wc|]; [|constructor].
    destruct (solveFirstThreeJoints _ _) as [bs|]; [|constructor].
    destruct (collect _ _ _ _ _) as [sols|] eqn:Hc; [|constructor].
    apply collect_length in Hc; [|constructor].
    rewrite Forall_forall in Hc.
    apply Forall_forall; intros solution Hin.
    apply filter_In in Hin; destruct Hin as [Hin Hok].
    split; [now apply Hc|].
    apply Forall_forall; intros q Hq.
    apply In_nth_error in Hq; destruct Hq as [i Hi].
    apply (withinSoftwareBound_true solution i q Hok); [|exact Hi].
    rewrite <- (Hc solution Hin). apply nth_error_Some. congruence.
  - pose proof JSFacts.PI_bounds. unfold Reference.degrees. lra.
  - intros i limits Hi Hlimits.
    unfold RobotController.JOINT_LIMITS in Hlimits.
    do 5 (destruct i as [|i];
          [injection Hlimits as <-;
           cbn [RobotController.min RobotController.max]; lra|]).
    lia.
  - eexists; split; [reflexivity|].
    cbn [RobotController.min RobotController.max]; lra.
Qed.

End KinematicsProperties.

(** C4 for the target position (2, 0, 0), two metres from the base, with
    any orientation left at zero and a [math.inv] that is never called. *)
Lemma inverseKinematics_out_of_reach_witness :
  Kinematics.inverseKinematics RobotController.DH_PARAMS (fun _ => None)
    {| Kinematics.position := {| Kinematics.x := 2; Kinematics.y := 0;
                                 Kinematics.z := 0 |};
       Kinematics.orientation := {| Kinematics.rx := 0; Kinematics.ry := 0;
                                    Kinematics.rz := 0 |} |} = [].
Proof.
  apply (proj2 (inverseKinematics_out_of_reach (fun _ => None)
                  {| Kinematics.position :=
                       {| Kinematics.x := 2; Kinematics.y := 0;
                          Kinematics.z := 0 |};
                     Kinematics.orientation :=
                       {| Kinematics.rx := 0; Kinematics.ry := 0;
                          Kinematics.rz := 0 |} |})).
  rewrite linkLengthSum_DH. unfold Reference.distanceFromBase.
  cbn [Kinematics.position Kinematics.x Kinematics.y Kinematics.z].
  replace (2 * 2 + 0 * 0 + 0 * 0) with (2 * 2) by ring.
  rewrite sqrt_square; lra.
Defined.

(** C9 on a candidate with joint 6 at 4 rad, inside the limits of that
    joint: the filter drops it. *)
Lemma filterValidSolutions_bound_witness :
  ~ In [0; 0; 0; 0; 0; 4]
       (Kinematics.filterValidSolutions [ [0; 0; 0; 0; 0; 4] ]).
Proof.
  apply (proj1 (filterValidSolutions_bound (fun _ => None))
           [ [0; 0; 0; 0; 0; 4] ] [0; 0; 0; 0; 0; 4] 5%nat 4).
  - now left.
  - lia.
  - reflexivity.
  - rewrite Rabs_pos_eq; lra.
Defined.

(** C9 as the specification has it fails.  A candidate with joint 1 at
    3.495 rad, more than 200 degrees, passes the filter.  And the limits
    of joint 6 reach beyond 200 degrees and beyond the bound of the
    filter, which therefore is not wider than the limits of every
    joint. *)
Lemma filterValidSolutions_keeps_beyond_200_degrees :
  Reference.degrees 200 < Rabs 3.495
  /\ Kinematics.filterValidSolutions [ [3.495; 0; 0; 0; 0; 0] ]
     = [ [3.495; 0; 0; 0; 0; 0] ]
  /\ exists limits,
       nth_error RobotController.JOINT_LIMITS 5 = Some limits
       /\ Reference.degrees 200 < RobotController.max limits
       /\ 3.5 < RobotController.max limits.
Proof.
  pose proof JSFacts.PI_bounds as HPI.
  split; [|split].
  - rewrite Rabs_pos_eq by lra. unfold Reference.degrees. lra.
  - unfold Kinematics.filterValidSolutions, Kinematics.withinSoftwareBound.
    cbn [filter forallb seq JS.get nth_error JS.abs JS.gt JS.cmp JS.lift1].
    rewrite Rabs_R0, (Rabs_pos_eq 3.495) by lra.
    js_eval. reflexivity.
  - eexists; split; [reflexivity|].
    cbn [RobotController.max]. unfold Reference.degrees. lra.
Qed.

(** ** The model on concrete inputs *)

(** A target away from the limits and from both singularity tests is
    safe. *)
Example isTargetSafe_accepts :
  SafetyMonitor.isTargetSafe [1; 1; 1; 1; 0.5; 1] = true.
Proof.
  pose proof JSFacts.PI_bounds as HPI.
  unfold SafetyMonitor.isTargetSafe, SafetyMonitor.withinHardLimits,
    SafetyMonitor.isNearSingularity, SafetyMonitor.jointLimits.
  cbn [combine seq forallb fst snd JS.get nth_error JS.lt JS.gt JS.cmp
       SafetyMonitor.min SafetyMonitor.max JS.abs JS.sub JS.add JS.pow
       JS.sqrt JS.lift1 JS.lift2].
  rewrite (Rabs_pos_eq 0.5) by lra.
  rewrite (Rabs_left (0.5 - PI / 2)) by lra.
  replace (1 ^ 2 + 1 ^ 2) with 2 by ring.
  assert (Hsqrt : 0.1 <= sqrt 2).
  { apply Rle_trans with (sqrt 1); [rewrite sqrt_1; lra|].
    apply sqrt_le_1_alt; lra. }
  rewrite (proj2 (JSFacts.Rltb_false 2 0)) by lra.
  cbn [JS.lt JS.cmp].
  rewrite (proj2 (JSFacts.Rltb_false (sqrt 2) 0.1) Hsqrt).
  js_eval. reflexivity.
Qed.

(** Far from every limit the speed is the desired one; with joint 2 at
    0.2 rad from its limit it is scaled by 0.2 / 0.5. *)
Example calculateSafeSpeed_values :
  SafetyMonitor.calculateSafeSpeed [0; 0; 0; 0; 0; 0] [] 50 = Some 50
  /\ SafetyMonitor.calculateSafeSpeed [0; 2.07; 0; 0; 0; 0] [] 50 = Some 20.
Proof.
  unfold SafetyMonitor.calculateSafeSpeed, SafetyMonitor.minDistance,
    SafetyMonitor.jointLimits.
  cbn [combine seq fold_left fst snd JS.get nth_error JS.abs JS.sub JS.min
       JS.div JS.mul JS.lt JS.cmp JS.lift1 JS.lift2 SafetyMonitor.min
       SafetyMonitor.max].
  repeat (r_eval; js_eval; cbn [JS.min JS.lift2]).
  split; f_equal; lra.
Qed.

(** A target within the hard limits is accepted: the target is stored and
    the move starts. *)
Example moveJoints_accepts :
  RobotController.moveJoints [0.5; 0; 0; 0; 0; 0] RobotController.new
  = (RobotController.Awaiting,
     RobotController.set_isMoving true
       (RobotController.set_targetJoints [0.5; 0; 0; 0; 0; 0]
          RobotController.new)).
Proof.
  unfold RobotController.moveJoints.
  cbn [seq RobotController.checkAll RobotController.checkJointLimits
       RobotController.JOINT_LIMITS JS.get nth_error JS.ge JS.le JS.cmp
       RobotController.min RobotController.max].
  js_eval. reflexivity.
Qed.

(** A draw below one half leaves the state alone. *)
Example checkCollision_quiet (s : SafetyMonitor.System) :
  SafetyMonitor.checkCollision 0.25 0 s = (false, s).
Proof. apply checkCollision_miss; lra. Qed.

(** Halfway through a move from 1 to 3 in 2 s, with the coefficients the
    inverse of the boundary matrix gives, the trajectory is at 2. *)
Example trajectory_midpoint :
  MotionPlanner.trajectory 1 3 2
    (Mathjs.multiply (Reference.boundaryInverse 2)
       [ [1]; [0]; [0]; [3]; [0]; [0] ]) 1 = 2.
Proof.
  unfold MotionPlanner.trajectory.
  js_eval.
  unfold Mathjs.multiply, Mathjs.columns, Mathjs.column, Mathjs.dot,
    Mathjs.get, Reference.boundaryInverse.
  cbn [map seq length nth combine fold_right fold_left fst snd].
  field.
Qed.

(** The filter keeps a candidate whose joints are all within the bound. *)
Example filterValidSolutions_keeps :
  Kinematics.filterValidSolutions [ [0; 0; 0; 0; 0; 0] ]
  = [ [0; 0; 0; 0; 0; 0] ].
Proof.
  unfold Kinematics.filterValidSolutions, Kinematics.withinSoftwareBound.
  cbn [filter forallb seq JS.get nth_error JS.abs JS.gt JS.cmp JS.lift1].
  rewrite Rabs_R0. js_eval. reflexivity.
Qed.

(* ================================================================== *)
(** * Further properties *)
(* ================================================================== *)

(** ** Rounding *)

Lemma round_bounds (v : R) :
  v - 1 / 2 < IZR (JSMath.round v) <= v + 1 / 2.
Proof.
  unfold JSMath.round.
  destruct (base_Int_part (v + 1 / 2)) as [Hle Hgt]. lra.
Qed.

Lemma round_integer (n : Z) : JSMath.round (IZR n) = n.
Proof.
  unfold JSMath.round. symmetry. apply Int_part_spec. lra.
Qed.

Lemma ceil_bounds (v : R) :
  v <= IZR (JSMath.ceil v) < v + 1.
Proof.
  unfold JSMath.ceil. rewrite opp_IZR.
  destruct (base_Int_part (- v)) as [Hle Hgt]. lra.
Qed.

(** ** Encoder counts *)

Section EncoderProperties.

Import RobotController.

Lemma gearRatio_positive (i : nat) (g : R) :
  nth_error gearRatios i = Some g -> 50 <= g.
Proof.
  unfold gearRatios.
  do 6 (destruct i as [|i]; [intros H; injection H as <-; lra|]).
  destruct i; discriminate.
Qed.

(** X1.  Turning a joint angle into encoder counts and back gives the
    angle again up to half a count: the error is at most
    [PI / (encoderResolution * gearRatio)] of that joint. *)
Theorem encoder_round_trip_angle (jointAngle : R) (jointIndex : nat)
    (gearRatio : R) :
  nth_error gearRatios jointIndex = Some gearRatio ->
  exists counts back,
    jointToEncoder jointAngle jointIndex = Some counts
    /\ encoderToJoint counts jointIndex = Some back
    /\ Rabs (back - jointAngle) <= PI / (encoderResolution * gearRatio).
Proof.
  intros Hg. pose proof (gearRatio_positive _ _ Hg) as Hpos.
  pose proof JSFacts.PI_bounds as HPI.
  unfold jointToEncoder, encoderToJoint; rewrite Hg.
  do 2 eexists; split; [reflexivity|]; split; [reflexivity|].
  set (v := jointAngle / (2 * PI) * encoderResolution * gearRatio).
  pose proof (round_bounds v) as Hr.
  assert (Hres : 0 < encoderResolution * gearRatio)
    by (unfold encoderResolution; nra).
  assert (Heq : IZR (JSMath.round v) / (encoderResolution * gearRatio)
                * (2 * PI) - jointAngle
                = (IZR (JSMath.round v) - v)
                  * (2 * PI / (encoderResolution * gearRatio))).
  { unfold v, encoderResolution. field. repeat split; lra. }
  rewrite Heq.
  assert (Hk : 0 < 2 * PI / (encoderResolution * gearRatio))
    by (apply Rdiv_lt_0_compat; lra).
  rewrite Rabs_mult, (Rabs_pos_eq (2 * PI / _)) by lra.
  assert (Hhalf : Rabs (IZR (JSMath.round v) - v) <= 1 / 2)
    by (apply Rabs_le; lra).
  replace (PI / (encoderResolution * gearRatio))
    with (1 / 2 * (2 * PI / (encoderResolution * gearRatio)))
    by (unfold encoderResolution; field; lra).
  apply Rmult_le_compat_r; lra.
Qed.

(** X1 at joint 1 and 1 rad. *)
Lemma encoder_round_trip_angle_witness :
  exists counts back,
    jointToEncoder 1 0 = Some counts
    /\ encoderToJoint counts 0 = Some back
    /\ Rabs (back - 1) <= PI / (encoderResolution * 160).
Proof.
  apply (encoder_round_trip_angle 1 0 160). reflexivity.
Defined.

(** X2.  Turning an encoder count into a joint angle and back gives the
    same count, for each of the six joints. *)
Theorem encoder_round_trip_counts (counts : Z) (jointIndex : nat) :
  (jointIndex < 6)%nat ->
  exists angle,
    encoderToJoint counts jointIndex = Some angle
    /\ jointToEncoder angle jointIndex = Some counts.
Proof.
  intros Hi.
  destruct (nth_error gearRatios jointIndex) as [g|] eqn:Hg.
  2:{ apply nth_error_None in Hg. simpl in Hg. lia. }
  pose proof (gearRatio_positive _ _ Hg) as Hpos.
  pose proof JSFacts.PI_bounds as HPI.
  unfold jointToEncoder, encoderToJoint; rewrite Hg.
  eexists; split; [reflexivity|]. f_equal.
  replace (IZR counts / (encoderResolution * g) * (2 * PI) / (2 * PI)
           * encoderResolution * g)
    with (IZR counts)
    by (unfold encoderResolution; field; repeat split; lra).
  apply round_integer.
Qed.

(** X2 at joint 4 and a negative count. *)
Lemma encoder_round_trip_counts_witness :
  exists angle,
    encoderToJoint (-1000) 3 = Some angle
    /\ jointToEncoder angle 3 = Some (-1000)%Z.
Proof.
  apply (encoder_round_trip_counts (-1000) 3). lia.
Defined.

End EncoderProperties.

(** ** Accepting and choosing targets *)

Section TargetProperties.

Import RobotController.

Variable inv : Mathjs.Matrix -> option Mathjs.Matrix.

Lemma checkAll_none (target : list R) (indices : list nat) :
  (forall i, In i indices ->
             checkJointLimits i (JS.get target i) = Some true) ->
  checkAll target indices = None.
Proof.
  induction indices as [|j rest IH]; intros H; [reflexivity|].
  simpl. rewrite (H j) by now left.
  apply IH; intros i Hi; apply H; now right.
Qed.

Lemma checkJointLimits_true (i : nat) (v : JS.num) :
  checkJointLimits i v = Some true <->
  exists limits q,
    nth_error JOINT_LIMITS i = Some limits
    /\ v = Some q /\ min limits <= q <= max limits.
Proof.
  unfold checkJointLimits.
  destruct (nth_error JOINT_LIMITS i) as [limits|]; split.
  - intros H; injection H as H.
    destruct v as [q|]; [|discriminate].
    apply andb_true_iff in H; destruct H as [H1 H2].
    cbn [JS.ge JS.le JS.cmp] in *. js_hyps.
    exists limits, q; repeat split; auto.
  - intros (l & q & Hl & -> & Hlo & Hhi). injection Hl as <-.
    cbn [JS.ge JS.le JS.cmp].
    rewrite (proj2 (JSFacts.Rleb_true _ _) Hlo),
      (proj2 (JSFacts.Rleb_true _ _) Hhi). reflexivity.
  - discriminate.
  - intros (l & q & Hl & _); discriminate.
Qed.

Lemma moveJoints_cases (target : list R) (c : Controller) :
  moveJoints target c
  = (Awaiting, set_isMoving true (set_targetJoints target c))
  \/ exists e, moveJoints target c = (Threw e, c).
Proof.
  unfold moveJoints. destruct (checkAll target (seq 0 6)) as [e|].
  - right; now exists e.
  - now left.
Qed.

Lemma moveJoints_accepted (target : list R) (c : Controller) :
  fst (moveJoints target c) = Awaiting ->
  (forall i limits,
      nth_error JOINT_LIMITS i = Some limits ->
      exists q, JS.get target i = Some q /\ min limits <= q <= max limits)
  /\ snd (moveJoints target c)
     = set_isMoving true (set_targetJoints target c).
Proof.
  unfold moveJoints.
  destruct (checkAll target (seq 0 6)) as [e|] eqn:Hall; [discriminate|].
  intros _. split; [|reflexivity].
  intros i limits Hl.
  assert (Hi : (i < 6)%nat).
  { assert (H : nth_error JOINT_LIMITS i <> None) by congruence.
    apply nth_error_Some in H; exact H. }
  assert (Hc : checkJointLimits i (JS.get target i) = Some true).
  { apply (checkAll_passes target (seq 0 6)); [exact Hall|].
    apply in_seq; lia. }
  apply checkJointLimits_true in Hc.
  destruct Hc as (l & q & Hl' & Hq & Hb).
  exists q; split; [exact Hq|]. congruence.
Qed.

Lemma moveJoints_within (target : list R) (c : Controller) :
  (forall i limits,
      nth_error JOINT_LIMITS i = Some limits ->
      exists q, JS.get target i = Some q /\ min limits <= q <= max limits) ->
  fst (moveJoints target c) = Awaiting.
Proof.
  intros H. unfold moveJoints. rewrite checkAll_none; [reflexivity|].
  intros i Hi. apply in_seq in Hi.
  destruct (nth_error JOINT_LIMITS i) as [limits|] eqn:Hl.
  2:{ apply nth_error_None in Hl. simpl in Hl. lia. }
  destruct (H i limits Hl) as (q & Hq & Hb).
  apply checkJointLimits_true. exists limits, q; auto.
Qed.

(** X3.  [moveJoints] accepts a target exactly when each of its first six
    entries is there and within the hard limits of its joint, whatever
    the state of the controller: it consults neither the current joints
    nor any stop made before.  When it accepts, it stores the target as
    given, sets [isMoving] and leaves the current joints alone. *)
Theorem moveJoints_accepts_iff (target : list R) (c : Controller) :
  (fst (moveJoints target c) = Awaiting ->
   (forall i limits,
       nth_error JOINT_LIMITS i = Some limits ->
       exists q, JS.get target i = Some q /\ min limits <= q <= max limits)
   /\ targetJoints (snd (moveJoints target c)) = target
   /\ isMoving (snd (moveJoints target c)) = true
   /\ currentJoints (snd (moveJoints target c)) = currentJoints c)
  /\ ((forall i limits,
          nth_error JOINT_LIMITS i = Some limits ->
          exists q, JS.get target i = Some q /\ min limits <= q <= max limits)
      -> fst (moveJoints target c) = Awaiting).
Proof.
  split.
  - intros Hok. destruct (moveJoints_accepted target c Hok) as [Hl ->].
    repeat split; auto.
  - apply moveJoints_within.
Qed.

(** X3 on a target inside the limits, sent to a controller that an
    emergency stop has just frozen. *)
Lemma moveJoints_accepts_iff_witness :
  fst (moveJoints [0.5; 0; 0; 0; 0; 0] (emergencyStop new)) = Awaiting.
Proof.
  apply (proj2 (moveJoints_accepts_iff [0.5; 0; 0; 0; 0; 0]
                  (emergencyStop new))).
  intros i limits Hl. unfold JOINT_LIMITS in Hl.
  do 6 (destruct i as [|i];
        [injection Hl as <-; eexists; split;
         [reflexivity | cbn [min max]; lra]|]).
  destruct i; discriminate.
Defined.

(** *** The nearest solution *)

Lemma squaredDistance_defined (solution current : list R) :
  (6 <= length solution)%nat -> (6 <= length current)%nat ->
  exists dist, squaredDistance solution current = Some dist.
Proof.
  intros Hs Hc. unfold squaredDistance.
  assert (H : forall indices acc,
             (forall i, In i indices -> (i < 6)%nat) ->
             exists dist,
               fold_left
                 (fun distance i =>
                    JS.add distance
                      (JS.pow (JS.sub (JS.get solution i)
                                      (JS.get current i)) 2))
                 indices (Some acc) = Some dist).
  { induction indices as [|j rest IH]; intros acc Hlt.
    - now exists acc.
    - cbn [fold_left]. unfold JS.get.
      assert (Hj : (j < 6)%nat) by (apply Hlt; now left).
      rewrite (nth_error_nth' solution 0), (nth_error_nth' current 0)
        by lia.
      cbn [JS.sub JS.pow JS.add JS.lift1 JS.lift2].
      apply IH. intros i Hi; apply Hlt; now right. }
  apply H. intros i Hi; apply in_seq in Hi; lia.
Qed.

Lemma selectOptimalSolution_loop (current : list R)
    (rest seen : list (list R)) (best : option (list R) * option R) :
  Forall (fun s => exists d, squaredDistance s current = Some d) rest ->
  Invariants.nearestSoFar current seen best ->
  Invariants.nearestSoFar current (seen ++ rest)
    (fold_left
       (fun best solution =>
          match squaredDistance solution current, snd best with
          | Some distance, None => (Some solution, Some distance)
          | Some distance, Some minDistance =>
              if JS.Rltb distance minDistance
              then (Some solution, Some distance)
              else best
          | None, _ => best
          end)
       rest best).
Proof.
  revert seen best; induction rest as [|s rest IH];
    intros seen best Hdef Hinv.
  - now rewrite app_nil_r.
  - apply Forall_cons_iff in Hdef; destruct Hdef as [[d Hd] Hdef].
    cbn [fold_left].
    replace (seen ++ s :: rest) with ((seen ++ [s]) ++ rest)
      by (now rewrite <- app_assoc).
    apply IH; [exact Hdef|]. rewrite Hd. right.
    destruct Hinv as [[-> ->]|(b & db & -> & Hin & Hb & Hmin)].
    + exists s, d. cbn [snd app]. repeat split; auto.
      * now left.
      * intros other d' [<-|[]] Hd'. rewrite Hd in Hd'.
        injection Hd' as <-. lra.
    + cbn [snd]. destruct (JS.Rltb d db) eqn:Hlt; js_hyps.
      * exists s, d. repeat split; auto.
        -- apply in_or_app; right; now left.
        -- intros other d' Hother Hd'.
           apply in_app_or in Hother; destruct Hother as [Ho|[<-|[]]].
           ++ specialize (Hmin other d' Ho Hd'). lra.
           ++ rewrite Hd in Hd'; injection Hd' as <-; lra.
      * exists b, db. repeat split; auto.
        -- apply in_or_app; now left.
        -- intros other d' Hother Hd'.
           apply in_app_or in Hother; destruct Hother as [Ho|[<-|[]]].
           ++ now apply (Hmin other d').
           ++ rewrite Hd in Hd'; injection Hd' as <-; lra.
Qed.

Lemma selectOptimalSolution_nearest (solutions : list (list R))
    (c : Controller) :
  (6 <= length (currentJoints c))%nat ->
  Forall (fun s => (6 <= length s)%nat) solutions ->
  Invariants.nearestSoFar (currentJoints c) solutions
    (fold_left
       (fun best solution =>
          match squaredDistance solution (currentJoints c), snd best with
          | Some distance, None => (Some solution, Some distance)
          | Some distance, Some minDistance =>
              if JS.Rltb distance minDistance
              then (Some solution, Some distance)
              else best
          | None, _ => best
          end)
       solutions (None, None)).
Proof.
  intros Hc Hs.
  apply (selectOptimalSolution_loop (currentJoints c) solutions []).
  - apply Forall_forall; intros s Hin.
    rewrite Forall_forall in Hs.
    apply squaredDistance_defined; auto.
  - now left.
Qed.

(** X4.  With six current joints and candidates of six joints each,
    [selectOptimalSolution] returns [null] for no candidate, and
    otherwise one of the candidates whose squared distance to the
    current joints is not above that of any other. *)
Theorem selectOptimalSolution_minimal (solutions : list (list R))
    (c : Controller) :
  (6 <= length (currentJoints c))%nat ->
  Forall (fun s => (6 <= length s)%nat) solutions ->
  (solutions = [] -> selectOptimalSolution solutions c = None)
  /\ (solutions <> [] ->
      exists best dist,
        selectOptimalSolution solutions c = Some best
        /\ In best solutions
        /\ squaredDistance best (currentJoints c) = Some dist
        /\ forall other d,
             In other solutions ->
             squaredDistance other (currentJoints c) = Some d ->
             dist <= d).
Proof.
  intros Hc Hs.
  pose proof (selectOptimalSolution_nearest solutions c Hc Hs) as Hinv.
  unfold selectOptimalSolution. split.
  - intros ->. reflexivity.
  - intros Hne.
    destruct Hinv as [[-> _]|(b & db & Heq & Hin & Hb & Hmin)];
      [contradiction|].
    rewrite Heq. exists b, db. auto.
Qed.

(** X4 on two candidates seen from the initial state: the one at
    distance 1 wins over the one at distance 4. *)
Lemma selectOptimalSolution_minimal_witness :
  exists best dist,
    selectOptimalSolution [ [2; 0; 0; 0; 0; 0]; [1; 0; 0; 0; 0; 0] ] new
    = Some best
    /\ In best [ [2; 0; 0; 0; 0; 0]; [1; 0; 0; 0; 0; 0] ]
    /\ squaredDistance best (currentJoints new) = Some dist
    /\ forall other d,
         In other [ [2; 0; 0; 0; 0; 0]; [1; 0; 0; 0; 0; 0] ] ->
         squaredDistance other (currentJoints new) = Some d ->
         dist <= d.
Proof.
  apply (selectOptimalSolution_minimal
           [ [2; 0; 0; 0; 0; 0]; [1; 0; 0; 0; 0; 0] ] new).
  - simpl; lia.
  - repeat constructor.
  - discriminate.
Defined.

(** *** Cartesian moves *)

Lemma selectOptimalSolution_member (solutions : list (list R))
    (c : Controller) (best : list R) :
  selectOptimalSolution solutions c = Some best -> In best solutions.
Proof.
  unfold selectOptimalSolution.
  assert (H : forall rest state,
             (forall b, fst state = Some b -> In b solutions) ->
             (forall s, In s rest -> In s solutions) ->
             forall b,
               fst (fold_left
                      (fun best solution =>
                         match squaredDistance solution (currentJoints c),
                               snd best with
                         | Some distance, None =>
                             (Some solution, Some distance)
                         | Some distance, Some minDistance =>
                             if JS.Rltb distance minDistance
                             then (Some solution, Some distance)
                             else best
                         | None, _ => best
                         end)
                      rest state) = Some b ->
               In b solutions).
  { induction rest as [|s rest IH]; intros state Hstate Hrest b.
    - apply Hstate.
    - cbn [fold_left]. apply IH.
      + destruct (squaredDistance s (currentJoints c)) as [d|];
          [|exact Hstate].
        destruct (snd state) as [m|].
        * destruct (JS.Rltb d m); [|exact Hstate].
          intros b' Hb'; injection Hb' as <-. apply Hrest; now left.
        * intros b' Hb'; injection Hb' as <-. apply Hrest; now left.
      + intros s' Hs'; apply Hrest; now right. }
  apply (H solutions (None, None)); [discriminate | auto].
Qed.

Lemma inverseKinematics_far (pose : Kinematics.Pose) :
  0.267 + 0.290 + 0.342
  < Reference.distanceFromBase (Kinematics.position pose) ->
  Kinematics.inverseKinematics DH_PARAMS inv pose = [].
Proof.
  intros Hfar. apply inverseKinematics_no_base.
  destruct pose as [[px py pz] e].
  unfold Reference.distanceFromBase in Hfar.
  cbn [Kinematics.position Kinematics.x Kinematics.y Kinematics.z] in *.
  pose proof (elbowArgument_far px py pz Hfar) as HD.
  unfold Kinematics.solveFirstThreeJoints, DH_PARAMS.
  cbn [nth_error flat_map Kinematics.x Kinematics.y].
  rewrite !solveForBase_no_solution; [reflexivity| |];
    cbn [Kinematics.x Kinematics.y Kinematics.z Kinematics.a Kinematics.d];
    rewrite Rabs_pos_eq; lra.
Qed.

(** X5.  A Cartesian move to a position farther than 1 m from the base
    fails with the error of [moveToCartesian] itself, no inverse
    kinematics solution, and leaves the controller as it was.  The elbow
    argument [D] of [solveFirstThreeJoints] is then above 1.6, so the
    test [Math.abs(D) > 1] that rejects the target is not a matter of
    rounding. *)
Theorem moveToCartesian_out_of_reach (px py pz rx ry rz : R)
    (c : Controller) :
  1 < sqrt (px * px + py * py + pz * pz) ->
  1.6 < Kinematics.elbowArgument (sqrt (px * px + py * py)) (pz - 0.267)
          0.290 0.342
  /\ moveToCartesian inv px py pz rx ry rz c = (inl NoSolution, c).
Proof.
  intros Hfar. split; [now apply elbowArgument_beyond|].
  unfold moveToCartesian.
  rewrite inverseKinematics_far; [reflexivity|].
  unfold Reference.distanceFromBase.
  cbn [Kinematics.position Kinematics.x Kinematics.y Kinematics.z]. lra.
Qed.

(** X6.  Whatever its arguments, [moveToCartesian] either fails and
    leaves the controller as it was, or reaches its wait with a target
    that is one of the inverse kinematics solutions, has each of its six
    joints within the hard limits, and with [isMoving] set and the
    current joints untouched. *)
Theorem moveToCartesian_safe (px py pz rx ry rz : R) (c : Controller) :
  let pose :=
    {| Kinematics.position :=
         {| Kinematics.x := px; Kinematics.y := py; Kinematics.z := pz |};
       Kinematics.orientation :=
         {| Kinematics.rx := rx; Kinematics.ry := ry;
            Kinematics.rz := rz |} |} in
  let result := moveToCartesian inv px py pz rx ry rz c in
  (fst result <> inr Awaiting /\ snd result = c)
  \/ (fst result = inr Awaiting
      /\ In (targetJoints (snd result))
            (Kinematics.inverseKinematics DH_PARAMS inv pose)
      /\ (forall i limits,
             nth_error JOINT_LIMITS i = Some limits ->
             exists q,
               JS.get (targetJoints (snd result)) i = Some q
               /\ min limits <= q <= max limits)
      /\ isMoving (snd result) = true
      /\ currentJoints (snd result) = currentJoints c).
Proof.
  intros pose result; subst result; unfold moveToCartesian.
  fold pose.
  destruct (Kinematics.inverseKinematics DH_PARAMS inv pose)
    as [|s0 rest] eqn:Hik.
  { left; split; [discriminate | reflexivity]. }
  destruct (selectOptimalSolution (s0 :: rest) c) as [best|] eqn:Hsel.
  2:{ left; split; [discriminate | reflexivity]. }
  apply selectOptimalSolution_member in Hsel.
  cbn [fst snd].
  destruct (moveJoints_cases best c) as [Hok|[e Hbad]].
  - right.
    destruct (moveJoints_accepted best c) as [Hl Hs].
    { now rewrite Hok. }
    rewrite Hok. cbn [fst snd set_isMoving set_targetJoints targetJoints
                      isMoving currentJoints].
    repeat split; auto.
  - left. rewrite Hbad. cbn [fst snd]. split; [discriminate | reflexivity].
Qed.

End TargetProperties.

(** X5 for the move to x = 1.5 with the other coordinates at zero. *)
Lemma moveToCartesian_out_of_reach_witness :
  RobotController.moveToCartesian (fun _ => None) 1.5 0 0 0 0 0
    RobotController.new
  = (inl RobotController.NoSolution, RobotController.new).
Proof.
  apply (moveToCartesian_out_of_reach (fun _ => None) 1.5 0 0 0 0 0).
  replace (1.5 * 1.5 + 0 * 0 + 0 * 0) with (1.5 * 1.5) by ring.
  rewrite sqrt_square; lra.
Defined.

(** ** The simulated control cycle *)

Section SimulationProperties.

Import RobotController.

Lemma nth_error_combine_seq {A : Type} (l : list A) (start i : nat) :
  nth_error (combine (seq start (length l)) l) i
  = match nth_error l i with
    | Some v => Some ((start + i)%nat, v)
    | None => None
    end.
Proof.
  revert start i; induction l as [|w l IH]; intros start i.
  - now destruct i.
  - destruct i as [|i]; simpl.
    + now rewrite Nat.add_0_r.
    + rewrite IH. now rewrite Nat.add_succ_r.
Qed.

Lemma simulateJoints_get (c : Controller) (i : nat) :
  JS.get (currentJoints (simulateJoints c)) i
  = match JS.get (currentJoints c) i with
    | Some v =>
        Some (if Nat.ltb i 6 then simulateJoint (targetJoints c) i v else v)
    | None => None
    end.
Proof.
  unfold simulateJoints, JS.get. cbn [currentJoints set_currentJoints].
  rewrite nth_error_map, nth_error_combine_seq.
  now destruct (nth_error (currentJoints c) i).
Qed.

Lemma simulateJoints_frame (c : Controller) :
  targetJoints (simulateJoints c) = targetJoints c
  /\ isMoving (simulateJoints c) = isMoving c
  /\ ethercatMaster (simulateJoints c) = ethercatMaster c
  /\ length (currentJoints (simulateJoints c)) = length (currentJoints c).
Proof.
  unfold simulateJoints. cbn. repeat split.
  rewrite length_map, length_combine, length_seq. apply Nat.min_id.
Qed.

Lemma simulateJoint_step (target : list R) (i : nat) (t v : R) :
  JS.get target i = Some t ->
  (Rabs (t - v) <= 0.001 /\ simulateJoint target i v = v)
  \/ (0.001 < Rabs (t - v)
      /\ t - simulateJoint target i v = 0.9 * (t - v)).
Proof.
  intros Ht. unfold simulateJoint. rewrite Ht. cbv zeta.
  destruct (JS.Rltb 0.001 (Rabs (t - v))) eqn:H; js_hyps.
  - right; split; [exact H | lra].
  - left; split; [exact H | reflexivity].
Qed.




(** *** Convergence *)

Lemma iter_simulateJoints_frame (n : nat) (c : Controller) :
  targetJoints (Nat.iter n simulateJoints c) = targetJoints c.
Proof.
  induction n as [|n IH]; [reflexivity|].
  rewrite Nat.iter_succ.
  now rewrite (proj1 (simulateJoints_frame _)), IH.
Qed.

Lemma iter_simulateJoints_get (n : nat) (c : Controller) (i : nat) (v : R) :
  (i < 6)%nat ->
  JS.get (currentJoints c) i = Some v ->
  JS.get (currentJoints (Nat.iter n simulateJoints c)) i
  = Some (Nat.iter n (simulateJoint (targetJoints c) i) v).
Proof.
  intros Hi Hv. induction n as [|n IH]; [exact Hv|].
  rewrite !Nat.iter_succ.
  rewrite simulateJoints_get, IH, iter_simulateJoints_frame.
  apply Nat.ltb_lt in Hi; now rewrite Hi.
Qed.

Lemma simulateJoint_error (target : list R) (i : nat) (t v : R) (n : nat) :
  JS.get target i = Some t ->
  Rabs (t - Nat.iter n (simulateJoint target i) v) <= 0.001
  \/ t - Nat.iter n (simulateJoint target i) v = 0.9 ^ n * (t - v).
Proof.
  intros Ht. induction n as [|n IH].
  - right. simpl. ring.
  - rewrite Nat.iter_succ.
    set (w := Nat.iter n (simulateJoint target i) v) in *.
    destruct (simulateJoint_step target i t w Ht) as [[Hs ->]|[Hb He]].
    + now left.
    + destruct IH as [IH|IH]; [lra|].
      right. rewrite He, IH. simpl. ring.
Qed.

Lemma simulateJoint_settles (target : list R) (i : nat) (t v : R) :
  JS.get target i = Some t ->
  exists N, forall n, (N <= n)%nat ->
    Rabs (t - Nat.iter n (simulateJoint target i) v) <= 0.001.
Proof.
  intros Ht.
  assert (Hpos : 0 < 0.001 / (Rabs (t - v) + 1)).
  { apply Rdiv_lt_0_compat; [lra|]. pose proof (Rabs_pos (t - v)). lra. }
  destruct (pow_lt_1_zero 0.9) with (y := 0.001 / (Rabs (t - v) + 1))
    as [N HN]; [rewrite Rabs_pos_eq; lra | exact Hpos |].
  exists N. intros n Hn.
  destruct (simulateJoint_error target i t v n Ht) as [H|H]; [exact H|].
  rewrite H, Rabs_mult.
  specialize (HN n Hn).
  pose proof (Rabs_pos (t - v)) as Hv.
  pose proof (Rabs_pos (0.9 ^ n)) as Hp.
  apply Rle_trans
    with (0.001 / (Rabs (t - v) + 1) * (Rabs (t - v) + 1)).
  - apply Rmult_le_compat; lra.
  - right. field. lra.
Qed.

Lemma allStopped_iter (c : Controller) (k : nat) :
  wellFormed c -> (k <= 6)%nat ->
  exists N, forall n, (N <= n)%nat ->
    forallb
      (fun i =>
         let diff :=
           JS.abs (JS.sub
                     (JS.get (targetJoints (Nat.iter n simulateJoints c)) i)
                     (JS.get (currentJoints (Nat.iter n simulateJoints c)) i))
         in
         negb (JS.gt diff (Some 0.001)))
      (seq 0 k) = true.
Proof.
  intros [Hcur Htgt] Hk. induction k as [|k IH].
  - exists 0%nat. reflexivity.
  - destruct IH as [N HN]; [lia|].
    destruct (nth_error (targetJoints c) k) as [t|] eqn:Ht.
    2:{ apply nth_error_None in Ht. lia. }
    destruct (nth_error (currentJoints c) k) as [v|] eqn:Hv.
    2:{ apply nth_error_None in Hv. lia. }
    destruct (simulateJoint_settles (targetJoints c) k t v Ht) as [M HM].
    exists (N + M)%nat. intros n Hn.
    rewrite seq_S, forallb_app, HN by lia.
    cbn [forallb Nat.add andb].
    rewrite iter_simulateJoints_frame.
    rewrite (iter_simulateJoints_get n c k v) by (auto; lia).
    unfold JS.get at 1. rewrite Ht.
    cbn [JS.sub JS.abs JS.gt JS.cmp JS.lift1 JS.lift2].
    rewrite (proj2 (JSFacts.Rltb_false _ _)); [reflexivity|].
    apply HM. lia.
Qed.

(** X8.  On a controller with six current joints and at least six
    targets, repeating the simulated control cycle makes the convergence
    test of [waitForMovementComplete] succeed after finitely many cycles
    and from then on; and once that test succeeds a cycle changes no
    joint. *)
Theorem simulateJoints_converges (c : Controller) :
  wellFormed c ->
  (exists N, forall n, (N <= n)%nat ->
      allStopped (Nat.iter n simulateJoints c) = true)
  /\ (allStopped c = true ->
      currentJoints (simulateJoints c) = currentJoints c).
Proof.
  intros Hwf. split.
  - destruct (allStopped_iter c 6 Hwf (le_n 6)) as [N HN].
    exists N. intros n Hn. unfold allStopped. now apply HN.
  - intros Hstop. destruct Hwf as [Hcur Htgt].
    apply nth_error_ext. intros i.
    pose proof (simulateJoints_get c i) as Hget. unfold JS.get in Hget.
    rewrite Hget.
    destruct (nth_error (currentJoints c) i) as [v|] eqn:Hv; [|reflexivity].
    f_equal.
    assert (Hi : (i < 6)%nat).
    { assert (H : nth_error (currentJoints c) i <> None) by congruence.
      apply nth_error_Some in H. lia. }
    rewrite (proj2 (Nat.ltb_lt i 6) Hi).
    unfold allStopped in Hstop. rewrite forallb_forall in Hstop.
    specialize (Hstop i). unfold JS.get in Hstop. rewrite Hv in Hstop.
    unfold simulateJoint, JS.get.
    destruct (nth_error (targetJoints c) i) as [t|]; [|reflexivity].
    cbn [JS.sub JS.abs JS.gt JS.cmp JS.lift1 JS.lift2] in Hstop.
    cbv zeta.
    assert (Hin : In i (seq 0 6)) by (apply in_seq; lia).
    apply Hstop, negb_true_iff in Hin. now rewrite Hin.
Qed.

(** X8 for a move of joint 1 to 0.5 from the initial state. *)
Lemma simulateJoints_converges_witness :
  exists N, forall n, (N <= n)%nat ->
    allStopped
      (Nat.iter n simulateJoints
         (set_targetJoints [0.5; 0; 0; 0; 0; 0] new)) = true.
Proof.
  apply (simulateJoints_converges
           (set_targetJoints [0.5; 0; 0; 0; 0; 0] new)).
  split; simpl; lia.
Defined.

End SimulationProperties.

(** ** The checks of the monitor *)

Section CheckProperties.

Import SafetyMonitor.

Lemma axisViolation_nil (name : string) (v : R) (range : Range) :
  axisViolation name v range = [] <-> lo range <= v <= hi range.
Proof.
  unfold axisViolation.
  destruct (JS.Rltb v (lo range)) eqn:H1;
    destruct (JS.Rltb (hi range) v) eqn:H2; js_hyps; cbn [orb];
    split; intros H; try discriminate; try reflexivity; lra.
Qed.

Lemma protectiveStop_effect (reason : string) (now : Z) (s : System) :
  let s' := triggerProtectiveStop reason now s in
  RobotController.targetJoints (controller s')
  = RobotController.currentJoints (controller s)
  /\ RobotController.currentJoints (controller s')
     = RobotController.currentJoints (controller s)
  /\ RobotController.isMoving (controller s')
     = RobotController.isMoving (controller s)
  /\ RobotController.ethercatMaster (controller s')
     = RobotController.ethercatMaster (controller s)
  /\ safetyStatus s' = safetyStatus s
  /\ events s' = events s ++ [ProtectiveStop reason now].
Proof. cbn. repeat split. Qed.

(** X9.  [checkWorkspaceLimits] returns [true], and changes nothing,
    exactly when the pose lies in the box of 400 mm around the base in x
    and y and between 0 and 600 mm in z.  Otherwise it returns [false]
    and holds the arm: the target becomes the current joints and a
    protective stop and a warning are emitted, while the safety status,
    [limitViolations] included, [isMoving] and the bus stay as they
    were. *)
Theorem checkWorkspaceLimits_box (pose : RobotController.Pose) (now : Z)
    (s : System) :
  let inside :=
    -400 <= RobotController.x pose <= 400
    /\ -400 <= RobotController.y pose <= 400
    /\ 0 <= RobotController.z pose <= 600 in
  let s' := snd (checkWorkspaceLimits pose now s) in
  (inside -> checkWorkspaceLimits pose now s = (true, s))
  /\ (~ inside ->
      fst (checkWorkspaceLimits pose now s) = false
      /\ RobotController.targetJoints (controller s')
         = RobotController.currentJoints (controller s)
      /\ RobotController.isMoving (controller s')
         = RobotController.isMoving (controller s)
      /\ RobotController.ethercatMaster (controller s')
         = RobotController.ethercatMaster (controller s)
      /\ safetyStatus s' = safetyStatus s
      /\ exists violations,
           violations <> []
           /\ events s'
              = events s ++ [ ProtectiveStop "Workspace limit violation" now;
                              WorkspaceLimitWarning violations ]).
Proof.
  intros inside s'. subst inside s'.
  unfold checkWorkspaceLimits, workspaceLimits.
  pose proof (axisViolation_nil "x" (RobotController.x pose)
                {| lo := -400; hi := 400 |}) as Hx.
  pose proof (axisViolation_nil "y" (RobotController.y pose)
                {| lo := -400; hi := 400 |}) as Hy.
  pose proof (axisViolation_nil "z" (RobotController.z pose)
                {| lo := 0; hi := 600 |}) as Hz.
  cbn [lo hi] in Hx, Hy, Hz.
  split.
  - intros (Hix & Hiy & Hiz).
    rewrite (proj2 Hx Hix), (proj2 Hy Hiy), (proj2 Hz Hiz). reflexivity.
  - intros Hout.
    destruct (axisViolation "x" _ _ ++ axisViolation "y" _ _
              ++ axisViolation "z" _ _) as [|v vs] eqn:Hv.
    + exfalso. apply Hout.
      apply app_eq_nil in Hv; destruct Hv as [Hvx Hv].
      apply app_eq_nil in Hv; destruct Hv as [Hvy Hvz].
      repeat split; first [apply Hx | apply Hy | apply Hz]; assumption.
    + cbn. repeat split.
      exists (v :: vs). split; [discriminate|].
      now rewrite <- app_assoc.
Qed.

(** X9 for a pose 500 mm out in x, at the state after construction. *)
Lemma checkWorkspaceLimits_box_witness :
  fst (checkWorkspaceLimits
         {| RobotController.x := 500; RobotController.y := 0;
            RobotController.z := 100; RobotController.rx := 0;
            RobotController.ry := 0; RobotController.rz := 0 |}
         0 (new 0)) = false.
Proof.
  apply (proj2 (checkWorkspaceLimits_box
                  {| RobotController.x := 500; RobotController.y := 0;
                     RobotController.z := 100; RobotController.rx := 0;
                     RobotController.ry := 0; RobotController.rz := 0 |}
                  0 (new 0))).
  cbn [RobotController.x RobotController.y RobotController.z]. lra.
Defined.

(** X10.  [checkVelocityLimits] returns [true], and changes nothing, when
    each of the six velocities is within the limit of its joint in
    magnitude.  When one exceeds its limit it returns [false] and makes a
    protective stop, and that is all: unlike the joint-limit check it
    records nothing in the safety status and emits no warning. *)
Theorem checkVelocityLimits_effect (v1 v2 v3 v4 v5 v6 : R) (now : Z)
    (s : System) :
  let velocities := [v1; v2; v3; v4; v5; v6] in
  let s' := snd (checkVelocityLimits velocities now s) in
  (Forall2 (fun v limit => Rabs v <= limit) velocities velocityLimits ->
   checkVelocityLimits velocities now s = (true, s))
  /\ (~ Forall2 (fun v limit => Rabs v <= limit) velocities velocityLimits ->
      fst (checkVelocityLimits velocities now s) = false
      /\ RobotController.targetJoints (controller s')
         = RobotController.currentJoints (controller s)
      /\ safetyStatus s' = safetyStatus s
      /\ events s'
         = events s ++ [ProtectiveStop "Velocity limit violation" now]).
Proof.
  intros velocities s'. subst velocities s'.
  unfold checkVelocityLimits, velocityViolations, velocityLimits.
  cbn [combine seq flat_map fst snd JS.get nth_error JS.abs JS.gt JS.cmp
       JS.lift1].
  split.
  - intros H.
    repeat match goal with
      | H : Forall2 _ (_ :: _) (_ :: _) |- _ =>
          apply Forall2_cons_iff in H; destruct H as [? H]
      end.
    js_eval. reflexivity.
  - intros Hout.
    match goal with
    | |- context [match ?l with [] => _ | _ :: _ => _ end] =>
        destruct l as [|w ws] eqn:Hv
    end.
    + exfalso. apply Hout.
      repeat match type of Hv with
        | (if JS.Rltb ?a ?b then _ else _) ++ _ = [] =>
            destruct (JS.Rltb a b) eqn:?; [discriminate|];
            cbn [app] in Hv
        end.
      js_hyps. repeat (apply Forall2_cons; [assumption|]).
      apply Forall2_nil.
    + cbn. repeat split.
Qed.

(** X10 for joint 1 at 3 rad/s, above its limit of 2 rad/s. *)
Lemma checkVelocityLimits_effect_witness :
  fst (checkVelocityLimits [3; 0; 0; 0; 0; 0] 0 (new 0)) = false.
Proof.
  apply (proj2 (checkVelocityLimits_effect 3 0 0 0 0 0 0 (new 0))).
  intros H. apply Forall2_cons_iff in H. destruct H as [H _].
  rewrite Rabs_pos_eq in H; lra.
Defined.

End CheckProperties.

(** ** The safety cycle *)

Section CycleProperties.

Import SafetyMonitor.

Lemma steady_refl (s : System) : Invariants.steady s s.
Proof.
  unfold Invariants.steady. repeat split; auto.
  exists []. now rewrite app_nil_r.
Qed.

Lemma steady_trans (s1 s2 s3 : System) :
  Invariants.steady s1 s2 -> Invariants.steady s2 s3 ->
  Invariants.steady s1 s3.
Proof.
  unfold Invariants.steady.
  intros (Hc & Hp & Hn & Hm & Ha & He & Hd & Hv & Ht & a1 & Hev)
         (Hc' & Hp' & Hn' & Hm' & Ha' & He' & Hd' & Hv' & Ht' & a2 & Hev').
  repeat split; try congruence; auto.
  - destruct Ht' as [Ht'|Ht']; [|right; congruence].
    destruct Ht as [Ht|Ht]; [left|right]; congruence.
  - exists (a1 ++ a2). rewrite Hev', Hev. now rewrite app_assoc.
Qed.

Lemma steady_protectiveStop (reason : string) (now : Z) (s : System) :
  Invariants.steady s (triggerProtectiveStop reason now s).
Proof.
  unfold Invariants.steady. cbn. repeat split; auto.
  eexists; reflexivity.
Qed.

Lemma steady_checkJointLimits (joints : list R) (now : Z) (s : System) :
  Invariants.steady s (snd (checkJointLimits joints now s)).
Proof.
  unfold checkJointLimits.
  destruct (jointViolations joints); [apply steady_refl|].
  unfold Invariants.steady. cbn. repeat split; auto.
  rewrite <- app_assoc. eexists; reflexivity.
Qed.

Lemma steady_checkWorkspaceLimits (pose : RobotController.Pose) (now : Z)
    (s : System) :
  Invariants.steady s (snd (checkWorkspaceLimits pose now s)).
Proof.
  unfold checkWorkspaceLimits, workspaceLimits.
  destruct (_ ++ _); [apply steady_refl|].
  unfold Invariants.steady. cbn. repeat split; auto.
  rewrite <- app_assoc. eexists; reflexivity.
Qed.

Lemma emergencyStop_frame (c : RobotController.Controller) :
  RobotController.endEffectorPose (RobotController.emergencyStop c)
  = RobotController.endEffectorPose c
  /\ RobotController.isConnected (RobotController.emergencyStop c)
     = RobotController.isConnected c
  /\ RobotController.simulationMode (RobotController.emergencyStop c)
     = RobotController.simulationMode c.
Proof.
  unfold RobotController.emergencyStop; simpl.
  destruct (RobotController.ethercatMaster c);
    destruct (RobotController.simulationMode c) eqn:Hsim;
    simpl; rewrite ?Hsim; repeat split; reflexivity.
Qed.

Lemma steady_checkCollision (random : R) (now : Z) (s : System) :
  Invariants.steady s (snd (checkCollision random now s)).
Proof.
  unfold checkCollision.
  destruct (JS.Rltb 0.0005 (random * 0.001)); [|apply steady_refl].
  unfold Invariants.steady.
  cbn [snd emit triggerEmergencyStop set_safetyStatus set_controller
       set_collisionDetected set_emergencyStopped controller safetyStatus
       events isActive emergencyStopped collisionDetected].
  rewrite emergencyStop_currentJoints, emergencyStop_targetJoints,
    emergencyStop_isMoving.
  destruct (emergencyStop_frame (controller s)) as (-> & -> & ->).
  repeat split; auto; try discriminate.
  rewrite <- app_assoc. eexists; reflexivity.
Qed.

Lemma steady_performSafetyCheck (random : R) (now : Z) (s : System) :
  Invariants.steady s (performSafetyCheck random now s).
Proof.
  unfold performSafetyCheck.
  destruct (negb (isActive (safetyStatus s))); [apply steady_refl|].
  eapply steady_trans; [apply steady_checkJointLimits|].
  eapply steady_trans; [apply steady_checkWorkspaceLimits|].
  eapply steady_trans; [apply steady_checkCollision|].
  unfold Invariants.steady. cbn. repeat split; auto.
  exists []. now rewrite app_nil_r.
Qed.

(** X11.  Whatever the state, the time and the random draw, a safety
    cycle never changes the current joints, the pose, the connection or
    whether the monitor is active; never clears the emergency or the
    collision flag; never starts a motion; leaves the target as it was or
    freezes it to the current joints; and only adds events.  The same
    holds over any number of cycles, so nothing but [reset] clears a
    flag.  A monitor that is switched off changes nothing at all. *)
Theorem performSafetyCheck_steady (s : System) :
  (forall draws : list (R * Z),
      Invariants.steady s
        (fold_left (fun s d => performSafetyCheck (fst d) (snd d) s)
                   draws s))
  /\ (isActive (safetyStatus s) = false ->
      forall random now, performSafetyCheck random now s = s).
Proof.
  split.
  - intros draws. revert s. induction draws as [|d draws IH]; intros s.
    + apply steady_refl.
    + cbn [fold_left]. eapply steady_trans; [|apply IH].
      apply steady_performSafetyCheck.
  - intros Hoff random now. unfold performSafetyCheck. now rewrite Hoff.
Qed.

(** X11 for a monitor switched off in a state whose joint 1 is beyond
    its limit: the cycle does not see it. *)
Lemma performSafetyCheck_steady_witness :
  performSafetyCheck 0.75 0
    (setActive false
       (set_controller
          (RobotController.set_currentJoints [3; 0; 0; 0; 0; 0]
             RobotController.new) (new 0)))
  = setActive false
      (set_controller
         (RobotController.set_currentJoints [3; 0; 0; 0; 0; 0]
            RobotController.new) (new 0)).
Proof.
  apply (proj2 (performSafetyCheck_steady
                  (setActive false
                     (set_controller
                        (RobotController.set_currentJoints
                           [3; 0; 0; 0; 0; 0] RobotController.new)
                        (new 0))))).
  reflexivity.
Defined.

(** X12.  When the monitor is active and one of the current joints is
    outside its soft band, then after the safety cycle, whatever the
    random draw, the target equals the current joints, the violations of
    the current joints are recorded, and the protective stop for the
    joint limit has been emitted.  The bounds of the band are the doubles
    [limit.min + limit.margin] and [limit.max - limit.margin] the code
    compares with: for joint 1 the upper one is 2.9200000000000004. *)
Theorem performSafetyCheck_holds (random : R) (now : Z) (s : System)
    (i : nat) (limit : JointLimit) (q : R) :
  isActive (safetyStatus s) = true ->
  nth_error jointLimits i = Some limit ->
  JS.get (RobotController.currentJoints (controller s)) i = Some q ->
  q < safeMin limit \/ safeMax limit < q ->
  let s' := performSafetyCheck random now s in
  RobotController.targetJoints (controller s')
  = RobotController.currentJoints (controller s')
  /\ RobotController.currentJoints (controller s')
     = RobotController.currentJoints (controller s)
  /\ limitViolations (safetyStatus s')
     = jointViolations (RobotController.currentJoints (controller s))
  /\ In (ProtectiveStop "Joint limit violation" now) (events s').
Proof.
  intros Hactive Hlimit Hq Hout s'. subst s'.
  unfold performSafetyCheck. rewrite Hactive. cbn [negb].
  unfold RobotController.getCurrentJoints,
    RobotController.getEndEffectorPose.
  set (joints := RobotController.currentJoints (controller s)).
  set (s1 := snd (checkJointLimits joints now s)).
  assert (Hv : jointViolations joints <> []).
  { unfold jointViolations. intros Hnil.
    assert (Hin : In (i, limit) (combine (seq 0 6) jointLimits))
      by exact (in_combine_seq jointLimits 0 i limit Hlimit).
    pose proof (jointViolation_outside joints i limit q Hq Hout) as Hj.
    assert (Hmem : In {| joint := i + 1;
                         value := Some q;
                         limit := if JS.Rltb q (safeMin limit)
                                  then Min else Max;
                         safeValue :=
                           if JS.Rltb q (safeMin limit)
                           then safeMin limit
                           else safeMax limit |}
                      (flat_map
                         (fun p => jointViolation joints (fst p) (snd p))
                         (combine (seq 0 6) jointLimits))).
    { apply in_flat_map. exists (i, limit). split; [exact Hin|].
      cbn [fst snd]. rewrite Hj. now left. }
    rewrite Hnil in Hmem. contradiction. }
  assert (H1 : RobotController.targetJoints (controller s1) = joints
               /\ RobotController.currentJoints (controller s1) = joints
               /\ limitViolations (safetyStatus s1) = jointViolations joints
               /\ In (ProtectiveStop "Joint limit violation" now)
                     (events s1)).
  { subst s1. unfold checkJointLimits.
    destruct (jointViolations joints) as [|v vs]; [contradiction|].
    cbn. repeat split.
    apply in_or_app; left. apply in_or_app; right. now left. }
  destruct H1 as (Ht1 & Hc1 & Hl1 & He1).
  set (s2 := snd (checkWorkspaceLimits
                    (RobotController.endEffectorPose (controller s))
                    now s1)).
  assert (H2 : RobotController.targetJoints (controller s2) = joints
               /\ RobotController.currentJoints (controller s2) = joints
               /\ limitViolations (safetyStatus s2) = jointViolations joints
               /\ In (ProtectiveStop "Joint limit violation" now)
                     (events s2)).
  { subst s2. unfold checkWorkspaceLimits, workspaceLimits.
    destruct (_ ++ _); [cbn [snd]; auto|].
    cbn [snd emit triggerProtectiveStop set_controller controller
         safetyStatus events RobotController.set_targetJoints
         RobotController.targetJoints RobotController.currentJoints].
    repeat split; auto.
    apply in_or_app; left. apply in_or_app; now left. }
  destruct H2 as (Ht2 & Hc2 & Hl2 & He2).
  unfold checkCollision.
  destruct (JS.Rltb 0.0005 (random * 0.001)).
  - cbn [snd emit triggerEmergencyStop set_safetyStatus set_controller
         set_collisionDetected set_emergencyStopped set_lastCheckTime
         controller safetyStatus events limitViolations].
    rewrite emergencyStop_targetJoints, emergencyStop_currentJoints, Hc2.
    repeat split; auto.
    apply in_or_app; left. apply in_or_app; now left.
  - cbn [snd set_safetyStatus set_lastCheckTime controller safetyStatus
         events limitViolations].
    rewrite Ht2, Hc2. repeat split; auto.
Qed.

(** X12 for joint 1 at 2.95 rad, inside the hard and outside the soft
    limit, with a draw that also makes the collision check fire. *)
Lemma performSafetyCheck_holds_witness :
  let s := set_controller
             (RobotController.set_currentJoints [2.95; 0; 0; 0; 0; 0]
                RobotController.new) (new 0) in
  RobotController.targetJoints (controller (performSafetyCheck 0.75 5 s))
  = RobotController.currentJoints (controller (performSafetyCheck 0.75 5 s)).
Proof.
  intros s.
  apply (performSafetyCheck_holds 0.75 5 s 0
           {| min := -2.97; max := 2.97; margin := 0.05 |} 2.95).
  - reflexivity.
  - reflexivity.
  - reflexivity.
  - apply joint_1_beyond; lra.
Defined.

(** X13.  A joint check that passes does not clear the violations an
    earlier failing check recorded, nor does it restore the target that
    check froze.  [reset] clears the violations and both flags, and
    nothing else: the controller, its frozen target included, and the
    active switch stay as they are. *)
Theorem violations_stay_until_reset (bad good : list R) (now later : Z)
    (s : System) :
  jointViolations bad <> [] ->
  jointViolations good = [] ->
  let s1 := snd (checkJointLimits bad now s) in
  let s2 := snd (checkJointLimits good later s1) in
  limitViolations (safetyStatus s2) = jointViolations bad
  /\ RobotController.targetJoints (controller s2)
     = RobotController.currentJoints (controller s)
  /\ limitViolations (safetyStatus (reset s2)) = []
  /\ emergencyStopped (safetyStatus (reset s2)) = false
  /\ collisionDetected (safetyStatus (reset s2)) = false
  /\ controller (reset s2) = controller s2
  /\ isActive (safetyStatus (reset s2)) = isActive (safetyStatus s2)
  /\ events (reset s2) = events s2 ++ [Reset].
Proof.
  intros Hbad Hgood s1 s2. subst s2 s1.
  unfold checkJointLimits. rewrite Hgood.
  destruct (jointViolations bad) as [|v vs]; [contradiction|].
  cbn. repeat split.
Qed.

(** X13 with joint 1 at 2.95 rad for the failing check and all joints at
    zero for the passing one. *)
Lemma violations_stay_until_reset_witness :
  limitViolations
    (safetyStatus
       (snd (checkJointLimits [0; 0; 0; 0; 0; 0] 1
               (snd (checkJointLimits [2.95; 0; 0; 0; 0; 0] 0 (new 0))))))
  = jointViolations [2.95; 0; 0; 0; 0; 0].
Proof.
  apply (violations_stay_until_reset [2.95; 0; 0; 0; 0; 0]
           [0; 0; 0; 0; 0; 0] 0 1 (new 0)).
  - intros Hnil.
    pose proof (jointViolation_outside [2.95; 0; 0; 0; 0; 0] 0
                  {| min := -2.97; max := 2.97; margin := 0.05 |} 2.95
                  eq_refl (joint_1_beyond 2.95 ltac:(lra))) as Hj.
    unfold jointViolations, jointLimits in Hnil.
    cbn [combine seq flat_map fst snd] in Hnil.
    rewrite Hj in Hnil. discriminate.
  - apply jointViolations_inside. repeat constructor; lra.
Defined.

End CycleProperties.

(** ** Movement time *)

Section TimingProperties.

Import MotionPlanner.

Lemma maxDisplacement_fold (startJoints endJoints : list R)
    (indices : list nat) (acc : R) :
  (forall i, In i indices ->
             (i < length startJoints)%nat /\ (i < length endJoints)%nat) ->
  exists m,
    fold_left
      (fun maxDisplacement i =>
         let displacement :=
           JS.abs (JS.sub (JS.get endJoints i) (JS.get startJoints i)) in
         JSMath.max maxDisplacement displacement)
      indices (Some acc) = Some m
    /\ acc <= m
    /\ (forall i, In i indices ->
                  Rabs (nth i endJoints 0 - nth i startJoints 0) <= m)
    /\ (forall bound,
           acc <= bound ->
           (forall i, In i indices ->
                      Rabs (nth i endJoints 0 - nth i startJoints 0)
                      <= bound) ->
           m <= bound).
Proof.
  revert acc; induction indices as [|j rest IH]; intros acc Hlen.
  - exists acc. repeat split; auto; try lra. intros i [].
  - cbn [fold_left]. cbv zeta. unfold JS.get.
    destruct (Hlen j) as [Hs He]; [now left|].
    rewrite (nth_error_nth' endJoints 0 He),
      (nth_error_nth' startJoints 0 Hs).
    cbn [JS.sub JS.abs JSMath.max JS.lift1 JS.lift2].
    destruct (IH (Rmax acc (Rabs (nth j endJoints 0 - nth j startJoints 0))))
      as (m & Hm & Hacc & Hall & Hleast).
    { intros i Hi; apply Hlen; now right. }
    exists m. split; [exact Hm|].
    pose proof (Rmax_l acc (Rabs (nth j endJoints 0 - nth j startJoints 0))).
    pose proof (Rmax_r acc (Rabs (nth j endJoints 0 - nth j startJoints 0))).
    repeat split.
    + lra.
    + intros i [<-|Hi]; [lra | now apply Hall].
    + intros bound Hb Hbound. apply Hleast.
      * apply Rmax_lub; [exact Hb|]. apply Hbound; now left.
      * intros i Hi; apply Hbound; now right.
Qed.

Lemma calculateMovementTime_value (startJoints endJoints : list R)
    (speedPercent : R) :
  (6 <= length startJoints)%nat -> (6 <= length endJoints)%nat ->
  0 < speedPercent ->
  exists duration,
    calculateMovementTime startJoints endJoints speedPercent = Some duration
    /\ 2 <= duration
    /\ (forall i, (i < 6)%nat ->
                  Rabs (nth i endJoints 0 - nth i startJoints 0)
                  <= duration * (speedPercent / 100))
    /\ ((forall i, (i < 6)%nat ->
                   Rabs (nth i endJoints 0 - nth i startJoints 0)
                   <= 2 * (speedPercent / 100)) ->
        duration = 2).
Proof.
  intros Hs He Hspeed.
  destruct (maxDisplacement_fold startJoints endJoints (seq 0 6) 0)
    as (m & Hfold & Hm0 & Hall & Hleast).
  { intros i Hi; apply in_seq in Hi; lia. }
  unfold calculateMovementTime.
  replace (maxDisplacement startJoints endJoints) with (Some m)
    by (symmetry; exact Hfold).
  unfold JSMath.quotient.
  destruct (Req_dec_T (speedPercent / 100) 0) as [Hz|Hnz]; [lra|].
  cbn [JSMath.max JS.lift2].
  eexists; split; [reflexivity|].
  assert (Hq : m / 1.0 / (speedPercent / 100) * (speedPercent / 100) = m).
  { replace (m / 1.0) with m by lra. field. lra. }
  pose proof (Rmax_l (m / 1.0 / (speedPercent / 100)) 2.0) as Hl.
  pose proof (Rmax_r (m / 1.0 / (speedPercent / 100)) 2.0) as Hr.
  split; [lra|]. split.
  - intros i Hi.
    apply Rle_trans with m; [apply Hall, in_seq; lia|].
    rewrite <- Hq at 1.
    apply Rmult_le_compat_r; [lra | exact Hl].
  - intros Hsmall.
    assert (Hm : m <= 2 * (speedPercent / 100)).
    { apply Hleast; [lra|].
      intros i Hi; apply Hsmall. apply in_seq in Hi; lia. }
    assert (Hle : m / 1.0 / (speedPercent / 100) <= 2.0).
    { apply Rmult_le_reg_r with (speedPercent / 100); [lra|].
      rewrite Hq. lra. }
    rewrite (Rmax_right _ _ Hle). lra.
Qed.

(** X14.  For six start and end joints and a positive speed percentage,
    [calculateMovementTime] returns a duration of at least 2 s within
    which every joint can cover its displacement at [speedPercent / 100]
    rad/s; when no joint has farther to go than 2 s allow, it is exactly
    2 s. *)
Theorem calculateMovementTime_covers (startJoints endJoints : list R)
    (speedPercent : R) :
  (6 <= length startJoints)%nat -> (6 <= length endJoints)%nat ->
  0 < speedPercent ->
  exists duration,
    calculateMovementTime startJoints endJoints speedPercent = Some duration
    /\ 2 <= duration
    /\ (forall i, (i < 6)%nat ->
                  Rabs (nth i endJoints 0 - nth i startJoints 0)
                  <= duration * (speedPercent / 100))
    /\ ((forall i, (i < 6)%nat ->
                   Rabs (nth i endJoints 0 - nth i startJoints 0)
                   <= 2 * (speedPercent / 100)) ->
        duration = 2).
Proof. apply calculateMovementTime_value. Qed.

(** X14 for homing from the initial state at 30 percent. *)
Lemma calculateMovementTime_covers_witness :
  exists duration,
    calculateMovementTime [0; 0; 0; 0; 0; 0] homePosition 30 = Some duration
    /\ 2 <= duration.
Proof.
  destruct (calculateMovementTime_covers [0; 0; 0; 0; 0; 0] homePosition 30)
    as (duration & Heq & Hmin & _).
  - simpl; lia.
  - simpl; lia.
  - lra.
  - exists duration; auto.
Defined.

End TimingProperties.

(** ** Joint trajectories *)

Section TrajectoryProperties.

Import Mathjs MotionPlanner.

Variable inv : Matrix -> option Matrix.

Lemma six_entries (l : list R) :
  length l = 6%nat -> map (fun i => nth i l 0) (seq 0 6) = l.
Proof.
  intros H. do 7 (destruct l as [|? l]; try discriminate). reflexivity.
Qed.

Lemma polynomials_clamped (startJoints endJoints : list R) (duration : R)
    (Minv : Matrix) (indices : list nat) :
  0 < duration ->
  inv (boundaryMatrix duration) = Some Minv ->
  (forall i, In i indices ->
             (i < length startJoints)%nat /\ (i < length endJoints)%nat) ->
  exists polys,
    polynomials inv startJoints endJoints duration indices = Some polys
    /\ forall t,
         (t <= 0 ->
          map (fun poly => poly t) polys
          = map (fun i => nth i startJoints 0) indices)
         /\ (duration <= t ->
             map (fun poly => poly t) polys
             = map (fun i => nth i endJoints 0) indices).
Proof.
  intros Hd Hinv. induction indices as [|j rest IH]; intros Hlen.
  - exists []. split; [reflexivity|]. intros t; split; reflexivity.
  - destruct IH as (polys & Hp & Hclamp).
    { intros i Hi; apply Hlen; now right. }
    destruct (Hlen j) as [Hs He]; [now left|].
    cbn [polynomials]. unfold JS.get.
    rewrite (nth_error_nth' startJoints 0 Hs),
      (nth_error_nth' endJoints 0 He).
    unfold quinticPolynomial. rewrite Hinv, Hp.
    eexists; split; [reflexivity|].
    intros t; split; intros Ht; cbn [map]; f_equal.
    + now apply trajectory_before.
    + now apply Hclamp.
    + now apply trajectory_after.
    + now apply Hclamp.
Qed.

Lemma samples_nth (numPoints : Z) (i : nat) :
  (0 <= numPoints)%Z ->
  (i <= Z.to_nat numPoints)%nat ->
  nth_error (samples numPoints) i = Some i.
Proof.
  intros Hn Hi. unfold samples.
  rewrite Z2Nat.inj_add by lia.
  rewrite nth_error_nth' with (d := 0%nat);
    [f_equal; rewrite seq_nth; simpl; lia|].
  rewrite length_seq. simpl. lia.
Qed.

Lemma ceil_nonneg (v : R) : 0 <= v -> (0 <= JSMath.ceil v)%Z.
Proof.
  intros Hv. destruct (ceil_bounds v) as [Hlo _].
  apply le_IZR. lra.
Qed.

Lemma ceil_integer (n : Z) : JSMath.ceil (IZR n) = n.
Proof.
  unfold JSMath.ceil. rewrite <- opp_IZR.
  rewrite <- (Int_part_spec (IZR (- n)) (- n)) by lra. lia.
Qed.

(** The number of samples is not negative. *)
Lemma sample_count (duration sampleTime : R) :
  0 < duration -> 0 < sampleTime ->
  (0 <= JSMath.ceil (JS.double (duration / sampleTime)))%Z.
Proof.
  intros Hd Hs. apply ceil_nonneg, double_nonneg.
  left. apply Rdiv_lt_0_compat; lra.
Qed.

Lemma samples_length (numPoints : Z) :
  (0 <= numPoints)%Z -> length (samples numPoints) = S (Z.to_nat numPoints).
Proof.
  intros Hn. unfold samples. rewrite length_seq.
  rewrite Z2Nat.inj_add by lia. simpl. lia.
Qed.

Lemma samples_index (numPoints : Z) (i k : nat) :
  nth_error (samples numPoints) i = Some k -> k = i.
Proof.
  unfold samples. intros Hk. pose proof Hk as Hk'.
  apply nth_error_nth with (d := 0%nat) in Hk'.
  rewrite seq_nth in Hk'; [simpl in Hk'; lia|].
  assert (Hlt : nth_error (seq 0 (Z.to_nat (numPoints + 1))) i <> None)
    by congruence.
  apply nth_error_Some in Hlt. now rewrite length_seq in Hlt.
Qed.

Lemma first_sample_time (sampleTime : R) :
  JS.double (INR 0 * sampleTime) = 0.
Proof. simpl INR. rewrite Rmult_0_l. apply double_0. Qed.

Lemma generateJointTrajectory_shape (startJoints endJoints : list R)
    (duration sampleTime : R) (Minv : Matrix) :
  length startJoints = 6%nat -> length endJoints = 6%nat ->
  0 < duration -> 0 < sampleTime ->
  inv (boundaryMatrix duration) = Some Minv ->
  exists trajectory,
    generateJointTrajectory inv startJoints endJoints duration sampleTime
    = Some trajectory
    /\ length trajectory
       = S (Z.to_nat (JSMath.ceil (JS.double (duration / sampleTime))))
    /\ (forall i point,
           nth_error trajectory i = Some point ->
           time point = JS.double (INR i * sampleTime)
           /\ (time point <= 0 -> position point = startJoints)
           /\ (duration <= time point -> position point = endJoints))
    /\ (exists first,
           nth_error trajectory 0 = Some first
           /\ time first = 0 /\ position first = startJoints).
Proof.
  intros Hls Hle Hd Hs Hinv.
  pose proof (sample_count duration sampleTime Hd Hs) as Hcount.
  destruct (polynomials_clamped startJoints endJoints duration Minv
              (seq 0 6) Hd Hinv) as (polys & Hp & Hclamp).
  { intros i Hi; apply in_seq in Hi; lia. }
  rewrite (six_entries _ Hls), (six_entries _ Hle) in Hclamp.
  unfold generateJointTrajectory, JSMath.quotient.
  destruct (Req_dec_T sampleTime 0) as [Hz|_]; [lra|].
  rewrite Hp.
  set (numPoints := JSMath.ceil (JS.double (duration / sampleTime))) in *.
  eexists; split; [reflexivity|].
  split; [rewrite length_map; now apply samples_length|].
  split.
  - intros i point Hpoint.
    rewrite nth_error_map in Hpoint.
    destruct (nth_error (samples numPoints) i) as [k|] eqn:Hk;
      [|discriminate].
    apply samples_index in Hk. subst k. injection Hpoint as <-.
    cbn [time position samplePoint]. split; [reflexivity|].
    split; intros Ht; now apply Hclamp.
  - exists (samplePoint polys sampleTime 0). split.
    + rewrite nth_error_map, samples_nth by lia. reflexivity.
    + cbn [time position samplePoint]. rewrite first_sample_time.
      split; [reflexivity|]. apply Hclamp. lra.
Qed.

(** X15.  For six start and end joints, a positive duration and sample
    time, and once the inversion of the boundary matrix has returned,
    [generateJointTrajectory] returns
    [ceil(duration / sampleTime) + 1] points at the times
    [i * sampleTime], quotient and products being the doubles the code
    computes.  The first point is at time 0 and at the start joints;
    every point at or before time 0 is at the start joints and every
    point at or after [duration] is at the end joints exactly. *)
Theorem generateJointTrajectory_endpoints (startJoints endJoints : list R)
    (duration sampleTime : R) (Minv : Matrix) :
  length startJoints = 6%nat -> length endJoints = 6%nat ->
  0 < duration -> 0 < sampleTime ->
  inv (boundaryMatrix duration) = Some Minv ->
  exists trajectory,
    generateJointTrajectory inv startJoints endJoints duration sampleTime
    = Some trajectory
    /\ length trajectory
       = S (Z.to_nat (JSMath.ceil (JS.double (duration / sampleTime))))
    /\ (forall i point,
           nth_error trajectory i = Some point ->
           time point = JS.double (INR i * sampleTime)
           /\ (time point <= 0 -> position point = startJoints)
           /\ (duration <= time point -> position point = endJoints))
    /\ (exists first,
           nth_error trajectory 0 = Some first
           /\ time first = 0 /\ position first = startJoints).
Proof. apply generateJointTrajectory_shape. Qed.

(** The last sample need not reach the duration.  With the doubles
    2.5700000000000003 for the duration and 0.01 for the sample time the
    quotient rounds to 257, and the product [257 * 0.01] rounds to
    2.5699999999999998: the trajectory has 258 points and the time of its
    last point is before the duration. *)
Lemma sampling_stops_short :
  let duration := JS.double 2.5700000000000003 in
  let sampleTime := JS.double 0.01 in
  0 < sampleTime < duration
  /\ JSMath.ceil (JS.double (duration / sampleTime)) = 257%Z
  /\ JS.double (INR 257 * sampleTime) < duration.
Proof.
  intros duration sampleTime.
  assert (Hd : duration = IZR 5787125521171088 / IZR (2 ^ 51))
    by (unfold duration; double_eval 51%Z 5787125521171088%Z).
  assert (Hs : sampleTime = IZR 5764607523034235 / IZR (2 ^ 59))
    by (unfold sampleTime; double_eval 59%Z 5764607523034235%Z).
  assert (Hq : JS.double (duration / sampleTime)
               = IZR 4521191813414912 / IZR (2 ^ 44)).
  { rewrite Hd, Hs. pow2_literals.
    double_eval 44%Z 4521191813414912%Z. }
  assert (Ht : JS.double (INR 257 * sampleTime)
               = IZR 5787125521171087 / IZR (2 ^ 51)).
  { rewrite Hs. replace (INR 257) with 257 by (rewrite INR_IZR_INZ; reflexivity).
    pow2_literals. double_eval 51%Z 5787125521171087%Z. }
  split; [rewrite Hd, Hs; pow2_literals; lra|].
  split.
  - rewrite Hq. replace (IZR 4521191813414912 / IZR (2 ^ 44)) with (IZR 257)
      by (pow2_literals; lra).
    apply ceil_integer.
  - rewrite Ht, Hd. pow2_literals. lra.
Qed.

Example generateJointTrajectory_stops_short (startJoints endJoints : list R)
    (Minv : Matrix) :
  let duration := JS.double 2.5700000000000003 in
  let sampleTime := JS.double 0.01 in
  length startJoints = 6%nat -> length endJoints = 6%nat ->
  inv (boundaryMatrix duration) = Some Minv ->
  exists trajectory last,
    generateJointTrajectory inv startJoints endJoints duration sampleTime
    = Some trajectory
    /\ length trajectory = 258%nat
    /\ nth_error trajectory 257 = Some last
    /\ time last < duration.
Proof.
  intros duration sampleTime Hls Hle Hinv.
  destruct sampling_stops_short as ([Hs Hlt] & Hcount & Hshort).
  fold duration sampleTime in Hs, Hlt, Hcount, Hshort.
  destruct (generateJointTrajectory_shape startJoints endJoints duration
              sampleTime Minv Hls Hle ltac:(lra) Hs Hinv)
    as (trajectory & Hgen & Hlen & Htimes & _).
  rewrite Hcount in Hlen. change (S (Z.to_nat 257)) with 258%nat in Hlen.
  destruct (nth_error trajectory 257) as [last|] eqn:Hlast.
  - exists trajectory, last. repeat split; auto.
    destruct (Htimes 257%nat last Hlast) as [-> _]. exact Hshort.
  - apply nth_error_None in Hlast. lia.
Qed.

End TrajectoryProperties.

(** X15 for a move of joint 1 from 0 to 1 in 2 s sampled every 0.3 s. *)
Lemma generateJointTrajectory_endpoints_witness :
  exists trajectory first,
    MotionPlanner.generateJointTrajectory
      (fun _ => Some (Reference.boundaryInverse 2))
      [0; 0; 0; 0; 0; 0] [1; 0; 0; 0; 0; 0] 2 0.3 = Some trajectory
    /\ nth_error trajectory 0 = Some first
    /\ MotionPlanner.position first = [0; 0; 0; 0; 0; 0].
Proof.
  destruct (generateJointTrajectory_endpoints
              (fun _ => Some (Reference.boundaryInverse 2))
              [0; 0; 0; 0; 0; 0] [1; 0; 0; 0; 0; 0] 2 0.3
              (Reference.boundaryInverse 2))
    as (trajectory & Heq & _ & _ & first & Hfirst & _ & Hpos).
  - reflexivity.
  - reflexivity.
  - lra.
  - lra.
  - reflexivity.
  - exists trajectory, first. auto.
Defined.

(** ** Cartesian trajectories *)

Section CartesianProperties.

Import MotionPlanner.

(** X16.  For a positive duration and sample time
    [generateCartesianTrajectory] returns
    [ceil(duration / sampleTime) + 1] points at the times
    [i * sampleTime], quotient and products being the doubles the code
    computes.  The first point is at the start position.  The
    interpolation parameter is not clamped: the position of every point
    differs from the end position by the fraction
    [(time - duration) / duration] of the segment, so a point whose time
    is the duration is at the end position and a point sampled after
    the duration lies beyond it. *)
Theorem generateCartesianTrajectory_line (startPose endPose : Kinematics.Pose)
    (duration sampleTime : R) :
  0 < duration -> 0 < sampleTime ->
  exists trajectory first,
    generateCartesianTrajectory startPose endPose duration sampleTime
    = Some trajectory
    /\ length trajectory
       = S (Z.to_nat (JSMath.ceil (JS.double (duration / sampleTime))))
    /\ nth_error trajectory 0 = Some first
    /\ cartesianTime first = 0
    /\ cartesianPosition first = Kinematics.position startPose
    /\ (forall i point,
           nth_error trajectory i = Some point ->
           let overshoot := (cartesianTime point - duration) / duration in
           let startPos := Kinematics.position startPose in
           let endPos := Kinematics.position endPose in
           let pos := cartesianPosition point in
           cartesianTime point = JS.double (INR i * sampleTime)
           /\ Kinematics.x pos - Kinematics.x endPos
              = overshoot * (Kinematics.x endPos - Kinematics.x startPos)
           /\ Kinematics.y pos - Kinematics.y endPos
              = overshoot * (Kinematics.y endPos - Kinematics.y startPos)
           /\ Kinematics.z pos - Kinematics.z endPos
              = overshoot * (Kinematics.z endPos - Kinematics.z startPos)
           /\ (cartesianTime point = duration ->
               pos = Kinematics.position endPose)).
Proof.
  intros Hd Hs.
  pose proof (sample_count duration sampleTime Hd Hs) as Hcount.
  unfold generateCartesianTrajectory, JSMath.quotient.
  destruct (Req_dec_T sampleTime 0) as [Hz|_]; [lra|].
  destruct (Req_dec_T duration 0) as [Hz|_]; [lra|].
  set (numPoints := JSMath.ceil (JS.double (duration / sampleTime))) in *.
  exists (map (cartesianPoint startPose endPose duration sampleTime)
              (samples numPoints)),
    (cartesianPoint startPose endPose duration sampleTime 0).
  split; [reflexivity|].
  split; [rewrite length_map; now apply samples_length|].
  split.
  { rewrite nth_error_map, samples_nth by lia. reflexivity. }
  split.
  { cbn [cartesianPoint cartesianTime]. apply first_sample_time. }
  split.
  { destruct startPose as [[sx sy sz] so].
    cbn [cartesianPoint cartesianPosition Kinematics.position
         Kinematics.x Kinematics.y Kinematics.z].
    rewrite first_sample_time. f_equal; field; lra. }
  intros i point Hpoint.
  rewrite nth_error_map in Hpoint.
  destruct (nth_error (samples numPoints) i) as [k|] eqn:Hk;
    [|discriminate].
  apply samples_index in Hk. subst k. injection Hpoint as <-.
  cbv zeta.
  cbn [cartesianPoint cartesianTime cartesianPosition
       Kinematics.x Kinematics.y Kinematics.z].
  set (t := JS.double (INR i * sampleTime)).
  split; [reflexivity|].
  split; [field; lra|]. split; [field; lra|]. split; [field; lra|].
  intros Ht. rewrite Ht.
  destruct endPose as [[ex ey ez] eo].
  cbn [Kinematics.position Kinematics.x Kinematics.y Kinematics.z].
  f_equal; field; lra.
Qed.

(** X16 for a move of 1 s sampled every 0.4 s. *)
Lemma generateCartesianTrajectory_line_witness :
  let pose x :=
    {| Kinematics.position := {| Kinematics.x := x; Kinematics.y := 0;
                                 Kinematics.z := 0 |};
       Kinematics.orientation := {| Kinematics.rx := 0; Kinematics.ry := 0;
                                    Kinematics.rz := 0 |} |} in
  exists trajectory first,
    generateCartesianTrajectory (pose 0) (pose 1) 1 0.4 = Some trajectory
    /\ nth_error trajectory 0 = Some first
    /\ cartesianPosition first = Kinematics.position (pose 0).
Proof.
  intros pose.
  destruct (generateCartesianTrajectory_line (pose 0) (pose 1) 1 0.4)
    as (trajectory & first & Heq & _ & Hfirst & _ & Hpos & _).
  - lra.
  - lra.
  - exists trajectory, first. auto.
Defined.

(** *** Quaternions *)

(** X17.  [eulerToQuaternion] returns a unit quaternion for every triple
    of angles. *)
Theorem eulerToQuaternion_unit (euler : Kinematics.Euler) :
  let q := eulerToQuaternion euler in
  qw q * qw q + qx q * qx q + qy q * qy q + qz q * qz q = 1.
Proof.
  destruct euler as [rx ry rz]. cbn [eulerToQuaternion qw qx qy qz].
  cbv zeta.
  pose proof (sin2_cos2 (rx / 2)) as Hx.
  pose proof (sin2_cos2 (ry / 2)) as Hy.
  pose proof (sin2_cos2 (rz / 2)) as Hz.
  unfold Rsqr in *.
  set (cx := cos (rx / 2)) in *. set (sx := sin (rx / 2)) in *.
  set (cy := cos (ry / 2)) in *. set (sy := sin (ry / 2)) in *.
  set (cz := cos (rz / 2)) in *. set (sz := sin (rz / 2)) in *.
  transitivity ((sx * sx + cx * cx) * (sy * sy + cy * cy)
                * (sz * sz + cz * cz)); [ring|].
  rewrite Hx, Hy, Hz. ring.
Qed.

Lemma slerp_divisor (dot : R) :
  0 <= dot -> dot <= 0.9995 -> 0 < sin (acos dot).
Proof.
  intros H0 H1. rewrite sin_acos by lra.
  apply sqrt_lt_R0. unfold Rsqr. nra.
Qed.

Lemma quaternionSlerp_ends (q1 q2 : Quaternion) :
  let dot := qw q1 * qw q2 + qx q1 * qx q2 + qy q1 * qy q2
             + qz q1 * qz q2 in
  quaternionSlerp q1 q2 0 = q1
  /\ quaternionSlerp q1 q2 1
     = (if JS.Rltb dot 0
        then {| qw := - qw q2; qx := - qx q2; qy := - qy q2;
                qz := - qz q2 |}
        else q2)
  /\ (Rabs dot <= 0.9995 -> 0 < sin (acos (Rabs dot))).
Proof.
  intros dot.
  assert (Hdiv : Rabs dot <= 0.9995 -> 0 < sin (acos (Rabs dot))).
  { intros H. apply slerp_divisor; [apply Rabs_pos | exact H]. }
  assert (Habs : (if JS.Rltb dot 0 then - dot else dot) = Rabs dot).
  { destruct (JS.Rltb dot 0) eqn:Hneg; js_hyps.
    - rewrite Rabs_left; lra.
    - rewrite Rabs_right; lra. }
  unfold quaternionSlerp. fold dot. cbv zeta. rewrite Habs.
  destruct (JS.Rltb 0.9995 (Rabs dot)) eqn:Hnear; js_hyps.
  - split; [|split; [|exact Hdiv]].
    + destruct q1; cbn [qw qx qy qz]; f_equal; ring.
    + destruct (JS.Rltb dot 0); destruct q1, q2; cbn [qw qx qy qz];
        f_equal; ring.
  - pose proof (Hdiv Hnear) as Hsin.
    pose proof (Rabs_pos dot) as Hpos.
    split; [|split; [|exact Hdiv]].
    + rewrite Rmult_0_r, sin_0, cos_0.
      destruct q1; cbn [qw qx qy qz]; f_equal; field; lra.
    + rewrite Rmult_1_r, cos_acos by lra.
      destruct (JS.Rltb dot 0); destruct q1, q2; cbn [qw qx qy qz];
        f_equal; field; lra.
Qed.

(** X18.  [quaternionSlerp] returns its first argument at [t = 0] and, at
    [t = 1], its second argument, negated when the dot product of the two
    is negative.  In the branch that divides by [sin(theta_0)] the
    divisor is positive, so the result is never NaN. *)
Theorem quaternionSlerp_endpoints (q1 q2 : Quaternion) :
  let dot := qw q1 * qw q2 + qx q1 * qx q2 + qy q1 * qy q2
             + qz q1 * qz q2 in
  quaternionSlerp q1 q2 0 = q1
  /\ quaternionSlerp q1 q2 1
     = (if JS.Rltb dot 0
        then {| qw := - qw q2; qx := - qx q2; qy := - qy q2;
                qz := - qz q2 |}
        else q2)
  /\ (Rabs dot <= 0.9995 -> 0 < sin (acos (Rabs dot))).
Proof. apply quaternionSlerp_ends. Qed.

(** X18 between the identity and a half turn about the first axis, whose
    dot product is zero. *)
Lemma quaternionSlerp_endpoints_witness :
  let q1 := {| qw := 1; qx := 0; qy := 0; qz := 0 |} in
  let q2 := {| qw := 0; qx := 1; qy := 0; qz := 0 |} in
  quaternionSlerp q1 q2 0 = q1
  /\ 0 < sin (acos (Rabs (1 * 0 + 0 * 1 + 0 * 0 + 0 * 0))).
Proof.
  intros q1 q2.
  destruct (quaternionSlerp_endpoints q1 q2) as (Hstart & _ & Hdiv).
  split; [exact Hstart|]. apply Hdiv. cbn [qw qx qy qz q1 q2].
  replace (1 * 0 + 0 * 1 + 0 * 0 + 0 * 0) with 0 by ring.
  rewrite Rabs_R0. lra.
Defined.

End CartesianProperties.

(** ** Orientations *)

Section OrientationProperties.

Import MotionPlanner Invariants.











End OrientationProperties.

(** ** Limits of a trajectory *)

Section TrajectoryLimitProperties.

Import MotionPlanner.

(** What the loop of [checkTrajectoryLimits] asks of one point: each of
    the first six positions that is there lies within the limits of its
    joint. *)
Lemma checkPointLimits_spec (position : list R) (indices : list nat) :
  (forall i, In i indices -> (i < 6)%nat) ->
  let inside :=
    forall i limits q,
      In i indices ->
      nth_error RobotController.JOINT_LIMITS i = Some limits ->
      JS.get position i = Some q ->
      RobotController.min limits <= q <= RobotController.max limits in
  (checkPointLimits position RobotController.JOINT_LIMITS indices
   = Some true /\ inside)
  \/ (checkPointLimits position RobotController.JOINT_LIMITS indices
      = Some false /\ ~ inside).
Proof.
  induction indices as [|j rest IH]; intros Hlt inside.
  - left. split; [reflexivity|]. intros i limits q [].
  - cbn [checkPointLimits].
    destruct (nth_error RobotController.JOINT_LIMITS j) as [limit|] eqn:Hl.
    2:{ apply nth_error_None in Hl. simpl in Hl.
        specialize (Hlt j (or_introl eq_refl)). lia. }
    destruct (JS.get position j) as [q|] eqn:Hq.
    + cbn [JS.lt JS.gt JS.cmp].
      destruct (JS.Rltb q (RobotController.min limit)) eqn:Hlo;
        [|destruct (JS.Rltb (RobotController.max limit) q) eqn:Hhi];
        cbn [orb]; js_hyps.
      * right. split; [reflexivity|]. intros Hin.
        specialize (Hin j limit q (or_introl eq_refl) Hl Hq). lra.
      * right. split; [reflexivity|]. intros Hin.
        specialize (Hin j limit q (or_introl eq_refl) Hl Hq). lra.
      * destruct IH as [[-> Hin]|[-> Hout]].
        { intros i Hi; apply Hlt; now right. }
        -- left. split; [reflexivity|].
           intros i limits q' [<-|Hi] Hl' Hq'.
           ++ rewrite Hl in Hl'; rewrite Hq in Hq'.
              injection Hl' as <-; injection Hq' as <-. lra.
           ++ now apply (Hin i).
        -- right. split; [reflexivity|]. intros Hin. apply Hout.
           intros i limits q' Hi. apply Hin. now right.
    + cbn [JS.lt JS.gt JS.cmp orb].
      destruct IH as [[-> Hin]|[-> Hout]].
      { intros i Hi; apply Hlt; now right. }
      * left. split; [reflexivity|].
        intros i limits q' [<-|Hi] Hl' Hq'.
        -- rewrite Hq in Hq'. discriminate.
        -- now apply (Hin i).
      * right. split; [reflexivity|]. intros Hin. apply Hout.
        intros i limits q' Hi. apply Hin. now right.
Qed.

Lemma checkPointLimits_true (position : list R) :
  checkPointLimits position RobotController.JOINT_LIMITS (seq 0 6)
  = Some true
  <-> (forall i limits q,
          nth_error RobotController.JOINT_LIMITS i = Some limits ->
          JS.get position i = Some q ->
          RobotController.min limits <= q <= RobotController.max limits).
Proof.
  destruct (checkPointLimits_spec position (seq 0 6)) as [[Heq Hin]|[Heq Hout]].
  { intros i Hi; apply in_seq in Hi; lia. }
  - split; [|intros _; exact Heq].
    intros _ i limits q Hl Hq. apply (Hin i limits q); auto.
    apply in_seq.
    assert (H : nth_error RobotController.JOINT_LIMITS i <> None)
      by congruence.
    apply nth_error_Some in H. simpl in H. lia.
  - split; [rewrite Heq; discriminate|].
    intros Hin. exfalso. apply Hout.
    intros i limits q _. apply Hin.
Qed.

Lemma checkPointLimits_total (position : list R) :
  checkPointLimits position RobotController.JOINT_LIMITS (seq 0 6)
  = Some true
  \/ checkPointLimits position RobotController.JOINT_LIMITS (seq 0 6)
     = Some false.
Proof.
  destruct (checkPointLimits_spec position (seq 0 6)) as [[Heq _]|[Heq _]];
    auto.
  intros i Hi; apply in_seq in Hi; lia.
Qed.

Lemma checkTrajectoryLimits_total (trajectory : list TrajectoryPoint) :
  checkTrajectoryLimits trajectory RobotController.JOINT_LIMITS = Some true
  \/ checkTrajectoryLimits trajectory RobotController.JOINT_LIMITS
     = Some false.
Proof.
  induction trajectory as [|p rest IH]; [now left|].
  cbn [checkTrajectoryLimits].
  destruct (checkPointLimits_total (position p)) as [Hp|Hp]; rewrite Hp.
  - exact IH.
  - now right.
Qed.

Lemma checkTrajectoryLimits_true (trajectory : list TrajectoryPoint) :
  checkTrajectoryLimits trajectory RobotController.JOINT_LIMITS = Some true
  <-> forall point i limits q,
        In point trajectory ->
        nth_error RobotController.JOINT_LIMITS i = Some limits ->
        JS.get (position point) i = Some q ->
        RobotController.min limits <= q <= RobotController.max limits.
Proof.
  induction trajectory as [|p rest IH].
  - split; [intros _ point i limits q []|reflexivity].
  - cbn [checkTrajectoryLimits].
    destruct (checkPointLimits_total (position p)) as [Hp|Hp]; rewrite Hp.
    + rewrite IH. split.
      * intros Hrest point i limits q [<-|Hin].
        -- now apply checkPointLimits_true.
        -- now apply Hrest.
      * intros Hall point i limits q Hin. apply Hall. now right.
    + split; [discriminate|].
      intros Hall. exfalso.
      assert (Htrue : checkPointLimits (position p)
                        RobotController.JOINT_LIMITS (seq 0 6)
                      = Some true).
      { apply checkPointLimits_true. intros i limits q.
        apply Hall. now left. }
      congruence.
Qed.

(** X19.  Against the controller's limits [checkTrajectoryLimits] always
    answers, and answers [true] exactly when, in every point, each of the
    first six positions that is there lies within the limits of its
    joint: a position that is missing passes.  On points that have their
    six positions it answers as [moveJoints] does: [true] exactly when
    [moveJoints] accepts every point. *)
Theorem checkTrajectoryLimits_agrees (trajectory : list TrajectoryPoint) :
  (checkTrajectoryLimits trajectory RobotController.JOINT_LIMITS = Some true
   \/ checkTrajectoryLimits trajectory RobotController.JOINT_LIMITS
      = Some false)
  /\ (checkTrajectoryLimits trajectory RobotController.JOINT_LIMITS
      = Some true
      <-> forall point i limits q,
            In point trajectory ->
            nth_error RobotController.JOINT_LIMITS i = Some limits ->
            JS.get (position point) i = Some q ->
            RobotController.min limits <= q <= RobotController.max limits)
  /\ ((forall point, In point trajectory ->
                     (6 <= length (position point))%nat) ->
      (checkTrajectoryLimits trajectory RobotController.JOINT_LIMITS
       = Some true
       <-> forall point c,
             In point trajectory ->
             fst (RobotController.moveJoints (position point) c)
             = RobotController.Awaiting)).
Proof.
  split; [apply checkTrajectoryLimits_total|].
  split; [apply checkTrajectoryLimits_true|].
  intros Hlen. rewrite checkTrajectoryLimits_true. split.
  - intros Hall point c Hin.
    apply moveJoints_within. intros i limits Hl.
    assert (Hi : (i < 6)%nat).
    { assert (H : nth_error RobotController.JOINT_LIMITS i <> None)
        by congruence.
      apply nth_error_Some in H. exact H. }
    specialize (Hlen point Hin).
    exists (nth i (position point) 0).
    assert (Hq : JS.get (position point) i
                 = Some (nth i (position point) 0))
      by (apply nth_error_nth'; lia).
    split; [exact Hq|]. now apply (Hall point i limits _ Hin Hl).
  - intros Hall point i limits q Hin Hl Hq.
    destruct (moveJoints_accepted (position point) RobotController.new
                (Hall point RobotController.new Hin)) as [Hb _].
    destruct (Hb i limits Hl) as (q' & Hq' & Hbound).
    congruence.
Qed.

(** X19 on a single point with six positions inside the limits, and on a
    point without positions. *)
Lemma checkTrajectoryLimits_agrees_witness :
  let point joints :=
    {| time := 0; position := joints; velocity := []; acceleration := [] |} in
  (forall c,
      fst (RobotController.moveJoints [0.5; 0; 0; 0; 0; 0] c)
      = RobotController.Awaiting)
  /\ checkTrajectoryLimits [point []] RobotController.JOINT_LIMITS
     = Some true.
Proof.
  intros point. split.
  - intros c.
    pose proof (proj2 (proj2 (checkTrajectoryLimits_agrees
                                [point [0.5; 0; 0; 0; 0; 0]]))) as Hmove.
    assert (Hlen : forall p, In p [point [0.5; 0; 0; 0; 0; 0]] ->
                             (6 <= length (position p))%nat)
      by (intros p [<-|[]]; simpl; lia).
    apply (proj1 (Hmove Hlen)) with (point := point [0.5; 0; 0; 0; 0; 0]).
    + cbn [checkTrajectoryLimits checkPointLimits seq position point
           RobotController.JOINT_LIMITS nth_error JS.get JS.lt JS.gt JS.cmp
           RobotController.min RobotController.max].
      js_eval. reflexivity.
    + now left.
  - apply (proj2 (proj1 (proj2 (checkTrajectoryLimits_agrees [point []])))).
    intros p i limits q [<-|[]] _ Hq.
    destruct i; discriminate.
Defined.

End TrajectoryLimitProperties.

(** ** Homing *)

Section HomingProperties.

Import Mathjs MotionPlanner.

Variable inv : Matrix -> option Matrix.




End HomingProperties.


(** ** The solutions of the inverse kinematics *)

Section SolutionProperties.

Import Mathjs Kinematics.

Variable dhParams : list DH.
Variable inv : Matrix -> option Matrix.

Lemma solveForBase_shape (wristCenter : Vec3) (dh1 dh2 dh3 : DH)
    (theta1 : R) :
  (length (solveForBase wristCenter dh1 dh2 dh3 theta1) <= 2)%nat
  /\ Forall (fun solution => nth_error solution 0 = Some theta1)
            (solveForBase wristCenter dh1 dh2 dh3 theta1).
Proof.
  unfold solveForBase. destruct wristCenter as [wx wy wz].
  destruct (JS.Rltb _ _); cbn [map length].
  - split; [lia | constructor].
  - split; [lia | repeat constructor].
Qed.

Lemma solveLastThreeJoints_base (baseSolution : list R)
    (targetMatrix : Matrix) (wristSolutions : list (list R)) :
  solveLastThreeJoints dhParams inv baseSolution targetMatrix
  = Some wristSolutions ->
  exists solution,
    wristSolutions = [solution]
    /\ firstn 3 solution = firstn 3 baseSolution.
Proof.
  unfold solveLastThreeJoints.
  destruct baseSolution as [|t1 [|t2 [|t3 rest]]]; try discriminate.
  destruct (firstn 3 dhParams) as [|dh1 [|dh2 [|dh3 [|dh4 more]]]];
    try discriminate.
  destruct (inv _); [|discriminate].
  intros H; injection H as <-. eexists; split; reflexivity.
Qed.

Lemma collect_base (P : R -> Prop) (baseSolutions : list (list R))
    (targetMatrix : Matrix) (solutions out : list (list R)) :
  Forall (fun solution => exists theta1,
              nth_error solution 0 = Some theta1 /\ P theta1)
         baseSolutions ->
  Forall (fun solution => exists theta1,
              nth_error solution 0 = Some theta1 /\ P theta1)
         solutions ->
  collect dhParams inv baseSolutions targetMatrix solutions = Some out ->
  length out = (length solutions + length baseSolutions)%nat
  /\ Forall (fun solution => exists theta1,
                 nth_error solution 0 = Some theta1 /\ P theta1)
            out.
Proof.
  revert solutions; induction baseSolutions as [|b rest IH];
    intros solutions Hbase Hsol Hout; cbn [collect] in Hout.
  - injection Hout as <-. simpl. split; [lia | exact Hsol].
  - destruct (solveLastThreeJoints dhParams inv b targetMatrix)
      as [w|] eqn:Hw; [|discriminate].
    destruct (solveLastThreeJoints_base b targetMatrix w Hw)
      as (solution & -> & Hfirst).
    inversion Hbase as [|b' rest' (theta1 & Hb & HP) Hrest]; subst.
    destruct (IH (solutions ++ [solution])) as [Hlen Hall];
      [exact Hrest | | exact Hout |].
    + apply Forall_app; split; [exact Hsol|].
      constructor; [|constructor].
      exists theta1. split; [|exact HP].
      destruct b as [|b1 b']; [discriminate|]. injection Hb as ->.
      destruct solution as [|s1 s']; [discriminate|].
      simpl in Hfirst. injection Hfirst as -> _. reflexivity.
    + split; [|exact Hall].
      rewrite Hlen, length_app. simpl. lia.
Qed.

(** X21.  [inverseKinematics] returns at most four solutions, and the
    first joint of each is one of the two base angles
    [atan2(y, x)] and [atan2(y, x) + PI] of the wrist centre. *)
Theorem inverseKinematics_candidates (targetPose : Pose) :
  (length (inverseKinematics dhParams inv targetPose) <= 4)%nat
  /\ forall solution,
       In solution (inverseKinematics dhParams inv targetPose) ->
       exists wristCenter theta1,
         calculateWristCenter dhParams (poseToMatrix targetPose)
         = Some wristCenter
         /\ nth_error solution 0 = Some theta1
         /\ (theta1 = JS.atan2 (y wristCenter) (x wristCenter)
             \/ theta1 = JS.atan2 (y wristCenter) (x wristCenter) + PI).
Proof.
  unfold inverseKinematics, inverseKinematicsTry.
  destruct (calculateWristCenter dhParams (poseToMatrix targetPose))
    as [wc|]; [|split; [simpl; lia | intros s []]].
  destruct (solveFirstThreeJoints dhParams wc) as [bs|] eqn:Hbs;
    [|split; [simpl; lia | intros s []]].
  destruct (collect dhParams inv bs (poseToMatrix targetPose) [])
    as [sols|] eqn:Hc; [|split; [simpl; lia | intros s []]].
  unfold solveFirstThreeJoints in Hbs.
  destruct (nth_error dhParams 0) as [dh1|]; [|discriminate].
  destruct (nth_error dhParams 1) as [dh2|]; [|discriminate].
  destruct (nth_error dhParams 2) as [dh3|]; [|discriminate].
  injection Hbs as <-. cbn [flat_map] in Hc. rewrite app_nil_r in Hc.
  set (base := JS.atan2 (y wc) (x wc)) in *.
  destruct (solveForBase_shape wc dh1 dh2 dh3 base) as [Hl1 Hf1].
  destruct (solveForBase_shape wc dh1 dh2 dh3 (base + PI)) as [Hl2 Hf2].
  destruct (collect_base (fun theta1 => theta1 = base \/ theta1 = base + PI)
              (solveForBase wc dh1 dh2 dh3 base
               ++ solveForBase wc dh1 dh2 dh3 (base + PI))
              (poseToMatrix targetPose) [] sols)
    as [Hlen Hall]; [| constructor | exact Hc |].
  { apply Forall_app; split.
    - eapply Forall_impl; [|exact Hf1]. intros s Hs.
      exists base; split; [exact Hs | now left].
    - eapply Forall_impl; [|exact Hf2]. intros s Hs.
      exists (base + PI); split; [exact Hs | now right]. }
  rewrite length_app in Hlen. simpl in Hlen.
  split.
  - unfold filterValidSolutions.
    pose proof (filter_length_le withinSoftwareBound sols). lia.
  - intros solution Hin. apply filter_In in Hin. destruct Hin as [Hin _].
    rewrite Forall_forall in Hall.
    destruct (Hall solution Hin) as (theta1 & H1 & HP).
    exists wc, theta1. auto.
Qed.

End SolutionProperties.

(** ** The wrist centre *)

Section WristProperties.

Import Mathjs Kinematics.

(** X22.  The wrist centre [calculateWristCenter] finds for the matrix of
    a pose lies at the distance [|d6|] from the position of the pose,
    [d6] being the offset of the last row of the DH table: the third
    column of the rotation that [poseToMatrix] builds is a unit vector. *)
Theorem calculateWristCenter_distance (dhParams : list DH) (pose : Pose)
    (dh6 : DH) :
  nth_error dhParams 5 = Some dh6 ->
  exists wristCenter,
    calculateWristCenter dhParams (poseToMatrix pose) = Some wristCenter
    /\ (x wristCenter - x (position pose))
       * (x wristCenter - x (position pose))
       + (y wristCenter - y (position pose))
         * (y wristCenter - y (position pose))
       + (z wristCenter - z (position pose))
         * (z wristCenter - z (position pose))
       = d dh6 * d dh6.
Proof.
  intros H6. destruct pose as [[px py pz] [ex ey ez]].
  unfold calculateWristCenter. rewrite H6.
  eexists; split; [reflexivity|].
  unfold poseToMatrix.
  cbn [position orientation x y z].
  unfold subtract, scale, set, setBlock3, identity, multiply, columns,
    column, dot, get.
  cbn [map seq length nth combine fold_right fst snd Nat.eqb Nat.ltb
       Nat.leb andb].
  pose proof (sin2_cos2 ex) as Hx.
  pose proof (sin2_cos2 ey) as Hy.
  pose proof (sin2_cos2 ez) as Hz.
  unfold Rsqr in *.
  set (cx := cos ex) in *. set (sx := sin ex) in *.
  set (cy := cos ey) in *. set (sy := sin ey) in *.
  set (cz := cos ez) in *. set (sz := sin ez) in *.
  set (d6 := d dh6).
  transitivity (d6 * d6 * (sy * sy * (cx * cx) * (sz * sz + cz * cz)
                           + sx * sx * (sz * sz + cz * cz)
                           + cy * cy * (cx * cx))); [ring|].
  rewrite Hz.
  transitivity (d6 * d6 * (cx * cx * (sy * sy + cy * cy) + sx * sx));
    [ring|].
  rewrite Hy.
  transitivity (d6 * d6 * (sx * sx + cx * cx)); [ring|].
  rewrite Hx. ring.
Qed.

(** X22 for the arm's table, whose last offset is zero. *)
Lemma calculateWristCenter_distance_witness :
  exists wristCenter,
    calculateWristCenter RobotController.DH_PARAMS
      (poseToMatrix
         {| position := {| x := 0.3; y := 0; z := 0.4 |};
            orientation := {| rx := 0; ry := 0; rz := 0 |} |})
    = Some wristCenter.
Proof.
  destruct (calculateWristCenter_distance RobotController.DH_PARAMS
              {| position := {| x := 0.3; y := 0; z := 0.4 |};
                 orientation := {| rx := 0; ry := 0; rz := 0 |} |}
              (Build_DH 0 (- PI / 2) 0 0))
    as (wristCenter & Heq & _).
  - reflexivity.
  - exists wristCenter. exact Heq.
Defined.

End WristProperties.

(** ** S-curve profiles *)

Section ProfileProperties.

Import MotionPlanner.

Lemma segments_shape (distance maxVel maxAcc maxJerk : R) :
  0 <= distance -> 0 < maxVel -> 0 < maxAcc -> 0 < maxJerk ->
  exists seg,
    segments distance maxVel maxAcc maxJerk = Some seg
    /\ t1 seg = maxAcc / maxJerk
    /\ t3 seg = t1 seg /\ t5 seg = t1 seg /\ t7 seg = t1 seg
    /\ t6 seg = t2 seg
    /\ 0 <= t1 seg + t2 seg
    /\ 0 <= t4 seg
    /\ (maxAcc * (maxAcc / maxJerk) ^ 2 + maxVel * (maxVel / maxAcc)
        <= distance ->
        t2 seg = maxVel / maxAcc).
Proof.
  intros Hd Hv Ha Hj.
  assert (Hta : 0 < maxAcc / maxJerk) by (apply Rdiv_lt_0_compat; lra).
  assert (Htv : 0 < maxVel / maxAcc) by (apply Rdiv_lt_0_compat; lra).
  unfold segments, JSMath.quotient.
  destruct (Req_dec_T maxJerk 0) as [Hz|_]; [lra|].
  destruct (Req_dec_T maxAcc 0) as [Hz|_]; [lra|].
  cbv zeta.
  destruct (JS.Rleb _ distance) eqn:Hfar; js_hyps.
  - destruct (Req_dec_T maxVel 0) as [Hz|_]; [lra|].
    eexists; split; [reflexivity|]. cbn [t1 t2 t3 t4 t5 t6 t7].
    repeat split; try reflexivity; try lra.
    unfold Rdiv at 1. apply Rmult_le_pos; [lra|].
    left. apply Rinv_0_lt_compat. lra.
  - unfold JS.sqrt.
    assert (Hprod : 0 <= maxAcc * distance)
      by (apply Rmult_le_pos; lra).
    rewrite (proj2 (JSFacts.Rltb_false _ _)) by lra.
    eexists; split; [reflexivity|]. cbn [t1 t2 t3 t4 t5 t6 t7].
    repeat split; try reflexivity; try lra.
    pose proof (sqrt_pos (maxAcc * distance)) as Hvm.
    assert (0 <= sqrt (maxAcc * distance) / maxAcc).
    { unfold Rdiv. apply Rmult_le_pos; [exact Hvm|].
      left. apply Rinv_0_lt_compat. lra. }
    lra.
Qed.


(** X23.  For positive limits the durations of
    [generateSCurveTrajectory] exist: the first, third, fifth and seventh
    are [maxAcc / maxJerk], which is positive, the sixth is the second,
    the fourth is not negative and the total is positive.  The loop body
    at time 0 gives the start position at rest, and at the end of the
    first segment the acceleration [direction * maxAcc], the velocity
    [direction * maxAcc^2 / (2 * maxJerk)] and the position
    [startPos + direction * maxAcc^3 / (6 * maxJerk^2)]. *)
Theorem profilePoint_start (startPos endPos maxVel maxAcc maxJerk : R) :
  0 < maxVel -> 0 < maxAcc -> 0 < maxJerk ->
  exists seg,
    segments (Rabs (endPos - startPos)) maxVel maxAcc maxJerk = Some seg
    /\ (t1 seg = maxAcc / maxJerk /\ 0 < t1 seg
        /\ t3 seg = t1 seg /\ t5 seg = t1 seg /\ t7 seg = t1 seg
        /\ t6 seg = t2 seg /\ 0 <= t4 seg /\ 0 < totalTime seg)
    /\ let direction := JSMath.sign (endPos - startPos) in
       let point := profilePoint startPos endPos direction maxVel maxAcc
                      maxJerk seg in
       (profilePosition (point 0) = startPos
        /\ profileVelocity (point 0) = 0
        /\ profileAcceleration (point 0) = 0)
       /\ (profilePosition (point (t1 seg))
           = startPos + direction * (maxAcc ^ 3 / (6 * maxJerk ^ 2))
           /\ profileVelocity (point (t1 seg))
              = direction * (maxAcc ^ 2 / (2 * maxJerk))
           /\ profileAcceleration (point (t1 seg)) = direction * maxAcc).
Proof.
  intros Hv Ha Hj.
  destruct (segments_shape (Rabs (endPos - startPos)) maxVel maxAcc maxJerk)
    as (seg & Hseg & H1 & H3 & H5 & H7 & H6 & H12 & H4 & _);
    [apply Rabs_pos | lra | lra | lra |].
  assert (Hta : 0 < t1 seg)
    by (rewrite H1; apply Rdiv_lt_0_compat; lra).
  assert (Htotal : 0 < totalTime seg) by (unfold totalTime; lra).
  exists seg. split; [exact Hseg|].
  split; [repeat split; auto; lra|]. cbv zeta.
  set (direction := JSMath.sign (endPos - startPos)).
  set (point := profilePoint startPos endPos direction maxVel maxAcc
                  maxJerk seg).
  assert (Hfirst : forall t,
             t <= t1 seg ->
             point t
             = {| profileTime := t;
                  profilePosition :=
                    startPos + direction * (maxJerk * t ^ 3 / 6);
                  profileVelocity := direction * (maxJerk * t ^ 2 / 2);
                  profileAcceleration := direction * (maxJerk * t) |}).
  { intros t Ht. unfold point, profilePoint. destruct seg; cbn [t1] in *.
    rewrite (proj2 (JSFacts.Rleb_true _ _)) by lra. reflexivity. }
  split.
  - rewrite (Hfirst 0) by lra.
    cbn [profilePosition profileVelocity profileAcceleration].
    split; [field|]. split; [field | ring].
  - rewrite (Hfirst (t1 seg)) by lra.
    cbn [profilePosition profileVelocity profileAcceleration].
    rewrite H1.
    repeat split; f_equal; field; lra.
Qed.

(** X23 for a move from 0 to 10 with unit limits. *)
Lemma profilePoint_start_witness :
  exists seg,
    segments (Rabs (10 - 0)) 1 1 1 = Some seg
    /\ t1 seg = 1 / 1
    /\ profilePosition
         (profilePoint 0 10 (JSMath.sign (10 - 0)) 1 1 1 seg 0)
       = 0.
Proof.
  destruct (profilePoint_start 0 10 1 1 1)
    as (seg & Hseg & (Ht1 & _) & (Hpos & _) & _); [lra | lra | lra |].
  exists seg. auto.
Defined.



End ProfileProperties.

(** ** Forward kinematics *)

Section ForwardProperties.

Import Mathjs Kinematics Invariants.

Variable dhParams : list DH.

Lemma turned_multiply (delta : R) (S S0 : Matrix) (a alpha d theta : R) :
  turned delta S S0 ->
  turned delta (multiply S (buildDHMatrix a alpha d theta))
               (multiply S0 (buildDHMatrix a alpha d theta)).
Proof.
  intros (m11 & m12 & m13 & m14 & m21 & m22 & m23 & m24 & m31 & m32 & m33
          & m34 & m41 & m42 & m43 & m44 & -> & ->).
  unfold buildDHMatrix, multiply, columns, column, dot.
  cbn [map seq length nth combine fold_right fst snd].
  unfold turned. do 16 eexists. split; [reflexivity|].
  repeat (f_equal; try ring).
Qed.

Lemma turned_links (delta : R) (joints joints0 : list R)
    (indices : list nat) :
  (forall i, In i indices -> JS.get joints i = JS.get joints0 i) ->
  forall S S0 T0,
    turned delta S S0 ->
    links dhParams S0 joints0 indices = Some T0 ->
    exists T, links dhParams S joints indices = Some T /\ turned delta T T0.
Proof.
  induction indices as [|i rest IH]; intros Hsame S S0 T0 Hturned Hlinks.
  - injection Hlinks as <-. now exists S.
  - cbn [links] in *. rewrite (Hsame i) by now left.
    destruct (nth_error dhParams i) as [dh|]; [|discriminate].
    destruct (JS.get joints0 i) as [q|]; [|discriminate].
    apply (IH (fun j Hj => Hsame j (or_intror Hj)) _ _ _
              (turned_multiply delta S S0 _ _ _ _ Hturned) Hlinks).
Qed.

Lemma turned_first (delta q1 : R) (dh1 : DH) :
  a dh1 = 0 -> alpha dh1 = 0 ->
  turned delta
    (multiply (identity 4)
       (buildDHMatrix (a dh1) (alpha dh1) (d dh1)
                      (theta dh1 + (q1 + delta))))
    (multiply (identity 4)
       (buildDHMatrix (a dh1) (alpha dh1) (d dh1) (theta dh1 + q1))).
Proof.
  intros -> ->.
  replace (theta dh1 + (q1 + delta)) with (theta dh1 + q1 + delta) by ring.
  unfold buildDHMatrix.
  rewrite (cos_plus (theta dh1 + q1) delta),
    (sin_plus (theta dh1 + q1) delta), cos_0, sin_0.
  unfold identity, multiply, columns, column, dot.
  cbn [map seq length nth combine fold_right fst snd Nat.eqb].
  unfold turned. do 16 eexists. split; [reflexivity|].
  repeat (f_equal; try ring).
Qed.

Lemma forwardKinematics_turned (dh1 : DH) (q1 delta : R) (rest : list R)
    (pose0 : Pose) :
  nth_error dhParams 0 = Some dh1 ->
  a dh1 = 0 -> alpha dh1 = 0 ->
  forwardKinematics dhParams (q1 :: rest) = Some pose0 ->
  exists pose,
    forwardKinematics dhParams ((q1 + delta) :: rest) = Some pose
    /\ x (position pose)
       = cos delta * x (position pose0) - sin delta * y (position pose0)
    /\ y (position pose)
       = sin delta * x (position pose0) + cos delta * y (position pose0)
    /\ z (position pose) = z (position pose0).
Proof.
  intros H1 Ha Halpha. unfold forwardKinematics.
  change (seq 0 6) with (0%nat :: seq 1 5).
  cbn [links]. rewrite H1. cbn [JS.get nth_error].
  destruct (links dhParams _ (q1 :: rest) _) as [T0|] eqn:Hlinks;
    [|discriminate].
  intros H; injection H as <-.
  destruct (turned_links delta ((q1 + delta) :: rest) (q1 :: rest)
              (seq 1 5)) with (3 := Hlinks)
    (S := multiply (identity 4)
            (buildDHMatrix (a dh1) (alpha dh1) (d dh1)
                           (theta dh1 + (q1 + delta))))
    as (T & -> & HT).
  - intros i Hi. apply in_seq in Hi. destruct i; [lia | reflexivity].
  - now apply turned_first.
  - eexists; split; [reflexivity|].
    destruct HT as (m11 & m12 & m13 & m14 & m21 & m22 & m23 & m24 & m31
                    & m32 & m33 & m34 & m41 & m42 & m43 & m44 & -> & ->).
    cbn [position x y z]. unfold get. cbn [nth]. auto.
Qed.

(** X26.  When the first row of the DH table has no link length and no
    twist, turning joint 1 by [delta] turns the position that
    [forwardKinematics] returns by [delta] about the vertical axis of the
    base, whatever the other joints and the other rows of the table:
    the height stays the same. *)
Theorem forwardKinematics_base_rotation (dh1 : DH) (q1 delta : R)
    (rest : list R) (pose0 : Pose) :
  nth_error dhParams 0 = Some dh1 ->
  a dh1 = 0 -> alpha dh1 = 0 ->
  forwardKinematics dhParams (q1 :: rest) = Some pose0 ->
  exists pose,
    forwardKinematics dhParams ((q1 + delta) :: rest) = Some pose
    /\ x (position pose)
       = cos delta * x (position pose0) - sin delta * y (position pose0)
    /\ y (position pose)
       = sin delta * x (position pose0) + cos delta * y (position pose0)
    /\ z (position pose) = z (position pose0).
Proof. apply forwardKinematics_turned. Qed.

End ForwardProperties.

Section UprightProperties.

Import Mathjs Kinematics.

Variable inv : Matrix -> option Matrix.

Lemma quarter_turn :
  cos (- PI / 2) = 0 /\ sin (- PI / 2) = -1.
Proof.
  replace (- PI / 2) with (- (PI / 2)) by field.
  rewrite cos_neg, sin_neg, cos_PI2, sin_PI2. split; ring.
Qed.

Ltac matrix_eval :=
  unfold buildDHMatrix;
  rewrite ?(proj1 quarter_turn), ?(proj2 quarter_turn), ?cos_PI2, ?sin_PI2,
    ?cos_0, ?sin_0;
  unfold identity, multiply, columns, column, dot, get;
  cbn [map seq length nth combine fold_right fst snd Nat.eqb].

Ltac matrix_entries := matrix_eval; repeat (f_equal; try lra).

Lemma forwardKinematics_upright (q6 : R) :
  exists pose,
    forwardKinematics RobotController.DH_PARAMS [0; 0; 0; 0; 0; q6]
    = Some pose
    /\ x (position pose) = 0.290
    /\ y (position pose) = 0
    /\ z (position pose) = 0.267 + 0.342 + 0.342.
Proof.
  unfold forwardKinematics, RobotController.DH_PARAMS.
  cbn [links seq nth_error JS.get a alpha d theta].
  rewrite !Rplus_0_l.
  assert (E1 : multiply (identity 4) (buildDHMatrix 0 0 0.267 0)
               = [ [1; 0; 0; 0]; [0; 1; 0; 0]; [0; 0; 1; 0.267];
                   [0; 0; 0; 1] ]) by matrix_entries.
  rewrite E1.
  assert (E2 : multiply [ [1; 0; 0; 0]; [0; 1; 0; 0]; [0; 0; 1; 0.267];
                          [0; 0; 0; 1] ]
                 (buildDHMatrix 0.290 (- PI / 2) 0 0)
               = [ [1; 0; 0; 0.290]; [0; 0; 1; 0]; [0; -1; 0; 0.267];
                   [0; 0; 0; 1] ]) by matrix_entries.
  rewrite E2.
  assert (E3 : multiply [ [1; 0; 0; 0.290]; [0; 0; 1; 0]; [0; -1; 0; 0.267];
                          [0; 0; 0; 1] ]
                 (buildDHMatrix 0 (PI / 2) 0.342 0)
               = [ [1; 0; 0; 0.290]; [0; 1; 0; 0];
                   [0; 0; 1; 0.267 + 0.342]; [0; 0; 0; 1] ])
    by matrix_entries.
  rewrite E3.
  assert (E4 : multiply [ [1; 0; 0; 0.290]; [0; 1; 0; 0];
                          [0; 0; 1; 0.267 + 0.342]; [0; 0; 0; 1] ]
                 (buildDHMatrix 0 (- PI / 2) 0 0)
               = [ [1; 0; 0; 0.290]; [0; 0; 1; 0];
                   [0; -1; 0; 0.267 + 0.342]; [0; 0; 0; 1] ])
    by matrix_entries.
  rewrite E4.
  assert (E5 : multiply [ [1; 0; 0; 0.290]; [0; 0; 1; 0];
                          [0; -1; 0; 0.267 + 0.342]; [0; 0; 0; 1] ]
                 (buildDHMatrix 0 (PI / 2) 0.342 0)
               = [ [1; 0; 0; 0.290]; [0; 1; 0; 0];
                   [0; 0; 1; 0.267 + 0.342 + 0.342]; [0; 0; 0; 1] ])
    by matrix_entries.
  rewrite E5.
  eexists. split; [reflexivity|].
  cbn [position x y z].
  repeat split; matrix_eval; lra.
Qed.

(** X27.  With joints 2 to 5 at zero the arm stands upright:
    [forwardKinematics] puts the end of the arm 0.290 m from the axis of
    the base and 0.951 m high, whatever joints 1 and 6.  For the pose it
    returns there, [inverseKinematics] finds no solution: the solver
    reaches no farther than 0.899 m from the base. *)
Theorem inverseKinematics_misses_upright (q1 q6 : R) :
  exists pose,
    forwardKinematics RobotController.DH_PARAMS [q1; 0; 0; 0; 0; q6]
    = Some pose
    /\ x (position pose) = 0.290 * cos q1
    /\ y (position pose) = 0.290 * sin q1
    /\ z (position pose) = 0.267 + 0.342 + 0.342
    /\ inverseKinematics RobotController.DH_PARAMS inv pose = [].
Proof.
  destruct (forwardKinematics_upright q6) as (pose0 & H0 & Hx0 & Hy0 & Hz0).
  destruct (forwardKinematics_turned RobotController.DH_PARAMS
              (Build_DH 0 0 0.267 0) 0 q1 [0; 0; 0; 0; q6] pose0
              eq_refl eq_refl eq_refl H0)
    as (pose & Hpose & Hx & Hy & Hz).
  rewrite Rplus_0_l in Hpose.
  exists pose. split; [exact Hpose|].
  rewrite Hx0, Hy0 in Hx, Hy. rewrite Hz0 in Hz.
  split; [rewrite Hx; lra|]. split; [rewrite Hy; lra|].
  split; [exact Hz|].
  apply inverseKinematics_far.
  unfold Reference.distanceFromBase. rewrite Hx, Hy, Hz.
  pose proof (sin2_cos2 q1) as Hq. unfold Rsqr in Hq.
  apply Rlt_le_trans with (sqrt (0.95 * 0.95)).
  - rewrite sqrt_square; lra.
  - apply sqrt_le_1_alt. nra.
Qed.

End UprightProperties.

(** X26 for the arm's table: the upright arm turned by 1 rad. *)
Lemma forwardKinematics_base_rotation_witness :
  exists pose,
    Kinematics.forwardKinematics RobotController.DH_PARAMS
      [0 + 1; 0; 0; 0; 0; 0] = Some pose.
Proof.
  destruct (forwardKinematics_upright 0) as (pose0 & H0 & _).
  destruct (forwardKinematics_base_rotation RobotController.DH_PARAMS
              (Kinematics.Build_DH 0 0 0.267 0) 0 1 [0; 0; 0; 0; 0] pose0)
    as (pose & Hpose & _).
  - reflexivity.
  - reflexivity.
  - reflexivity.
  - exact H0.
  - exists pose. exact Hpose.
Defined.

(** ** The writing engine *)

Section WritingProperties.

Import HandwritingEngine Invariants.

Lemma rigid_distance (sx sy c s x1 y1 x0 y0 tx ty : R) :
  sx * sx = 1 -> sy * sy = 1 -> s * s + c * c = 1 ->
  (x1 * sx * c - y1 * sy * s + tx - (x0 * sx * c - y0 * sy * s + tx)) ^ 2
  + (x1 * sx * s + y1 * sy * c + ty - (x0 * sx * s + y0 * sy * c + ty)) ^ 2
  = (x1 - x0) ^ 2 + (y1 - y0) ^ 2.
Proof.
  intros Hx Hy Hr.
  transitivity ((x1 - x0) ^ 2 * (sx * sx) * (s * s + c * c)
                + (y1 - y0) ^ 2 * (sy * sy) * (s * s + c * c)); [ring|].
  rewrite Hx, Hy, Hr. ring.
Qed.

Lemma estimateFrom_map (f : Point -> Point) (trajectory : list Point) :
  (forall p q,
      sqrt ((x (f p) - x (f q)) ^ 2 + (y (f p) - y (f q)) ^ 2
            + (z (f p) - z (f q)) ^ 2)
      = sqrt ((x p - x q) ^ 2 + (y p - y q) ^ 2 + (z p - z q) ^ 2)) ->
  (forall p, speed (f p) = speed p) ->
  forall prevPoint totalTime,
    estimateFrom (option_map f prevPoint) (map f trajectory) totalTime
    = estimateFrom prevPoint trajectory totalTime.
Proof.
  intros Hdist Hspeed.
  induction trajectory as [|point rest IH]; intros prevPoint totalTime.
  - reflexivity.
  - cbn [map estimateFrom].
    rewrite <- (IH (Some point)). cbn [option_map].
    destruct prevPoint as [prev|]; cbn [option_map].
    + now rewrite Hdist, Hspeed.
    + reflexivity.
Qed.

(** X28.  A transform without stretch, that is with no scale or with
    scale factors of magnitude 1, whatever its rotation and translation,
    keeps the number of points, the height, pen state and speed of each
    point, and the time [estimateExecutionTime] gives for the
    trajectory. *)
Theorem applyAffineTransform_rigid (trajectory : list Point)
    (transform : Transform) :
  match scale transform with
  | Some s => fst s * fst s = 1 /\ snd s * snd s = 1
  | None => True
  end ->
  let moved := applyAffineTransform trajectory transform in
  length moved = length trajectory
  /\ map (fun p => (z p, penUp p, speed p)) moved
     = map (fun p => (z p, penUp p, speed p)) trajectory
  /\ estimateExecutionTime moved = estimateExecutionTime trajectory.
Proof.
  intros Hscale moved. unfold moved, applyAffineTransform. cbv zeta.
  set (s := match scale transform with Some s => s | None => (1, 1) end).
  assert (Hs : fst s * fst s = 1 /\ snd s * snd s = 1).
  { unfold s. destruct (scale transform) as [s0|]; [exact Hscale|].
    simpl. lra. }
  destruct Hs as [Hsx Hsy].
  set (r := match rotation transform with Some r => r | None => 0 end).
  set (t := match translation transform with
            | Some t => t | None => (0, 0) end).
  pose proof (sin2_cos2 r) as Hr. unfold Rsqr in Hr.
  split; [apply length_map|]. split.
  - rewrite map_map. reflexivity.
  - unfold estimateExecutionTime.
    apply (estimateFrom_map _ trajectory) with (prevPoint := None).
    + intros p q. cbn [x y z]. f_equal. f_equal.
      apply rigid_distance; assumption.
    + reflexivity.
Qed.


(** X28 for a quarter turn, mirrored, and moved. *)
Lemma applyAffineTransform_rigid_witness :
  let transform := {| scale := Some (-1, 1); rotation := Some (PI / 2);
                      translation := Some (5, 7) |} in
  let trajectory := [ {| x := 0; y := 0; z := 10; penUp := true;
                         speed := 50 |};
                      {| x := 3; y := 4; z := 0; penUp := false;
                         speed := 20 |} ] in
  estimateExecutionTime (applyAffineTransform trajectory transform)
  = estimateExecutionTime trajectory.
Proof.
  intros transform trajectory.
  apply (applyAffineTransform_rigid trajectory transform).
  simpl. lra.
Defined.

Lemma optimizeTrajectory_nonempty (current : Point) (rest : list Point) :
  optimizeTrajectory (current :: rest) <> [].
Proof.
  revert current. induction rest as [|next rest' IH]; intros current.
  - discriminate.
  - change (optimizeTrajectory (current :: next :: rest'))
      with (if penUp current && penUp next
               && JS.Rltb (Rabs (x current - x next)) 0.1
               && JS.Rltb (Rabs (y current - y next)) 0.1
            then optimizeTrajectory (next :: rest')
            else current :: optimizeTrajectory (next :: rest')).
    destruct (_ && _ && _ && _); [apply IH | discriminate].
Qed.

(** X29.  [optimizeTrajectory] returns a trajectory that is no longer
    than the one it is given and made of its points, keeps every
    pen-down point, in order, and keeps the last point. *)
Theorem optimizeTrajectory_keeps (trajectory : list Point) :
  (length (optimizeTrajectory trajectory) <= length trajectory)%nat
  /\ (forall p, In p (optimizeTrajectory trajectory) -> In p trajectory)
  /\ filter (fun p => negb (penUp p)) (optimizeTrajectory trajectory)
     = filter (fun p => negb (penUp p)) trajectory
  /\ (forall d, last (optimizeTrajectory trajectory) d = last trajectory d).
Proof.
  induction trajectory as [|current rest IH].
  - repeat split; auto.
  - destruct IH as (Hlen & Hin & Hdown & Hlast).
    destruct rest as [|next rest'].
    + repeat split; auto.
    + change (optimizeTrajectory (current :: next :: rest'))
        with (if penUp current && penUp next
                 && JS.Rltb (Rabs (x current - x next)) 0.1
                 && JS.Rltb (Rabs (y current - y next)) 0.1
              then optimizeTrajectory (next :: rest')
              else current :: optimizeTrajectory (next :: rest')).
      pose proof (optimizeTrajectory_nonempty next rest') as Hnonempty.
      destruct (penUp current && penUp next
                && JS.Rltb (Rabs (x current - x next)) 0.1
                && JS.Rltb (Rabs (y current - y next)) 0.1) eqn:Hskip.
      * apply andb_true_iff in Hskip. destruct Hskip as [Hskip _].
        apply andb_true_iff in Hskip. destruct Hskip as [Hskip _].
        apply andb_true_iff in Hskip. destruct Hskip as [Hup _].
        split; [cbn [length] in *; lia|].
        split; [intros p Hp; right; now apply Hin|].
        split.
        -- rewrite Hdown. cbn [filter]. rewrite Hup. reflexivity.
        -- intros d. rewrite Hlast. reflexivity.
      * split; [cbn [length] in *; lia|].
        split; [intros p [<-|Hp]; [now left | right; now apply Hin]|].
        split.
        -- cbn [filter]. cbn [filter] in Hdown. rewrite Hdown.
           reflexivity.
        -- intros d.
           destruct (optimizeTrajectory (next :: rest')) as [|o os] eqn:Ho;
             [congruence|].
           change (last (current :: o :: os) d) with (last (o :: os) d).
           rewrite Hlast. reflexivity.
Qed.

End WritingProperties.

Section TextProperties.

Import HandwritingEngine Invariants.

Variable fontData : Ascii.ascii -> option CharData.

Lemma generateCharTrajectory_styled (char : Ascii.ascii)
    (offsetX offsetY : R) (config : Config) :
  Forall (styled config)
         (generateCharTrajectory fontData char offsetX offsetY config).
Proof.
  unfold generateCharTrajectory.
  destruct (fontData char) as [charData|]; [|constructor].
  apply Forall_flat_map. apply Forall_forall. intros stroke _.
  apply Forall_map. apply Forall_forall. intros point _.
  left. repeat split.
Qed.

Lemma lifted_styled (point : Point) (config : Config) :
  styled config (lifted point config).
Proof. right. repeat split. Qed.

Lemma write_styled (chars : list Ascii.ascii) (config : Config) :
  forall trajectory currentX currentY isPenUp out,
    Forall (styled config) trajectory ->
    write fontData chars config trajectory currentX currentY isPenUp
    = Some out ->
    Forall (styled config) out.
Proof.
  induction chars as [|char rest IH];
    intros trajectory currentX currentY isPenUp out Hall Hout;
    cbn [write] in Hout.
  - now injection Hout as <-.
  - destruct (Ascii.eqb char newline); [now apply IH in Hout|].
    destruct (fontData char) as [charData|]; [|now apply IH in Hout].
    cbv zeta in Hout.
    destruct (negb isPenUp && Nat.ltb 0 _).
    + destruct (nth_error trajectory _) as [lastPoint|]; [|discriminate].
      destruct (nth_error (generateCharTrajectory _ _ _ _ _) 0)
        as [firstPoint|]; [|discriminate].
      apply IH in Hout; [exact Hout|].
      repeat (apply Forall_app; split); auto.
      * repeat constructor; apply lifted_styled.
      * apply generateCharTrajectory_styled.
    + apply IH in Hout; [exact Hout|].
      apply Forall_app; split; [exact Hall|].
      apply generateCharTrajectory_styled.
Qed.

(** X30.  Every point of a trajectory [generateTrajectory] returns is
    pen down at the writing depth and speed or pen up at the travel
    height and speed, and a trajectory that is not empty ends with the
    pen lifted.  On a text that begins with a character whose font entry
    has no stroke, such as the blank, followed by a character that has
    one, [generateTrajectory] throws: it looks for the last point of a
    trajectory that is still empty. *)
Theorem generateTrajectory_pen (text : string) (config : Config) :
  (forall trajectory,
      generateTrajectory fontData text config = Some trajectory ->
      Forall (styled config) trajectory
      /\ (trajectory <> [] ->
          exists body lastPoint,
            trajectory = body ++ [lifted lastPoint config]
            /\ nth_error body (length body - 1) = Some lastPoint))
  /\ (forall b c rest blank glyph first stroke more,
         text = String b (String c rest) ->
         toUpperCase b <> newline ->
         fontData (toUpperCase b) = Some blank ->
         strokes blank = [] ->
         toUpperCase c <> newline ->
         fontData (toUpperCase c) = Some glyph ->
         strokes glyph = (first :: stroke) :: more ->
         generateTrajectory fontData text config = None).
Proof.
  split.
  - intros trajectory. unfold generateTrajectory.
    destruct (write fontData _ config [] 0 0 true) as [written|] eqn:Hw;
      [|discriminate].
    pose proof (write_styled _ _ _ _ _ _ _ (Forall_nil _) Hw) as Hall.
    destruct (nth_error written (length written - 1)) as [lastPoint|]
      eqn:Hlast; intros H; injection H as <-.
    + split.
      * apply Forall_app; split; [exact Hall|].
        repeat constructor; apply lifted_styled.
      * intros _. now exists written, lastPoint.
    + split; [exact Hall|]. intros Hne. exfalso.
      destruct written as [|p ps]; [congruence|].
      apply nth_error_None in Hlast. cbn [length] in Hlast. lia.
  - intros b c rest blank glyph first stroke more -> Hb Hblank Hnone Hc
           Hglyph Hsome.
    assert (Hempty : forall ox oy,
               generateCharTrajectory fontData (toUpperCase b) ox oy config
               = []).
    { intros ox oy. unfold generateCharTrajectory.
      now rewrite Hblank, Hnone. }
    assert (Hfull : forall ox oy, exists p ps,
               generateCharTrajectory fontData (toUpperCase c) ox oy config
               = p :: ps).
    { intros ox oy. unfold generateCharTrajectory.
      rewrite Hglyph, Hsome. cbn [flat_map map app]. eauto. }
    apply Ascii.eqb_neq in Hb. apply Ascii.eqb_neq in Hc.
    unfold generateTrajectory.
    cbn [list_ascii_of_string map write].
    rewrite Hb, Hblank. cbv zeta. rewrite Hempty.
    cbn [negb andb app]. rewrite Hc, Hglyph.
    match goal with
    | |- context [generateCharTrajectory fontData (toUpperCase c) ?ox ?oy
                    config] =>
        destruct (Hfull ox oy) as (p & ps & ->)
    end.
    reflexivity.
Qed.

End TextProperties.

(** X30 on the text [" a"] with the font entries of the blank and of
    the letter A. *)
Lemma generateTrajectory_pen_witness :
  let fontData c :=
    if Ascii.eqb c " "%char then
      Some {| HandwritingEngine.width := 12;
              HandwritingEngine.strokes := [] |}
    else if Ascii.eqb c "A"%char then
      Some {| HandwritingEngine.width := 20;
              HandwritingEngine.strokes :=
                [ [(0, 0); (10, 20)];
                  [(10, 20); (20, 0)];
                  [(5, 10); (15, 10)] ] |}
    else None in
  HandwritingEngine.generateTrajectory fontData " a"
    HandwritingEngine.defaultParams = None.
Proof.
  intros fontData.
  apply (proj2 (generateTrajectory_pen fontData " a"
                  HandwritingEngine.defaultParams))
    with (b := " "%char) (c := "a"%char) (rest := EmptyString)
         (blank := {| HandwritingEngine.width := 12;
                      HandwritingEngine.strokes := [] |})
         (glyph := {| HandwritingEngine.width := 20;
                      HandwritingEngine.strokes :=
                        [ [(0, 0); (10, 20)];
                          [(10, 20); (20, 0)];
                          [(5, 10); (15, 10)] ] |})
         (first := (0, 0)) (stroke := [(10, 20)])
         (more := [ [(10, 20); (20, 0)]; [(5, 10); (15, 10)] ]).
  - reflexivity.
  - discriminate.
  - reflexivity.
  - reflexivity.
  - discriminate.
  - reflexivity.
  - reflexivity.
Defined.
